(** * METAR-Vibe: the report parsing, classification and translation engine

    A shallow embedding of the server's pure functions ([parseVisibility],
    [parseCeiling], [getFlightCategory], [translateMetar], [translateTaf]),
    of the station check at the head of its request handler and of the
    client's list of recent searches ([addToRecent]), together with the
    part of the JavaScript runtime they rely on: strings of UTF-16 code
    units, the backtracking regular-expression matcher,
    [RegExp.prototype.exec]/[test], [String.prototype.match], [parseInt],
    binary64 numbers and their conversions to text. *)

From Stdlib Require Import String Ascii DecimalString.
From Stdlib Require Import List NArith ZArith Bool Lia.
From Stdlib Require Import Floats.SpecFloat Sorting.Sorted.
Import ListNotations.

(* ================================================================== *)
(** * JavaScript strings *)

(** A JavaScript string is a sequence of UTF-16 code units. *)
Definition jsstring := list N.

(** Decoding of a UTF-8 source literal into code units (one, two and
    three byte sequences; nothing outside the basic plane is written in
    the program text). *)
Fixpoint utf8_decode (bs : list N) : jsstring :=
  match bs with
  | [] => []
  | b0 :: t0 =>
      if (b0 <? 128)%N then b0 :: utf8_decode t0
      else if (b0 <? 224)%N then
        match t0 with
        | b1 :: t1 => ((b0 - 192) * 64 + (b1 - 128))%N :: utf8_decode t1
        | [] => [b0]
        end
      else
        match t0 with
        | b1 :: b2 :: t2 =>
            ((b0 - 224) * 4096 + (b1 - 128) * 64 + (b2 - 128))%N :: utf8_decode t2
        | _ => b0 :: t0
        end
  end.

Definition lit (s : string) : jsstring :=
  utf8_decode (map N_of_ascii (list_ascii_of_string s)).

Definition jseqb (a b : jsstring) : bool :=
  if list_eq_dec N.eq_dec a b then true else false.

(** [Array.prototype.join]. *)
Fixpoint join (sep : jsstring) (xs : list jsstring) : jsstring :=
  match xs with
  | [] => []
  | [x] => x
  | x :: t => x ++ sep ++ join sep t
  end.

(** Character classes of the regular-expression dialect (no [u] or [i]
    flag is used anywhere in the program). *)
Definition in_range (lo hi c : N) : bool := ((lo <=? c) && (c <=? hi))%N.

Definition is_digit (c : N) : bool := in_range 48 57 c.

Definition is_word (c : N) : bool :=
  in_range 97 122 c || in_range 65 90 c || in_range 48 57 c || (c =? 95)%N.

(** [WhiteSpace] and [LineTerminator] code points: what [\s] matches and
    what [String.prototype.trim] strips. *)
Definition is_space (c : N) : bool :=
  in_range 9 13 c || (c =? 32)%N || (c =? 160)%N || (c =? 5760)%N
  || in_range 8192 8202 c || (c =? 8232)%N || (c =? 8233)%N
  || (c =? 8239)%N || (c =? 8287)%N || (c =? 12288)%N || (c =? 65279)%N.

Definition one_of (cs : jsstring) (c : N) : bool :=
  existsb (N.eqb c) cs.

(* ================================================================== *)
(** * Outcomes of a computation

    A call either returns a value, throws (the only exception the
    translators can raise is the [TypeError] of reading a property of
    [undefined]) or never returns (an [exec] loop that stops advancing). *)

Inductive outcome (A : Type) : Type :=
| Ret (a : A)
| Throw
| Diverge.

Arguments Ret {A} a.
Arguments Throw {A}.
Arguments Diverge {A}.

Definition bind {A B : Type} (c : outcome A) (f : A -> outcome B) : outcome B :=
  match c with
  | Ret a => f a
  | Throw => Throw
  | Diverge => Diverge
  end.

Notation "x <- c ;; k" := (bind c (fun x => k))
  (at level 61, c at next level, right associativity).

(* ================================================================== *)
(** * The regular-expression matcher *)

Module RegExp.

(** The pattern syntax the program uses.  [Cls] is a class escape or a
    bracket class, [WordB] is [\b], [Grp i] is the [i]-th capturing
    group, [Opt] is the greedy [?] and [RepCls p lo hi] the greedy
    quantifier [{lo,hi}] ([+] when [hi] is [None]) applied to a
    one-character class, the only operand quantifiers other than [?]
    have in the program. *)
Inductive regex : Type :=
| Eps
| Chr (c : N)
| Cls (p : N -> bool)
| WordB
| Seq (a b : regex)
| Alt (a b : regex)
| Grp (i : nat) (a : regex)
| Opt (a : regex)
| RepCls (p : N -> bool) (lo : nat) (hi : option nat).

(** A matcher state: the input before the current position (nearest
    character first), the input after it, and the captures so far. *)
Record mstate : Type := MState {
  seen : list N;
  rest : list N;
  caps : list (nat * jsstring)
}.

Definition cont := mstate -> option mstate.

Definition head_is_word (l : list N) : bool :=
  match l with
  | c :: _ => is_word c
  | [] => false
  end.

Definition at_boundary (x : mstate) : bool :=
  xorb (head_is_word (seen x)) (head_is_word (rest x)).

Definition step (x : mstate) (c : N) (t : list N) : mstate :=
  MState (c :: seen x) t (caps x).

Definition captured (x y : mstate) : jsstring :=
  firstn (length (rest x) - length (rest y)) (rest x).

Definition set_cap (i : nat) (w : jsstring) (y : mstate) : mstate :=
  MState (seen y) (rest y) ((i, w) :: caps y).

Fixpoint groups (r : regex) : list nat :=
  match r with
  | Seq a b | Alt a b => groups a ++ groups b
  | Grp i a => i :: groups a
  | Opt a => groups a
  | _ => []
  end.

Definition clear_caps (gs : list nat) (x : mstate) : mstate :=
  MState (seen x) (rest x)
         (filter (fun p => negb (existsb (Nat.eqb (fst p)) gs)) (caps x)).

Fixpoint lookup_cap (i : nat) (cs : list (nat * jsstring)) : option jsstring :=
  match cs with
  | [] => None
  | (j, w) :: t => if Nat.eqb i j then Some w else lookup_cap i t
  end.

Definition hi_is_zero (hi : option nat) : bool :=
  match hi with
  | Some O => true
  | _ => false
  end.

(** Greedy repetition of a one-character class: take one more character
    when allowed, fall back to stopping here. *)
Fixpoint rep_cls (p : N -> bool) (lo : nat) (hi : option nat)
         (sn rs : list N) (cs : list (nat * jsstring)) (k : cont) : option mstate :=
  let stop := if Nat.eqb lo 0 then k (MState sn rs cs) else None in
  if hi_is_zero hi then k (MState sn rs cs)
  else
    match rs with
    | c :: t =>
        if p c then
          match rep_cls p (pred lo) (option_map pred hi) (c :: sn) t cs k with
          | Some z => Some z
          | None => stop
          end
        else stop
    | [] => stop
    end.

(** The backtracking matcher, in continuation-passing style as in the
    language definition: [rmatch r x k] matches [r] at [x] and hands
    every candidate end state to [k], in priority order, until [k]
    accepts one. *)
Fixpoint rmatch (r : regex) (x : mstate) (k : cont) : option mstate :=
  match r with
  | Eps => k x
  | Chr c =>
      match rest x with
      | c' :: t => if (c =? c')%N then k (step x c' t) else None
      | [] => None
      end
  | Cls p =>
      match rest x with
      | c' :: t => if p c' then k (step x c' t) else None
      | [] => None
      end
  | WordB => if at_boundary x then k x else None
  | Seq a b => rmatch a x (fun y => rmatch b y k)
  | Alt a b =>
      match rmatch a x k with
      | Some z => Some z
      | None => rmatch b x k
      end
  | Grp i a => rmatch a x (fun y => k (set_cap i (captured x y) y))
  | Opt a =>
      match rmatch a (clear_caps (groups a) x)
                   (fun y => if Nat.eqb (length (rest y)) (length (rest x))
                             then None else k y) with
      | Some z => Some z
      | None => k x
      end
  | RepCls p lo hi => rep_cls p lo hi (seen x) (rest x) (caps x) k
  end.

(** A successful match: where it starts, where it ends, and its
    captures ([m_end] carries them). *)
Record rmatch_result : Type := MatchResult {
  m_start : mstate;
  m_end : mstate
}.

Definition m_text (m : rmatch_result) : jsstring := captured (m_start m) (m_end m).
Definition m_group (i : nat) (m : rmatch_result) : option jsstring :=
  lookup_cap i (caps (m_end m)).

(** [RegExpBuiltinExec] without the sticky flag: try the pattern at
    [lastIndex], then at every later index up to the end of the input. *)
Fixpoint scan (r : regex) (sn rs : list N) : option rmatch_result :=
  let x := MState sn rs [] in
  match rmatch r x Some with
  | Some y => Some (MatchResult x y)
  | None =>
      match rs with
      | [] => None
      | c :: t => scan r (c :: sn) t
      end
  end.

(** [re.exec(s)] on a pattern without the [g] flag, [s.match(re)] for
    such a pattern, and (as a boolean) [re.test(s)]. *)
Definition exec (r : regex) (s : jsstring) : option rmatch_result :=
  scan r [] s.

Definition test (r : regex) (s : jsstring) : bool :=
  match exec r s with
  | Some _ => true
  | None => false
  end.

(** The loop [while ((m = re.exec(s)) !== null) body] on a pattern with
    the [g] flag: each call resumes at the end of the previous match
    ([lastIndex]).  A match that consumes nothing leaves [lastIndex]
    where it was, and the loop never ends; the counter bounds the number
    of matches that do consume something. *)
Fixpoint exec_loop {A : Type} (n : nat) (r : regex) (body : A -> rmatch_result -> A)
         (acc : A) (sn rs : list N) : outcome A :=
  match scan r sn rs with
  | None => Ret acc
  | Some m =>
      match n with
      | O => Diverge
      | S n' =>
          if Nat.eqb (length (rest (m_end m))) (length (rest (m_start m)))
          then Diverge
          else exec_loop n' r body (body acc m) (seen (m_end m)) (rest (m_end m))
      end
  end.

Definition while_exec {A : Type} (r : regex) (s : jsstring)
           (body : A -> rmatch_result -> A) (init : A) : outcome A :=
  exec_loop (length s) r body init [] s.

(** [s.match(re)] on a pattern with the [g] flag: the texts of all
    matches ([null], read as the empty array by the caller's [?? []],
    when there is none).  After an empty match the built-in advances
    [lastIndex] by one. *)
Fixpoint match_all_from (n : nat) (r : regex) (sn rs : list N) : list jsstring :=
  match n with
  | O => []
  | S n' =>
      match scan r sn rs with
      | None => []
      | Some m =>
          let y := m_end m in
          if Nat.eqb (length (rest y)) (length (rest (m_start m))) then
            match rest y with
            | [] => [m_text m]
            | c :: t => m_text m :: match_all_from n' r (c :: seen y) t
            end
          else m_text m :: match_all_from n' r (seen y) (rest y)
      end
  end.

Definition match_all (r : regex) (s : jsstring) : list jsstring :=
  match_all_from (S (length s)) r [] s.

(** Pattern-building helpers. *)
Fixpoint str (cs : jsstring) : regex :=
  match cs with
  | [] => Eps
  | [c] => Chr c
  | c :: t => Seq (Chr c) (str t)
  end.

Fixpoint seq (rs : list regex) : regex :=
  match rs with
  | [] => Eps
  | [r] => r
  | r :: t => Seq r (seq t)
  end.

Fixpoint alt (rs : list regex) : regex :=
  match rs with
  | [] => Eps
  | [r] => r
  | r :: t => Alt r (alt t)
  end.

Definition word (s : string) : regex := str (lit s).
Definition digits_plus : regex := RepCls is_digit 1 None.
Definition digits_n (lo hi : nat) : regex := RepCls is_digit lo (Some hi).

End RegExp.

Import RegExp.

(* ================================================================== *)
(** * Numbers and their conversions *)

(** The code unit of an ASCII character of the program text. *)
Definition ch (a : ascii) : N := N_of_ascii a.

(** [parseInt] on a string of decimal digits, the only arguments it
    receives in the program (each one is the capture of a [\d+] or
    [\d{n}] group): the integer the digits denote.  Integers of at most
    four digits and their products by 100 are exact in binary64, so they
    are kept as integers. *)
Definition digit_val (c : N) : Z := (Z.of_N c - 48)%Z.

Definition parseInt (w : jsstring) : Z :=
  fold_left (fun acc c => 10 * acc + digit_val c)%Z w 0%Z.

(** [String(n)] for an integer. *)
Definition Z_to_js (n : Z) : jsstring :=
  lit (NilZero.string_of_int (Z.to_int n)).

(** [n.toLocaleString()] for a non-negative integer in the runtime's
    default [en-US] locale: digits in groups of three, separated by
    commas (the input is the digits, least significant first). *)
Fixpoint group3 (ds : list N) : list N :=
  match ds with
  | a :: b :: c :: t =>
      match t with
      | [] => ds
      | _ :: _ => a :: b :: c :: ch "," :: group3 t
      end
  | _ => ds
  end.

Definition toLocaleString (n : Z) : jsstring :=
  rev (group3 (rev (Z_to_js n))).

(** [String.prototype.padStart(2, "0")]. *)
Definition padStart2 (w : jsstring) : jsstring :=
  match w with
  | [c] => [ch "0"; c]
  | [] => [ch "0"; ch "0"]
  | _ => w
  end.

(** A Number that need not be a small integer (a visibility, an
    altimeter setting) is an IEEE 754 binary64 value. *)
Definition number := spec_float.

Definition f_prec : Z := 53.
Definition f_emax : Z := 1024.

(** The Number nearest to an integer (ties to even), as [parseInt]
    returns it. *)
Definition of_Z (n : Z) : number := binary_normalize f_prec f_emax n 0 false.

Definition num_add : number -> number -> number := SFadd f_prec f_emax.
Definition num_div : number -> number -> number := SFdiv f_prec f_emax.
Definition num_lt : number -> number -> bool := SFltb.
Definition num_le : number -> number -> bool := SFleb.
Definition num_eq : number -> number -> bool := SFeqb.

(** [x % 1]. *)
Definition num_rem1 (x : number) : number :=
  match x with
  | S754_nan | S754_infinity _ => S754_nan
  | S754_zero s => S754_zero s
  | S754_finite s m e =>
      if (0 <=? e)%Z then S754_zero s
      else binary_normalize f_prec f_emax
             (cond_Zopp s (Z.rem (Z.pos m) (2 ^ (- e)))) e s
  end.

(** The integer a positive integral Number denotes. *)
Definition int_value (x : number) : Z :=
  match x with
  | S754_finite _ m e => Z.shiftl (Z.pos m) e
  | _ => 0%Z
  end.

(** The digits [Number::toString] prints for a positive integral Number
    (the program prints a Number this way only when [x % 1 === 0]): the
    shortest digit string [s], of [k] digits, such that [s * 10^(n-k)]
    still denotes [x]; the one nearest to [x], then the even one, when
    several have that length. *)
Definition digit_candidates (x : number) (k : nat) : list (Z * nat) :=
  let X := int_value x in
  let d := length (Z_to_js X) in
  flat_map (fun n =>
    if Nat.leb k n then
      let p := (10 ^ Z.of_nat (n - k))%Z in
      let s0 := (X / p)%Z in
      filter (fun sn =>
                let s := fst sn in
                (10 ^ Z.of_nat (k - 1) <=? s)%Z && (s <? 10 ^ Z.of_nat k)%Z
                && num_eq (of_Z (s * p)) x)
             [(s0, n); ((s0 + 1)%Z, n)]
    else []) [d; S d].

Definition candidate_error (x : number) (k : nat) (sn : Z * nat) : Z :=
  Z.abs (fst sn * 10 ^ Z.of_nat (snd sn - k) - int_value x).

Definition better_candidate (x : number) (k : nat) (a b : Z * nat) : Z * nat :=
  match (candidate_error x k a ?= candidate_error x k b)%Z with
  | Lt => a
  | Gt => b
  | Eq => if Z.even (fst a) then a else b
  end.

Fixpoint shortest_digits (x : number) (tries : nat) (k : nat) : option (Z * nat * nat) :=
  match tries with
  | O => None
  | S tries' =>
      match digit_candidates x k with
      | [] => shortest_digits x tries' (S k)
      | c :: cs =>
          let best := fold_left (better_candidate x k) cs c in
          Some (fst best, k, snd best)
      end
  end.

(** Seventeen digits always suffice for a binary64 value.  Up to
    [10^21] the digits are followed by zeros, beyond it the exponent
    form is used. *)
Definition integral_toString (x : number) : jsstring :=
  match shortest_digits x 17 1 with
  | None => []
  | Some (s, k, n) =>
      let ds := Z_to_js s in
      if Nat.leb n 21 then ds ++ repeat (ch "0") (n - k)
      else
        match ds with
        | [] => []
        | d0 :: more =>
            d0 :: (match more with [] => [] | _ :: _ => ch "." :: more end)
            ++ lit "e+" ++ Z_to_js (Z.of_nat (n - 1))
        end
  end.

Definition Number_toString (x : number) : jsstring :=
  match x with
  | S754_nan => lit "NaN"
  | S754_infinity s => if s then lit "-Infinity" else lit "Infinity"
  | S754_zero _ => lit "0"
  | S754_finite s m e =>
      (if s then [ch "-"] else []) ++ integral_toString (S754_finite false m e)
  end.

(** [x.toFixed(2)]. *)
Definition toFixed2 (x : number) : jsstring :=
  match x with
  | S754_nan | S754_infinity _ => Number_toString x
  | S754_zero _ => lit "0.00"
  | S754_finite s m e =>
      if num_le (of_Z (10 ^ 21)) (S754_finite false m e) then Number_toString x
      else
        let n := if (0 <=? e)%Z then (100 * Z.pos m * 2 ^ e)%Z
                 else ((200 * Z.pos m + 2 ^ (- e)) / (2 * 2 ^ (- e)))%Z in
        let ds := Z_to_js n in
        let ds := repeat (ch "0") (3 - length ds) ++ ds in
        (if s then [ch "-"] else [])
        ++ firstn (length ds - 2) ds ++ [ch "."] ++ skipn (length ds - 2) ds
  end.

(* ================================================================== *)
(** * Built-in string and object operations *)

(** The string a capture reads as where a string is expected:
    [undefined] (a group that did not take part) reads ["undefined"]. *)
Definition to_str (o : option jsstring) : jsstring :=
  match o with
  | Some w => w
  | None => lit "undefined"
  end.

(** Property lookup [table[key]] in an object literal with string keys
    (no key used here names an inherited property). *)
Fixpoint lookup (table : list (jsstring * jsstring)) (key : jsstring) : option jsstring :=
  match table with
  | [] => None
  | (k, v) :: t => if jseqb k key then Some v else lookup t key
  end.

(** [toUpperCase] and [toLowerCase] of one code unit, on the ASCII
    letters (the program applies them to ASCII text only). *)
Definition upper1 (c : N) : N := if in_range 97 122 c then (c - 32)%N else c.
Definition lower1 (c : N) : N := if in_range 65 90 c then (c + 32)%N else c.

Definition toLowerCase (w : jsstring) : jsstring := map lower1 w.

(** [w[0].toUpperCase() + w.slice(1)]: on the empty string [w[0]] is
    [undefined] and the method call throws. *)
Definition capitalize (w : jsstring) : outcome jsstring :=
  match w with
  | [] => Throw
  | c :: t => Ret (upper1 c :: t)
  end.

Fixpoint trimStart (w : jsstring) : jsstring :=
  match w with
  | c :: t => if is_space c then trimStart t else w
  | [] => []
  end.

(** [String.prototype.trim]. *)
Definition trim (w : jsstring) : jsstring :=
  rev (trimStart (rev (trimStart w))).

Definition startsWith (w : jsstring) (c : N) : bool :=
  match w with
  | c' :: _ => (c =? c')%N
  | [] => false
  end.

(* ================================================================== *)
(** * Flight category helpers (server, lines 11-82) *)

(** [/\bM\d+\/\d+SM\b/] *)
Definition lessRe : regex :=
  seq [WordB; Chr (ch "M"); digits_plus; Chr (ch "/"); digits_plus; word "SM"; WordB].

(** [/\b(\d+)\s+(\d+)\/(\d+)SM\b/] *)
Definition mixedRe : regex :=
  seq [WordB; Grp 1 digits_plus; RepCls is_space 1 None; Grp 2 digits_plus;
       Chr (ch "/"); Grp 3 digits_plus; word "SM"; WordB].

(** [/\b(\d+)\/(\d+)SM\b/] *)
Definition fracRe : regex :=
  seq [WordB; Grp 1 digits_plus; Chr (ch "/"); Grp 2 digits_plus; word "SM"; WordB].

(** [/\b(\d+)SM\b/] *)
Definition wholeRe : regex :=
  seq [WordB; Grp 1 digits_plus; word "SM"; WordB].

(** [parseInt] of a capture, as a Number. *)
Definition parseNum (o : option jsstring) : number := of_Z (parseInt (to_str o)).

Definition parseVisibility (metar : jsstring) : option number :=
  if test lessRe metar then Some (of_Z 0)
  else
    match exec mixedRe metar with
    | Some mixedMatch =>
        Some (num_add (parseNum (m_group 1 mixedMatch))
                      (num_div (parseNum (m_group 2 mixedMatch))
                               (parseNum (m_group 3 mixedMatch))))
    | None =>
        match exec fracRe metar with
        | Some fracMatch =>
            Some (num_div (parseNum (m_group 1 fracMatch))
                          (parseNum (m_group 2 fracMatch)))
        | None =>
            match exec wholeRe metar with
            | Some wholeMatch => Some (parseNum (m_group 1 wholeMatch))
            | None => None
            end
        end
    end.

(** [/\b(BKN|OVC)(\d{3})\b/g] *)
Definition layerRe : regex :=
  seq [WordB; Grp 1 (Alt (word "BKN") (word "OVC")); Grp 2 (digits_n 3 3); WordB].

(** The body of the loop (lines 50-51): the new value of [lowestFt]. *)
Definition lowest_step (lowestFt : option Z) (m : rmatch_result) : option Z :=
  let ft := (parseInt (to_str (m_group 2 m)) * 100)%Z in
  match lowestFt with
  | None => Some ft
  | Some low => if (ft <? low)%Z then Some ft else lowestFt
  end.

Definition parseCeiling (metar : jsstring) : outcome (option Z) :=
  while_exec layerRe metar lowest_step None.

Inductive category : Type := VFR | MVFR | IFR | LIFR.

Record flight : Type := Flight {
  flight_category : category;
  visibilitySM : option number;
  ceilingFt : option Z
}.

(** [ceil !== null && ceil < n] and [vis !== null && vis < n]. *)
Definition ceil_lt (ceil : option Z) (n : Z) : bool :=
  match ceil with
  | Some c => (c <? n)%Z
  | None => false
  end.

Definition ceil_le (ceil : option Z) (n : Z) : bool :=
  match ceil with
  | Some c => (c <=? n)%Z
  | None => false
  end.

Definition vis_lt (vis : option number) (n : Z) : bool :=
  match vis with
  | Some v => num_lt v (of_Z n)
  | None => false
  end.

Definition vis_le (vis : option number) (n : Z) : bool :=
  match vis with
  | Some v => num_le v (of_Z n)
  | None => false
  end.

Definition getFlightCategory (metarString : jsstring) : outcome flight :=
  let vis := parseVisibility metarString in
  ceil <- parseCeiling metarString ;;
  if ceil_lt ceil 500 || vis_lt vis 1 then Ret (Flight LIFR vis ceil)
  else if ceil_lt ceil 1000 || vis_lt vis 3 then Ret (Flight IFR vis ceil)
  else if ceil_le ceil 3000 || vis_le vis 5 then Ret (Flight MVFR vis ceil)
  else Ret (Flight VFR vis ceil).

(* ================================================================== *)
(** * METAR / TAF translation (server, lines 84-210) *)

Definition SKY_COVER : list (jsstring * jsstring) :=
  [(lit "FEW", lit "few clouds"); (lit "SCT", lit "scattered clouds");
   (lit "BKN", lit "broken clouds"); (lit "OVC", lit "overcast")].

(** [/\b(VRB|\d{3})(\d{2,3})(G(\d{2,3}))?KT\b/] *)
Definition windRe : regex :=
  seq [WordB; Grp 1 (Alt (word "VRB") (digits_n 3 3)); Grp 2 (digits_n 2 3);
       Opt (Grp 3 (Seq (Chr (ch "G")) (Grp 4 (digits_n 2 3))));
       word "KT"; WordB].

(** The value of [windMatch[4] ? ` gusting ${parseInt(windMatch[4])} knots` : ""]:
    an absent capture and an empty one are both falsy. *)
Definition gust_text (g : option jsstring) : jsstring :=
  match g with
  | Some ((_ :: _) as w) => lit " gusting " ++ Z_to_js (parseInt w) ++ lit " knots"
  | _ => []
  end.

(** Wind (lines 93-100). *)
Definition metar_wind (metarString : jsstring) : list jsstring :=
  match exec windRe metarString with
  | Some windMatch =>
      let dir := if jseqb (to_str (m_group 1 windMatch)) (lit "VRB")
                 then lit "variable"
                 else to_str (m_group 1 windMatch) ++ lit "°" in
      let spd := parseInt (to_str (m_group 2 windMatch)) in
      let gust := gust_text (m_group 4 windMatch) in
      [if (spd =? 0)%Z then lit "Winds calm."
       else lit "Wind " ++ dir ++ lit " at " ++ Z_to_js spd ++ lit " knots" ++ gust ++ lit "."]
  | None => []
  end.

(** Visibility (lines 102-106, and again 184-188 in the TAF path). *)
Definition visibility_sentence (report : jsstring) : list jsstring :=
  match parseVisibility report with
  | Some vis =>
      [lit "Visibility "
       ++ (if num_eq (num_rem1 vis) (of_Z 0) then Number_toString vis else toFixed2 vis)
       ++ lit " statute mile" ++ (if num_eq vis (of_Z 1) then [] else lit "s") ++ lit "."]
  | None => []
  end.

Definition wxCodes : list (jsstring * jsstring) :=
  [(lit "RA", lit "rain"); (lit "SN", lit "snow"); (lit "DZ", lit "drizzle");
   (lit "TS", lit "thunderstorm"); (lit "FG", lit "fog"); (lit "BR", lit "mist");
   (lit "HZ", lit "haze"); (lit "SQ", lit "squalls"); (lit "GR", lit "hail");
   (lit "GS", lit "snow pellets"); (lit "UP", lit "unknown precipitation");
   (lit "FU", lit "smoke"); (lit "SA", lit "sand"); (lit "DU", lit "dust")].

Definition wxIntensity : list (jsstring * jsstring) :=
  [(lit "-", lit "light "); (lit "+", lit "heavy "); (lit "VC", lit "in vicinity ")].

(** [/\b([-+]|VC)?(MI|PR|BC|DR|BL|SH|TS|FZ)?(RA|SN|DZ|FG|BR|HZ|SQ|GR|GS|UP|FU|SA|DU|TS)\b/g] *)
Definition wxRe : regex :=
  seq [WordB;
       Opt (Grp 1 (Alt (Cls (one_of (lit "-+"))) (word "VC")));
       Opt (Grp 2 (alt (map word ["MI"; "PR"; "BC"; "DR"; "BL"; "SH"; "TS"; "FZ"]%string)));
       Grp 3 (alt (map word ["RA"; "SN"; "DZ"; "FG"; "BR"; "HZ"; "SQ"; "GR"; "GS";
                             "UP"; "FU"; "SA"; "DU"; "TS"]%string));
       WordB].

(** The phrase pushed for one match of [wxRe] (lines 119-121). *)
Definition wx_phrase (wxMatch : rmatch_result) : jsstring :=
  let intensity := match lookup wxIntensity (to_str (m_group 1 wxMatch)) with
                   | Some p => p
                   | None => []
                   end in
  let phenom := match lookup wxCodes (to_str (m_group 3 wxMatch)) with
                | Some p => p
                | None => toLowerCase (to_str (m_group 3 wxMatch))
                end in
  intensity ++ phenom.

(** The array [wxFound] after the loop (lines 116-122). *)
Definition wxFound (metarString : jsstring) : outcome (list jsstring) :=
  while_exec wxRe metarString (fun found wxMatch => found ++ [wx_phrase wxMatch]) [].

(** Weather phenomena (lines 108-126). *)
Definition metar_weather (metarString : jsstring) : outcome (list jsstring) :=
  found <- wxFound metarString ;;
  match found with
  | [] => Ret []
  | w0 :: ws =>
      first <- capitalize w0 ;;
      Ret [join (lit ", ") (first :: ws) ++ lit "."]
  end.

(** [/\b(FEW|SCT|BKN|OVC)(\d{3})(CB|TCU)?\b/], with the [g] flag in the
    METAR path and without it in the TAF path. *)
Definition skyRe : regex :=
  seq [WordB; Grp 1 (alt (map word ["FEW"; "SCT"; "BKN"; "OVC"]%string));
       Grp 2 (digits_n 3 3); Opt (Grp 3 (Alt (word "CB") (word "TCU"))); WordB].

(** [/\b(CLR|SKC|CAVOK)\b/] *)
Definition clearRe : regex :=
  seq [WordB; Grp 1 (alt (map word ["CLR"; "SKC"; "CAVOK"]%string)); WordB].

(** The phrase pushed for one match of [skyRe] in the METAR path
    (lines 133-136). *)
Definition metar_layer (skyMatch : rmatch_result) : jsstring :=
  let cover := match lookup SKY_COVER (to_str (m_group 1 skyMatch)) with
               | Some p => p
               | None => to_str (m_group 1 skyMatch)
               end in
  let alt := (parseInt (to_str (m_group 2 skyMatch)) * 100)%Z in
  let cb := match m_group 3 skyMatch with
            | Some g => if jseqb g (lit "CB") then lit " with cumulonimbus"
                        else if jseqb g (lit "TCU") then lit " with towering cumulus"
                        else []
            | None => []
            end in
  cover ++ lit " at " ++ toLocaleString alt ++ lit " feet" ++ cb.

(** The array [layers] before the sentence is built (lines 130-138). *)
Definition metar_layers (metarString : jsstring) : outcome (list jsstring) :=
  layers <- while_exec skyRe metarString
              (fun layers skyMatch => layers ++ [metar_layer skyMatch]) [] ;;
  Ret (if test clearRe metarString then layers ++ [lit "sky clear"] else layers).

(** Sky conditions (lines 128-142). *)
Definition metar_sky (metarString : jsstring) : outcome (list jsstring) :=
  layers <- metar_layers metarString ;;
  match layers with
  | [] => Ret []
  | l0 :: more =>
      first <- capitalize l0 ;;
      Ret [first
           ++ (if Nat.ltb 1 (length layers) then lit ", " ++ join (lit ", ") more else [])
           ++ lit "."]
  end.

(** [/\b(M?\d{2})\/(M?\d{2})\b/] *)
Definition tempRe : regex :=
  seq [WordB; Grp 1 (Seq (Opt (Chr (ch "M"))) (digits_n 2 2)); Chr (ch "/");
       Grp 2 (Seq (Opt (Chr (ch "M"))) (digits_n 2 2)); WordB].

(** [(s) => (s.startsWith("M") ? -parseInt(s.slice(1)) : parseInt(s))] *)
Definition parse_temp (s : jsstring) : Z :=
  if startsWith s (ch "M") then (- parseInt (tl s))%Z else parseInt s.

(** Temperature / dewpoint (lines 144-149). *)
Definition metar_temperature (metarString : jsstring) : list jsstring :=
  match exec tempRe metarString with
  | Some tempMatch =>
      [lit "Temperature " ++ Z_to_js (parse_temp (to_str (m_group 1 tempMatch)))
       ++ lit "°C, dewpoint " ++ Z_to_js (parse_temp (to_str (m_group 2 tempMatch)))
       ++ lit "°C."]
  | None => []
  end.

(** [/\bA(\d{4})\b/] *)
Definition altRe : regex :=
  seq [WordB; Chr (ch "A"); Grp 1 (digits_n 4 4); WordB].

(** Altimeter (lines 151-155). *)
Definition metar_altimeter (metarString : jsstring) : list jsstring :=
  match exec altRe metarString with
  | Some altMatch =>
      [lit "Altimeter " ++ toFixed2 (num_div (parseNum (m_group 1 altMatch)) (of_Z 100))
       ++ lit " inHg."]
  | None => []
  end.

(** The array [parts] at the [return] of [translateMetar]. *)
Definition metar_parts (metarString : jsstring) : outcome (list jsstring) :=
  let wind := metar_wind metarString in
  let vis := visibility_sentence metarString in
  wx <- metar_weather metarString ;;
  sky <- metar_sky metarString ;;
  let temp := metar_temperature metarString in
  let altim := metar_altimeter metarString in
  Ret (wind ++ vis ++ wx ++ sky ++ temp ++ altim).

(** [parts.length ? parts.join(" ") : fallback] *)
Definition finish (parts : list jsstring) (fallback : jsstring) : jsstring :=
  match parts with
  | [] => fallback
  | _ :: _ => join (lit " ") parts
  end.

Definition translateMetar (metarString : jsstring) : outcome jsstring :=
  parts <- metar_parts metarString ;;
  Ret (finish parts (lit "Unable to translate METAR.")).

(** [/\b(\d{2})(\d{2})\/(\d{2})(\d{2})\b/] *)
Definition periodRe : regex :=
  seq [WordB; Grp 1 (digits_n 2 2); Grp 2 (digits_n 2 2); Chr (ch "/");
       Grp 3 (digits_n 2 2); Grp 4 (digits_n 2 2); WordB].

(** Forecast period (lines 165-173). *)
Definition taf_period (tafString : jsstring) : list jsstring :=
  match exec periodRe tafString with
  | Some periodMatch =>
      let fromDay := parseInt (to_str (m_group 1 periodMatch)) in
      let fromHr := padStart2 (Z_to_js (parseInt (to_str (m_group 2 periodMatch)))) in
      let toDay := parseInt (to_str (m_group 3 periodMatch)) in
      let toHr := padStart2 (Z_to_js (parseInt (to_str (m_group 4 periodMatch)))) in
      [lit "Forecast valid day " ++ Z_to_js fromDay ++ lit " from " ++ fromHr
       ++ lit ":00Z to day " ++ Z_to_js toDay ++ lit " " ++ toHr ++ lit ":00Z."]
  | None => []
  end.

(** Initial wind (lines 175-182). *)
Definition taf_wind (tafString : jsstring) : list jsstring :=
  match exec windRe tafString with
  | Some windMatch =>
      let dir := if jseqb (to_str (m_group 1 windMatch)) (lit "VRB")
                 then lit "variable"
                 else to_str (m_group 1 windMatch) ++ lit "°" in
      let spd := parseInt (to_str (m_group 2 windMatch)) in
      let gust := gust_text (m_group 4 windMatch) in
      [if (spd =? 0)%Z then lit "Winds calm."
       else lit "Initial wind " ++ dir ++ lit " at " ++ Z_to_js spd ++ lit " knots"
            ++ gust ++ lit "."]
  | None => []
  end.

(** The phrase built for the match of [skyRe] in the TAF path
    (lines 194-197). *)
Definition taf_layer (skyMatch : rmatch_result) : jsstring :=
  let cover := match lookup SKY_COVER (to_str (m_group 1 skyMatch)) with
               | Some p => p
               | None => to_str (m_group 1 skyMatch)
               end in
  let alt := (parseInt (to_str (m_group 2 skyMatch)) * 100)%Z in
  let cb := match m_group 3 skyMatch with
            | Some g => if jseqb g (lit "CB") then lit " with cumulonimbus"
                        else if jseqb g (lit "TCU") then lit " with towering cumulus"
                        else []
            | None => []
            end in
  cover ++ lit " at " ++ toLocaleString alt ++ lit " feet" ++ cb.

(** [/\b(SKC|CAVOK)\b/] *)
Definition tafClearRe : regex :=
  seq [WordB; Grp 1 (Alt (word "SKC") (word "CAVOK")); WordB].

(** First sky layer only (lines 190-201). *)
Definition taf_sky (tafString : jsstring) : outcome (list jsstring) :=
  match exec skyRe tafString with
  | Some skyMatch =>
      sentence <- capitalize (taf_layer skyMatch) ;;
      Ret [sentence ++ lit "."]
  | None =>
      if test tafClearRe tafString then Ret [lit "Sky clear."] else Ret []
  end.

(** [/\b(TEMPO|BECMG|FM\d{6})\b/g] *)
Definition changeRe : regex :=
  seq [WordB;
       Grp 1 (alt [word "TEMPO"; word "BECMG"; Seq (word "FM") (digits_n 6 6)]);
       WordB].

(** Change groups (lines 203-207). *)
Definition taf_changes (tafString : jsstring) : list jsstring :=
  let changes := match_all changeRe tafString in
  match changes with
  | [] => []
  | _ :: _ =>
      [lit "Contains " ++ Z_to_js (Z.of_nat (length changes)) ++ lit " change group"
       ++ (if Nat.ltb 1 (length changes) then lit "s" else [])
       ++ lit " (" ++ join (lit ", ") changes ++ lit ")."]
  end.

(** The array [parts] at the final [return] of [translateTaf]. *)
Definition taf_parts (tafString : jsstring) : outcome (list jsstring) :=
  let period := taf_period tafString in
  let wind := taf_wind tafString in
  let vis := visibility_sentence tafString in
  sky <- taf_sky tafString ;;
  let changes := taf_changes tafString in
  Ret (period ++ wind ++ vis ++ sky ++ changes).

(** [!tafString || tafString.trim() === ""] *)
Definition taf_missing (tafString : jsstring) : bool :=
  jseqb tafString [] || jseqb (trim tafString) [].

Definition translateTaf (tafString : jsstring) : outcome jsstring :=
  if taf_missing tafString then Ret (lit "No TAF available.")
  else
    parts <- taf_parts tafString ;;
    Ret (finish parts (lit "Unable to translate TAF.")).

(* ================================================================== *)
(** * The weather request (server, lines 221-269) *)

(** [[a-zA-Z]] *)
Definition is_letter (c : N) : bool := in_range 97 122 c || in_range 65 90 c.

(** [/^[a-zA-Z]{3,4}$/]: what stands between the two anchors. *)
Definition stationRe : regex := RepCls is_letter 3 (Some 4).

(** [re.test(s)] for a pattern [^r$] without the [m] flag: [^] holds at
    index 0 only, so of the start indices [exec] goes through none but
    the first can succeed, and [$] accepts an end state only when
    nothing is left to read. *)
Definition test_anchored (r : regex) (s : jsstring) : bool :=
  match rmatch r (MState [] s [])
               (fun y => match rest y with [] => Some y | _ :: _ => None end) with
  | Some _ => true
  | None => false
  end.

(** [String.prototype.toUpperCase], on ASCII text. *)
Definition toUpperCase (w : jsstring) : jsstring := map upper1 w.

(** The head of the handler (lines 222-230): the status and the message
    of the early response, or the value of [upperStation] the requests
    to the weather service are built from.  The query parameter is a
    string or is absent. *)
Definition upperStation (station : option jsstring) : (Z * jsstring) + jsstring :=
  match station with
  | Some ((_ :: _) as st) =>
      if test_anchored stationRe st then inr (toUpperCase st)
      else inl (400%Z, lit "Invalid station. Must be 3–4 letters only (e.g. KORD).")
  | _ => inl (400%Z, lit "Invalid station. Must be 3–4 letters only (e.g. KORD).")
  end.





(* ================================================================== *)
(** * The recent searches of the web client (App.jsx, lines 10 and 89-93) *)

Definition MAX_RECENT : nat := 6.

(** The list [updated] that [addToRecent] stores:
    [[code, ...recent.filter((s) => s !== code)].slice(0, MAX_RECENT)]. *)
Definition addToRecent (recent : list jsstring) (code : jsstring) : list jsstring :=
  firstn MAX_RECENT (code :: filter (fun s => negb (jseqb s code)) recent).

(* ================================================================== *)
(** * What a pattern matches *)

(** A quantifier's bounds are in order (a pattern that breaks this is a
    syntax error). *)
Fixpoint wf (r : regex) : bool :=
  match r with
  | Seq a b | Alt a b => wf a && wf b
  | Grp _ a | Opt a => wf a
  | RepCls _ lo (Some h) => Nat.leb lo h
  | _ => true
  end.

Definition within (hi : option nat) (n : nat) : Prop :=
  match hi with
  | Some h => n <= h
  | None => True
  end.

(** [den r x y]: the pattern [r] can take the matcher from state [x] to
    state [y].  Unlike [rmatch] this says nothing about which of the
    possible end states is tried first. *)
Fixpoint den (r : regex) (x y : mstate) : Prop :=
  match r with
  | Eps => y = x
  | Chr c => exists t, rest x = c :: t /\ y = step x c t
  | Cls p => exists c t, rest x = c :: t /\ p c = true /\ y = step x c t
  | WordB => at_boundary x = true /\ y = x
  | Seq a b => exists z, den a x z /\ den b z y
  | Alt a b => den a x y \/ den b x y
  | Grp i a => exists z, den a x z /\ y = set_cap i (captured x z) z
  | Opt a =>
      y = x \/
      (den a (clear_caps (groups a) x) y /\ length (rest y) <> length (rest x))
  | RepCls p lo hi =>
      exists w t, rest x = w ++ t /\ forallb p w = true
                  /\ lo <= length w /\ within hi (length w)
                  /\ y = MState (rev w ++ seen x) t (caps x)
  end.

(** The least number of characters a match of the pattern consumes. *)
Fixpoint min_len (r : regex) : nat :=
  match r with
  | Chr _ | Cls _ => 1
  | Seq a b => min_len a + min_len b
  | Alt a b => Nat.min (min_len a) (min_len b)
  | Grp _ a => min_len a
  | RepCls _ lo _ => lo
  | _ => 0
  end.

(** The state of a search that has read [pre] and has [post] ahead. *)
Definition at_pos (pre post : jsstring) : mstate := MState (rev pre) post [].

(** The matches the loop [while ((m = re.exec(s)) !== null)] goes
    through, in order. *)
Fixpoint matches_from (n : nat) (r : regex) (sn rs : list N)
  : outcome (list rmatch_result) :=
  match scan r sn rs with
  | None => Ret []
  | Some m =>
      match n with
      | O => Diverge
      | S n' =>
          if Nat.eqb (length (rest (m_end m))) (length (rest (m_start m)))
          then Diverge
          else ms <- matches_from n' r (seen (m_end m)) (rest (m_end m)) ;;
               Ret (m :: ms)
      end
  end.

Definition exec_matches (r : regex) (s : jsstring) : outcome (list rmatch_result) :=
  matches_from (length s) r [] s.

(** No match of the pattern starts strictly inside another one. *)
Definition separated (r : regex) : Prop :=
  forall sn w1 w2 t y y',
    w1 <> [] -> w2 <> [] ->
    den r (MState sn (w1 ++ w2 ++ t) []) y -> rest y = t ->
    den r (MState (rev w1 ++ sn) (w2 ++ t) []) y' -> False.

(* ================================================================== *)
(** * The report micro-language, in the specification's terms *)

Definition digits (w : jsstring) : Prop := w <> [] /\ forallb is_digit w = true.
Definition blanks (w : jsstring) : Prop := w <> [] /\ forallb is_space w = true.

(** Nothing, or a character that is not a letter, digit or underscore,
    stands before (after) a token. *)
Definition free_before (pre : jsstring) : Prop := head_is_word (rev pre) = false.
Definition free_after (post : jsstring) : Prop := head_is_word post = false.

(** The token [tok] stands in the report [s] between [pre] and [post]. *)
Definition token_at (s pre tok post : jsstring) : Prop :=
  s = pre ++ tok ++ post /\ free_before pre /\ free_after post.

(** The four surface forms of a visibility (specification, 4.1). *)
Definition less_form (tok : jsstring) : Prop :=
  exists a b, digits a /\ digits b
              /\ tok = lit "M" ++ a ++ lit "/" ++ b ++ lit "SM".

Definition mixed_form (whole num den tok : jsstring) : Prop :=
  exists sp, digits whole /\ blanks sp /\ digits num /\ digits den
             /\ tok = whole ++ sp ++ num ++ lit "/" ++ den ++ lit "SM".

Definition frac_form (num den tok : jsstring) : Prop :=
  digits num /\ digits den /\ tok = num ++ lit "/" ++ den ++ lit "SM".

Definition whole_form (whole tok : jsstring) : Prop :=
  digits whole /\ tok = whole ++ lit "SM".

Definition has_less (s : jsstring) : Prop :=
  exists pre tok post, token_at s pre tok post /\ less_form tok.
Definition has_mixed (s : jsstring) : Prop :=
  exists pre tok post, token_at s pre tok post /\ exists w n d, mixed_form w n d tok.
Definition has_frac (s : jsstring) : Prop :=
  exists pre tok post, token_at s pre tok post /\ exists n d, frac_form n d tok.
Definition has_whole (s : jsstring) : Prop :=
  exists pre tok post, token_at s pre tok post /\ exists w, whole_form w tok.

(** [tok], standing after [pre], is the first token of the report [s]
    that has the form [form]. *)
Definition first_token (form : jsstring -> Prop) (s pre tok post : jsstring) : Prop :=
  token_at s pre tok post /\ form tok
  /\ forall pre' tok' post',
       token_at s pre' tok' post' -> form tok' -> length pre <= length pre'.

(** The number three digits denote. *)
Definition three_digits (ds : jsstring) (n : Z) : Prop :=
  exists a b c, ds = [a; b; c] /\ is_digit a = true /\ is_digit b = true
                /\ is_digit c = true
                /\ n = (100 * digit_val a + 10 * digit_val b + digit_val c)%Z.

(** A ceiling layer (specification, 4.2): [BKN] or [OVC] and three
    digits, hundreds of feet. *)
Definition ceiling_layer (tok : jsstring) (ft : Z) : Prop :=
  exists cov ds n, (cov = lit "BKN" \/ cov = lit "OVC") /\ three_digits ds n
                   /\ tok = cov ++ ds /\ ft = (n * 100)%Z.

(** The feet a match of [layerRe] stands for. *)
Definition layer_feet (m : rmatch_result) : Z :=
  (parseInt (to_str (m_group 2 m)) * 100)%Z.

(** A wind group (specification, 4.4.1). *)
Definition wind_form (dir spd gust tok : jsstring) : Prop :=
  (dir = lit "VRB" \/ (length dir = 3 /\ forallb is_digit dir = true))
  /\ (2 <= length spd <= 3 /\ forallb is_digit spd = true)
  /\ (gust = [] \/ exists g, gust = lit "G" ++ g /\ 2 <= length g <= 3
                             /\ forallb is_digit g = true)
  /\ tok = dir ++ spd ++ gust ++ lit "KT".

(** A sky layer (specification, 4.4.4). *)
Definition sky_form (tok : jsstring) : Prop :=
  exists cov ds suffix,
    In cov [lit "FEW"; lit "SCT"; lit "BKN"; lit "OVC"]
    /\ length ds = 3 /\ forallb is_digit ds = true
    /\ In suffix [[]; lit "CB"; lit "TCU"]
    /\ tok = cov ++ ds ++ suffix.

(** The phenomenon codes and the cover codes the patterns [wxRe] and
    [skyRe] list. *)
Definition wx_codes : list string :=
  ["RA"; "SN"; "DZ"; "FG"; "BR"; "HZ"; "SQ"; "GR"; "GS"; "UP"; "FU"; "SA"; "DU"; "TS"]%string.

Definition sky_covers : list string := ["FEW"; "SCT"; "BKN"; "OVC"]%string.

(** A temperature or dewpoint field and the Celsius value it denotes:
    two digits, negative after a leading [M]. *)
Definition temp_field (f : jsstring) (v : Z) : Prop :=
  exists a b, is_digit a = true /\ is_digit b = true
              /\ ((f = [a; b] /\ v = (10 * digit_val a + digit_val b)%Z)
                  \/ (f = ch "M" :: [a; b]
                      /\ v = (- (10 * digit_val a + digit_val b))%Z)).

Definition temp_shape (f : jsstring) : Prop := exists v, temp_field f v.

Definition temp_form (t d : Z) (tok : jsstring) : Prop :=
  exists ft fd, temp_field ft t /\ temp_field fd d /\ tok = ft ++ lit "/" ++ fd.

(** The sentences of the translations. *)
Definition calm_sentence : jsstring := lit "Winds calm.".

Definition temperature_sentence (t d : Z) : jsstring :=
  lit "Temperature " ++ Z_to_js t ++ lit "°C, dewpoint " ++ Z_to_js d ++ lit "°C.".

(** No group of the METAR (TAF) translation is found in the report. *)
Definition metar_nothing (s : jsstring) : Prop :=
  exec windRe s = None /\ parseVisibility s = None /\ exec wxRe s = None
  /\ exec skyRe s = None /\ test clearRe s = false
  /\ exec tempRe s = None /\ exec altRe s = None.

Definition taf_nothing (s : jsstring) : Prop :=
  exec periodRe s = None /\ exec windRe s = None /\ parseVisibility s = None
  /\ exec skyRe s = None /\ test tafClearRe s = false
  /\ exec changeRe s = None.

(** The rules of the classifier (specification, 4.3). *)
Definition ceiling_below (ceil : option Z) (n : Z) : Prop :=
  exists ft, ceil = Some ft /\ (ft < n)%Z.
Definition ceiling_at_most (ceil : option Z) (n : Z) : Prop :=
  exists ft, ceil = Some ft /\ (ft <= n)%Z.
Definition visibility_below (vis : option number) (n : Z) : Prop :=
  exists v, vis = Some v /\ num_lt v (of_Z n) = true.
Definition visibility_at_most (vis : option number) (n : Z) : Prop :=
  exists v, vis = Some v /\ num_le v (of_Z n) = true.

Definition lifr_rule (ceil : option Z) (vis : option number) : Prop :=
  ceiling_below ceil 500 \/ visibility_below vis 1.
Definition ifr_rule (ceil : option Z) (vis : option number) : Prop :=
  ceiling_below ceil 1000 \/ visibility_below vis 3.
Definition mvfr_rule (ceil : option Z) (vis : option number) : Prop :=
  ceiling_at_most ceil 3000 \/ visibility_at_most vis 5.

(** The templated wind sentence (specification, 4.4.1): the direction
    as written, or "variable"; the speed and the gust without leading
    zeros.  [gust] is the gust part of the token, empty or [G] and its
    digits. *)
Definition gust_phrase (gust : jsstring) : jsstring :=
  match gust with
  | [] => []
  | _ :: g => lit " gusting " ++ Z_to_js (parseInt g) ++ lit " knots"
  end.

Definition wind_sentence (lead dir spd gust : jsstring) : jsstring :=
  lead ++ (if jseqb dir (lit "VRB") then lit "variable" else dir ++ lit "°")
  ++ lit " at " ++ Z_to_js (parseInt spd) ++ lit " knots" ++ gust_phrase gust ++ lit ".".

(** An altimeter group: [A] and four digits, hundredths of an inch of
    mercury. *)
Definition altimeter_form (ds tok : jsstring) : Prop :=
  length ds = 4 /\ forallb is_digit ds = true /\ tok = lit "A" ++ ds.

Definition altimeter_sentence (n : Z) : jsstring :=
  lit "Altimeter " ++ Z_to_js (n / 100) ++ lit "." ++ padStart2 (Z_to_js (n mod 100))
  ++ lit " inHg.".

(** A validity period: day and hour, a slash, day and hour, two digits
    each. *)
Definition two_digits (w : jsstring) : Prop :=
  length w = 2 /\ forallb is_digit w = true.

Definition period_form (d1 h1 d2 h2 tok : jsstring) : Prop :=
  two_digits d1 /\ two_digits h1 /\ two_digits d2 /\ two_digits h2
  /\ tok = d1 ++ h1 ++ lit "/" ++ d2 ++ h2.

Definition period_sentence (d1 h1 d2 h2 : jsstring) : jsstring :=
  lit "Forecast valid day " ++ Z_to_js (parseInt d1) ++ lit " from " ++ h1
  ++ lit ":00Z to day " ++ Z_to_js (parseInt d2) ++ lit " " ++ h2 ++ lit ":00Z.".

(** A change group of a forecast. *)
Definition change_form (tok : jsstring) : Prop :=
  tok = lit "TEMPO" \/ tok = lit "BECMG"
  \/ exists ds, length ds = 6 /\ forallb is_digit ds = true /\ tok = lit "FM" ++ ds.

Definition changes_sentence (changes : list jsstring) : jsstring :=
  lit "Contains " ++ Z_to_js (Z.of_nat (length changes)) ++ lit " change group"
  ++ (if Nat.ltb 1 (length changes) then lit "s" else [])
  ++ lit " (" ++ join (lit ", ") changes ++ lit ").".

(** A number of hundredths written with two decimals. *)
Definition two_decimals (h : Z) : jsstring :=
  Z_to_js (h / 100) ++ lit "." ++ padStart2 (Z_to_js (h mod 100)).

(** The visibility sentence for [q / d] miles: the value itself when it
    is whole, else the value rounded to hundredths, halves upwards. *)
Definition fraction_visibility_sentence (q d : Z) : jsstring :=
  lit "Visibility "
  ++ (if (q mod d =? 0)%Z then Z_to_js (q / d)
      else two_decimals ((200 * q + d) / (2 * d)))
  ++ lit " statute mile" ++ (if (q =? d)%Z then [] else lit "s") ++ lit ".".

(** The remark a sky layer carries after its height. *)
Definition layer_remark (suffix : jsstring) : jsstring :=
  if jseqb suffix (lit "CB") then lit " with cumulonimbus"
  else if jseqb suffix (lit "TCU") then lit " with towering cumulus"
  else [].

(** The visibility sentence for a whole number of miles. *)
Definition whole_visibility_sentence (n : Z) : jsstring :=
  lit "Visibility " ++ Z_to_js n ++ lit " statute mile"
  ++ (if (n =? 1)%Z then [] else lit "s") ++ lit ".".

(** A sentence that cannot be taken for one of the fixed answers
    ["Unable to translate ..."] and ["No TAF available."]: it has three
    characters at least and starts differently. *)
Definition plain_sentence (p : jsstring) : Prop :=
  3 <= length p /\ firstn 3 p <> lit "Una" /\ firstn 3 p <> lit "No ".

(** How restrictive a flight category is. *)
Definition severity (c : category) : nat :=
  match c with
  | VFR => 0
  | MVFR => 1
  | IFR => 2
  | LIFR => 3
  end.

(** A ceiling is at least as low as another one; no ceiling is the
    highest. *)
Definition ceiling_no_higher (a b : option Z) : Prop :=
  match a, b with
  | Some x, Some y => (x <= y)%Z
  | Some _, None => True
  | None, Some _ => False
  | None, None => True
  end.

(** The same for two visibilities; no visibility is the highest. *)
Definition visibility_no_higher (a b : option number) : Prop :=
  match a, b with
  | Some x, Some y => num_le x y = true
  | _, None => True
  | None, Some _ => False
  end.

(* ================================================================== *)
(** * The matcher and what a pattern matches *)

Lemma rev_cons_app : forall (c : N) (w sn : list N),
  rev (c :: w) ++ sn = rev w ++ c :: sn.
Proof.
  intros c w sn. simpl. rewrite <- app_assoc. reflexivity.
Qed.

Lemma rep_cls_sound : forall p rs lo hi sn cs k z,
  within hi lo ->
  rep_cls p lo hi sn rs cs k = Some z ->
  exists w t, rs = w ++ t /\ forallb p w = true /\ lo <= length w
              /\ within hi (length w) /\ k (MState (rev w ++ sn) t cs) = Some z.
Proof.
  intros p rs. induction rs as [|c t IH]; intros lo hi sn cs k z Hwf H.
  - exists [], []. simpl in H.
    destruct (hi_is_zero hi) eqn:Hz.
    + destruct hi as [[|h]|]; try discriminate. simpl in Hwf.
      repeat split; simpl; auto; lia.
    + destruct (Nat.eqb lo 0) eqn:Hl; try discriminate.
      apply Nat.eqb_eq in Hl. subst lo.
      repeat split; simpl; auto.
  - simpl in H.
    destruct (hi_is_zero hi) eqn:Hz.
    + destruct hi as [[|h]|]; try discriminate. simpl in Hwf.
      exists [], (c :: t). repeat split; simpl; auto; lia.
    + assert (Hstop : (if Nat.eqb lo 0 then k (MState sn (c :: t) cs) else None) = Some z ->
                      exists w t', c :: t = w ++ t' /\ forallb p w = true /\ lo <= length w
                                   /\ within hi (length w)
                                   /\ k (MState (rev w ++ sn) t' cs) = Some z).
      { intros Hs. destruct (Nat.eqb lo 0) eqn:Hl; try discriminate.
        apply Nat.eqb_eq in Hl. subst lo.
        exists [], (c :: t). repeat split; simpl; auto. }
      destruct (p c) eqn:Hp; auto.
      destruct (rep_cls p (pred lo) (option_map pred hi) (c :: sn) t cs k) eqn:Hr; auto.
      inversion H; subst m. clear H Hstop.
      apply IH in Hr.
      * destruct Hr as (w & t' & Ht & Hall & Hlo & Hhi & Hk).
        exists (c :: w), t'. rewrite rev_cons_app.
        repeat split; auto.
        -- simpl. now rewrite Ht.
        -- simpl. now rewrite Hp.
        -- simpl. lia.
        -- destruct hi as [[|h]|]; simpl in *; auto; try discriminate. lia.
      * destruct hi as [[|h]|]; simpl in *; auto; try discriminate. lia.
Qed.

Lemma rep_cls_complete : forall p w t lo hi sn cs k,
  forallb p w = true -> lo <= length w -> within hi (length w) ->
  k (MState (rev w ++ sn) t cs) <> None ->
  rep_cls p lo hi sn (w ++ t) cs k <> None.
Proof.
  intros p w. induction w as [|c w IH]; intros t lo hi sn cs k Hall Hlo Hhi Hk.
  - simpl in *. assert (lo = 0) by lia. subst lo.
    destruct t as [|c t]; simpl.
    + destruct (hi_is_zero hi); auto.
    + destruct (hi_is_zero hi); auto.
      destruct (p c); auto.
      destruct (rep_cls p 0 (option_map pred hi) (c :: sn) t cs k); auto.
      discriminate.
  - simpl in Hall. apply andb_true_iff in Hall. destruct Hall as [Hc Hall].
    simpl. destruct (hi_is_zero hi) eqn:Hz.
    + destruct hi as [[|h]|]; try discriminate. simpl in Hhi. lia.
    + rewrite Hc.
      assert (Hrec : rep_cls p (pred lo) (option_map pred hi) (c :: sn) (w ++ t) cs k <> None).
      { apply IH; auto.
        - simpl in Hlo. lia.
        - destruct hi as [h|]; simpl in *; auto. lia.
        - rewrite <- rev_cons_app. exact Hk. }
      destruct (rep_cls p (pred lo) (option_map pred hi) (c :: sn) (w ++ t) cs k);
        [discriminate | contradiction].
Qed.

(** Every result of the matcher is reached through an end state the
    pattern allows. *)
Lemma rmatch_sound : forall r x k z,
  wf r = true -> rmatch r x k = Some z ->
  exists y, den r x y /\ k y = Some z.
Proof.
  induction r as [| c | p | | a IHa b IHb | a IHa b IHb | i a IHa | a IHa | p lo hi];
    intros x k z Hwf H; simpl in *.
  - eauto.
  - destruct (rest x) as [|c' t] eqn:Hr; try discriminate.
    destruct (N.eqb_spec c c'); try discriminate. subst c'. eauto.
  - destruct (rest x) as [|c' t] eqn:Hr; try discriminate.
    destruct (p c') eqn:Hp; try discriminate.
    exists (step x c' t). split; auto. exists c', t. auto.
  - destruct (at_boundary x) eqn:Hb; try discriminate. eauto.
  - apply andb_true_iff in Hwf. destruct Hwf as [Ha Hb].
    apply IHa in H; auto. destruct H as (y & Hy & H).
    apply IHb in H; auto. destruct H as (y' & Hy' & H). eauto.
  - apply andb_true_iff in Hwf. destruct Hwf as [Ha Hb].
    destruct (rmatch a x k) eqn:Hm.
    + inversion H; subst m. apply IHa in Hm; auto.
      destruct Hm as (y & Hy & Hk). eauto.
    + apply IHb in H; auto. destruct H as (y & Hy & Hk). eauto.
  - apply IHa in H; auto. destruct H as (y & Hy & Hk). eauto.
  - match type of H with
    | match ?e with _ => _ end = _ => destruct e eqn:Hm
    end.
    + inversion H; subst m. apply IHa in Hm; auto.
      destruct Hm as (y & Hy & Hk).
      destruct (Nat.eqb_spec (length (rest y)) (length (rest x))); try discriminate.
      exists y. split; auto.
    + eauto.
  - destruct hi as [h|].
    + apply Nat.leb_le in Hwf.
      apply rep_cls_sound in H; simpl; auto.
      destruct H as (w & t & Hr & Hall & Hlo & Hhi & Hk).
      exists (MState (rev w ++ seen x) t (caps x)). split; auto.
      exists w, t. auto.
    + apply rep_cls_sound in H; simpl; auto.
      destruct H as (w & t & Hr & Hall & Hlo & Hhi & Hk).
      exists (MState (rev w ++ seen x) t (caps x)). split; auto.
      exists w, t. auto.
Qed.

(** When the pattern allows an end state the continuation accepts, the
    matcher finds a result. *)
Lemma rmatch_complete : forall r x y k,
  den r x y -> k y <> None -> rmatch r x k <> None.
Proof.
  induction r as [| c | p | | a IHa b IHb | a IHa b IHb | i a IHa | a IHa | p lo hi];
    intros x y k Hd Hk; simpl in *.
  - now subst y.
  - destruct Hd as (t & Hr & Hy). rewrite Hr, N.eqb_refl. now subst y.
  - destruct Hd as (c & t & Hr & Hp & Hy). rewrite Hr, Hp. now subst y.
  - destruct Hd as [Hb Hy]. rewrite Hb. now subst y.
  - destruct Hd as (z & Ha & Hb). eapply IHa; eauto.
  - destruct (rmatch a x k) eqn:Hm; try discriminate.
    destruct Hd as [Ha | Hb]; eauto.
    exfalso. eapply IHa; eauto.
  - destruct Hd as (z & Ha & Hy). eapply IHa; eauto. simpl. now subst y.
  - match goal with
    | |- match ?e with _ => _ end <> _ => destruct e eqn:Hm
    end; try discriminate.
    destruct Hd as [Hy | [Ha Hlen]]; [now subst y|].
    exfalso. eapply IHa; [exact Ha | | exact Hm].
    simpl. destruct (Nat.eqb_spec (length (rest y)) (length (rest x))); auto.
  - destruct Hd as (w & t & Hr & Hall & Hlo & Hhi & Hy).
    rewrite Hr. apply rep_cls_complete; auto. now subst y.
Qed.

(** A match only moves forward: it consumes a stretch [w] of the input. *)
Lemma den_consumed : forall r x y,
  den r x y -> exists w, rest x = w ++ rest y /\ seen y = rev w ++ seen x
                         /\ min_len r <= length w.
Proof.
  induction r as [| c | p | | a IHa b IHb | a IHa b IHb | i a IHa | a IHa | p lo hi];
    intros x y Hd; simpl in *.
  - subst y. exists []. auto.
  - destruct Hd as (t & Hr & Hy). subst y. exists [c]. simpl. auto.
  - destruct Hd as (c & t & Hr & Hp & Hy). subst y. exists [c]. simpl. auto.
  - destruct Hd as [_ Hy]. subst y. exists []. auto.
  - destruct Hd as (z & Ha & Hb).
    apply IHa in Ha. apply IHb in Hb.
    destruct Ha as (w1 & Hr1 & Hs1 & Hl1). destruct Hb as (w2 & Hr2 & Hs2 & Hl2).
    exists (w1 ++ w2). rewrite Hr1, Hr2, Hs2, Hs1, rev_app_distr, length_app.
    rewrite <- !app_assoc. repeat split; auto. lia.
  - destruct Hd as [Ha | Hb].
    + apply IHa in Ha. destruct Ha as (w & ? & ? & ?). exists w. repeat split; auto. lia.
    + apply IHb in Hb. destruct Hb as (w & ? & ? & ?). exists w. repeat split; auto. lia.
  - destruct Hd as (z & Ha & Hy). apply IHa in Ha. subst y. exact Ha.
  - destruct Hd as [Hy | [Ha _]].
    + subst y. exists []. simpl. repeat split; auto.
    + apply IHa in Ha. destruct Ha as (w & ? & ? & ?). exists w.
      simpl in *. repeat split; auto. lia.
  - destruct Hd as (w & t & Hr & Hall & Hlo & Hhi & Hy). subst y.
    exists w. simpl. auto.
Qed.

Lemma den_shrinks : forall r x y,
  den r x y -> length (rest y) + min_len r <= length (rest x).
Proof.
  intros r x y Hd. apply den_consumed in Hd.
  destruct Hd as (w & Hr & _ & Hl). rewrite Hr, length_app. lia.
Qed.

Lemma captured_app : forall sn w t cs sn' cs',
  captured (MState sn (w ++ t) cs) (MState sn' t cs') = w.
Proof.
  intros. unfold captured. simpl. rewrite length_app.
  replace (length w + length t - length t) with (length w) by lia.
  rewrite firstn_app, firstn_all, Nat.sub_diag. simpl. apply app_nil_r.
Qed.

(* ------------------------------------------------------------------ *)
(** ** Searching for a match *)

Lemma scan_sound : forall r rs sn m,
  wf r = true -> scan r sn rs = Some m ->
  exists pre post,
    rs = pre ++ post /\ m_start m = MState (rev pre ++ sn) post []
    /\ den r (m_start m) (m_end m)
    /\ (forall pre1 post1 y, rs = pre1 ++ post1 -> length pre1 < length pre ->
          ~ den r (MState (rev pre1 ++ sn) post1 []) y).
Proof.
  intros r rs. induction rs as [|c t IH]; intros sn m Hwf H; simpl in H.
  - destruct (rmatch r (MState sn [] []) Some) as [y|] eqn:Hm; try discriminate.
    inversion H; subst m. clear H.
    apply rmatch_sound in Hm; auto. destruct Hm as (y' & Hd & Hy). inversion Hy; subst y'.
    exists [], []. simpl. repeat split; auto. intros; lia.
  - destruct (rmatch r (MState sn (c :: t) []) Some) as [y|] eqn:Hm.
    + inversion H; subst m. clear H.
      apply rmatch_sound in Hm; auto. destruct Hm as (y' & Hd & Hy). inversion Hy; subst y'.
      exists [], (c :: t). simpl. repeat split; auto. intros; lia.
    + apply IH in H; auto.
      destruct H as (pre & post & Ht & Hs & Hd & Hfirst).
      exists (c :: pre), post. rewrite rev_cons_app. subst t.
      repeat split; auto.
      intros pre1 post1 y Hsplit Hlen Hden.
      destruct pre1 as [|c1 pre1].
      * simpl in Hsplit. subst post1. simpl in Hden.
        eapply rmatch_complete with (k := Some) in Hden; [contradiction | discriminate].
      * simpl in Hsplit. inversion Hsplit; subst c1.
        rewrite rev_cons_app in Hden.
        eapply Hfirst; eauto. simpl in Hlen. lia.
Qed.

Lemma scan_none : forall r rs sn,
  scan r sn rs = None ->
  forall pre post y, rs = pre ++ post -> ~ den r (MState (rev pre ++ sn) post []) y.
Proof.
  intros r rs. induction rs as [|c t IH]; intros sn H pre post y Hsplit Hden; simpl in H.
  - destruct (rmatch r (MState sn [] []) Some) eqn:Hm; try discriminate.
    symmetry in Hsplit. apply app_eq_nil in Hsplit. destruct Hsplit; subst.
    eapply rmatch_complete with (k := Some) in Hden; [contradiction | discriminate].
  - destruct (rmatch r (MState sn (c :: t) []) Some) eqn:Hm; try discriminate.
    destruct pre as [|c1 pre].
    + simpl in Hsplit. subst post.
      eapply rmatch_complete with (k := Some) in Hden; [contradiction | discriminate].
    + simpl in Hsplit. inversion Hsplit; subst c1.
      rewrite rev_cons_app in Hden. eapply IH; eauto.
Qed.

Lemma exec_sound : forall r s m,
  wf r = true -> exec r s = Some m ->
  exists pre post,
    s = pre ++ post /\ m_start m = at_pos pre post
    /\ den r (at_pos pre post) (m_end m)
    /\ (forall pre1 post1 y, s = pre1 ++ post1 -> length pre1 < length pre ->
          ~ den r (at_pos pre1 post1) y).
Proof.
  intros r s m Hwf H. unfold exec in H. apply scan_sound in H; auto.
  destruct H as (pre & post & Hs & Hst & Hd & Hfirst).
  rewrite app_nil_r in Hst. exists pre, post. unfold at_pos.
  repeat split; auto.
  - now rewrite <- Hst.
  - intros pre1 post1 y H1 H2 H3. apply (Hfirst pre1 post1 y H1 H2).
    rewrite app_nil_r. exact H3.
Qed.

Lemma exec_none : forall r s,
  exec r s = None ->
  forall pre post y, s = pre ++ post -> ~ den r (at_pos pre post) y.
Proof.
  intros r s H pre post y Hs Hd. unfold exec in H.
  eapply scan_none in H; eauto. apply H. rewrite app_nil_r. exact Hd.
Qed.

(* ------------------------------------------------------------------ *)
(** ** The [exec] loop *)

Lemma exec_loop_matches : forall (A : Type) (body : A -> rmatch_result -> A) r n acc sn rs,
  exec_loop n r body acc sn rs
  = (ms <- matches_from n r sn rs ;; Ret (fold_left body ms acc)).
Proof.
  intros A body r n. induction n as [|n IH]; intros acc sn rs; simpl.
  - destruct (scan r sn rs); reflexivity.
  - destruct (scan r sn rs) as [m|]; try reflexivity.
    destruct (Nat.eqb (length (rest (m_end m))) (length (rest (m_start m)))); try reflexivity.
    rewrite IH.
    destruct (matches_from n r (seen (m_end m)) (rest (m_end m))); reflexivity.
Qed.

Lemma while_exec_matches : forall (A : Type) (body : A -> rmatch_result -> A) r s init,
  while_exec r s body init
  = (ms <- exec_matches r s ;; Ret (fold_left body ms init)).
Proof.
  intros. apply exec_loop_matches.
Qed.

(** A loop over a pattern that cannot match the empty string ends. *)
Lemma matches_from_total : forall r n sn rs,
  wf r = true -> 1 <= min_len r -> length rs <= n ->
  exists ms, matches_from n r sn rs = Ret ms.
Proof.
  intros r n. induction n as [|n IH]; intros sn rs Hwf Hmin Hlen; simpl.
  - destruct (scan r sn rs) as [m|] eqn:Hs; eauto.
    apply scan_sound in Hs; auto.
    destruct Hs as (pre & post & Hrs & Hst & Hd & _).
    apply den_shrinks in Hd. rewrite Hst in Hd. simpl in Hd.
    subst rs. rewrite length_app in Hlen. lia.
  - destruct (scan r sn rs) as [m|] eqn:Hs; eauto.
    apply scan_sound in Hs; auto.
    destruct Hs as (pre & post & Hrs & Hst & Hd & _).
    apply den_shrinks in Hd.
    destruct (Nat.eqb_spec (length (rest (m_end m))) (length (rest (m_start m)))); try lia.
    destruct (IH (seen (m_end m)) (rest (m_end m))) as (ms & Hms); auto.
    + rewrite Hst in Hd. simpl in Hd. subst rs. rewrite length_app in Hlen. lia.
    + rewrite Hms. simpl. eauto.
Qed.

Lemma exec_matches_total : forall r s,
  wf r = true -> 1 <= min_len r -> exists ms, exec_matches r s = Ret ms.
Proof.
  intros. apply matches_from_total; auto.
Qed.

(** The first match of the loop is the match of a single [exec]. *)
Lemma exec_matches_head : forall r s ms,
  exec_matches r s = Ret ms -> exec r s = hd_error ms.
Proof.
  intros r s ms H. unfold exec_matches in H. unfold exec.
  destruct (length s) as [|n]; simpl in H.
  - destruct (scan r [] s); try discriminate. now inversion H.
  - destruct (scan r [] s) as [m|]; [|now inversion H].
    destruct (Nat.eqb (length (rest (m_end m))) (length (rest (m_start m)))); try discriminate.
    destruct (matches_from n r (seen (m_end m)) (rest (m_end m))); try discriminate.
    now inversion H.
Qed.

(** Every match of the loop is a match of the pattern at a position of
    the input. *)
Lemma matches_from_sound : forall r n sn rs ms,
  wf r = true -> matches_from n r sn rs = Ret ms ->
  Forall (fun m => exists pre post,
            rs = pre ++ post /\ m_start m = MState (rev pre ++ sn) post []
            /\ den r (m_start m) (m_end m)) ms.
Proof.
  intros r n. induction n as [|n IH]; intros sn rs ms Hwf H; simpl in H.
  - destruct (scan r sn rs); try discriminate. inversion H. constructor.
  - destruct (scan r sn rs) as [m|] eqn:Hs; [|inversion H; constructor].
    destruct (Nat.eqb (length (rest (m_end m))) (length (rest (m_start m)))); try discriminate.
    destruct (matches_from n r (seen (m_end m)) (rest (m_end m))) as [ms'| |] eqn:Hms;
      try discriminate.
    simpl in H. inversion H; subst ms. clear H.
    apply scan_sound in Hs; auto.
    destruct Hs as (pre & post & Hrs & Hst & Hd & _).
    constructor; eauto.
    apply IH in Hms; auto.
    destruct (den_consumed _ _ _ Hd) as (w & Hr & Hsn & _).
    rewrite Hst in Hr, Hsn. simpl in Hr, Hsn.
    eapply Forall_impl; [|exact Hms].
    intros m' (pre' & post' & Hrs' & Hst' & Hd').
    exists (pre ++ w ++ pre'), post'. repeat split; auto.
    + subst rs. rewrite Hr, Hrs', <- !app_assoc. reflexivity.
    + rewrite Hst', Hsn, !rev_app_distr, <- !app_assoc. reflexivity.
Qed.

Lemma exec_matches_sound : forall r s ms,
  wf r = true -> exec_matches r s = Ret ms ->
  Forall (fun m => exists pre post,
            s = pre ++ post /\ m_start m = at_pos pre post
            /\ den r (at_pos pre post) (m_end m)) ms.
Proof.
  intros r s ms Hwf H. apply matches_from_sound in H; auto.
  eapply Forall_impl; [|exact H].
  intros m (pre & post & Hs & Hst & Hd). rewrite app_nil_r in Hst.
  exists pre, post. unfold at_pos. rewrite <- Hst. auto.
Qed.

Lemma app_split_le : forall (a b c d : list N),
  a ++ b = c ++ d -> length a <= length c ->
  exists e, c = a ++ e /\ b = e ++ d.
Proof.
  induction a as [|x a IH]; intros b c d H Hlen.
  - exists c. auto.
  - destruct c as [|x' c]; simpl in *; try lia.
    inversion H; subst x'.
    destruct (IH b c d) as (e & Hc & Hb); auto; try lia.
    exists e. subst c. auto.
Qed.

Lemma app_eq_length : forall (a b c d : list N),
  a ++ b = c ++ d -> length a = length c -> a = c /\ b = d.
Proof.
  induction a as [|x a IH]; intros b [|y c] d H Hlen; simpl in *; try discriminate; auto.
  inversion H; subst y. destruct (IH b c d) as [-> ->]; auto.
Qed.

(** When no match starts inside another, the loop finds a match at every
    position where the pattern matches. *)
Lemma matches_from_cover : forall r n sn rs ms,
  wf r = true -> separated r -> matches_from n r sn rs = Ret ms ->
  forall pre post y,
    rs = pre ++ post -> den r (MState (rev pre ++ sn) post []) y ->
    exists m, In m ms /\ m_start m = MState (rev pre ++ sn) post [].
Proof.
  intros r n. induction n as [|n IH]; intros sn rs ms Hwf Hsep H pre post y Hrs Hden;
    simpl in H.
  - destruct (scan r sn rs) as [m|] eqn:Hs; try discriminate.
    exfalso. eapply scan_none; [exact Hs | exact Hrs | exact Hden].
  - destruct (scan r sn rs) as [m|] eqn:Hs;
      [|exfalso; eapply scan_none; [exact Hs | exact Hrs | exact Hden]].
    destruct (Nat.eqb (length (rest (m_end m))) (length (rest (m_start m)))); try discriminate.
    destruct (matches_from n r (seen (m_end m)) (rest (m_end m))) as [ms'| |] eqn:Hms;
      try discriminate.
    simpl in H. inversion H; subst ms. clear H.
    apply scan_sound in Hs; auto.
    destruct Hs as (pm & qm & Hrs' & Hst & Hd & Hfirst).
    destruct (Nat.lt_ge_cases (length pre) (length pm)) as [Hlt | Hge].
    { exfalso. eapply Hfirst; eauto. }
    assert (Hsplit : pm ++ qm = pre ++ post) by congruence.
    destruct (app_split_le _ _ _ _ Hsplit Hge) as (d & Hpre & Hqm).
    destruct (den_consumed _ _ _ Hd) as (w & Hr & Hsn & _).
    rewrite Hst in Hr, Hsn. simpl in Hr, Hsn.
    destruct d as [|d0 d].
    { exists m. split; [now left|]. rewrite Hst. subst pre. simpl in Hqm.
      rewrite app_nil_r. now subst qm. }
    destruct (Nat.lt_ge_cases (length (d0 :: d)) (length w)) as [Hin | Hout].
    + exfalso.
      assert (Hsp : (d0 :: d) ++ post = w ++ rest (m_end m)) by congruence.
      destruct (app_split_le _ _ _ _ Hsp (Nat.lt_le_incl _ _ Hin)) as (w2 & Hw & Hpost).
      assert (w2 <> []).
      { intros ->. rewrite app_nil_r in Hw. subst w. lia. }
      eapply (Hsep (rev pm ++ sn) (d0 :: d) w2 (rest (m_end m)) (m_end m) y); auto.
      * discriminate.
      * rewrite Hst in Hd. rewrite Hqm, Hpost in Hd. exact Hd.
      * rewrite Hpre, rev_app_distr, <- app_assoc in Hden.
        rewrite Hpost in Hden. exact Hden.
    + assert (Hsp : w ++ rest (m_end m) = (d0 :: d) ++ post) by congruence.
      destruct (app_split_le _ _ _ _ Hsp Hout) as (d' & Hd' & Hrest).
      destruct (IH (seen (m_end m)) (rest (m_end m)) ms' Hwf Hsep Hms d' post y Hrest)
        as (m' & Hin' & Hst').
      * rewrite Hsn. rewrite Hpre, Hd' in Hden.
        rewrite !rev_app_distr, <- !app_assoc in Hden. exact Hden.
      * exists m'. split; [now right|].
        rewrite Hst', Hsn, Hpre, Hd', !rev_app_distr, <- !app_assoc. reflexivity.
Qed.

Lemma exec_matches_cover : forall r s ms,
  wf r = true -> separated r -> exec_matches r s = Ret ms ->
  forall pre post y,
    s = pre ++ post -> den r (at_pos pre post) y ->
    exists m, In m ms /\ m_start m = at_pos pre post.
Proof.
  intros r s ms Hwf Hsep H pre post y Hs Hd.
  destruct (matches_from_cover _ _ _ _ _ Hwf Hsep H pre post y Hs) as (m & Hin & Hst).
  - rewrite app_nil_r. exact Hd.
  - exists m. split; auto. rewrite Hst, app_nil_r. reflexivity.
Qed.

(* ------------------------------------------------------------------ *)
(** ** Matches of the building blocks *)

Lemma mstate_eta : forall x, MState (seen x) (rest x) (caps x) = x.
Proof. now destruct x. Qed.

Lemma den_str : forall w x y,
  den (str w) x y <->
  exists t, rest x = w ++ t /\ y = MState (rev w ++ seen x) t (caps x).
Proof.
  induction w as [|c w IH]; intros x y.
  - simpl. split.
    + intros ->. exists (rest x). now rewrite mstate_eta.
    + intros (t & Hr & ->). rewrite <- Hr. now rewrite mstate_eta.
  - destruct w as [|c' w].
    + simpl. split.
      * intros (t & Hr & ->). exists t. auto.
      * intros (t & Hr & ->). exists t. auto.
    + change (den (str (c :: c' :: w)) x y)
        with (exists z, den (Chr c) x z /\ den (str (c' :: w)) z y).
      split.
      * intros (z & (t & Hr & ->) & Hz). apply IH in Hz.
        destruct Hz as (t' & Hr' & ->). simpl in Hr'. subst t.
        exists t'. split; auto. simpl. rewrite <- !app_assoc. reflexivity.
      * intros (t & Hr & ->). exists (step x c (c' :: w ++ t)). split.
        -- exists (c' :: w ++ t). auto.
        -- apply IH. exists t. split; auto. simpl. rewrite <- !app_assoc. reflexivity.
Qed.

Lemma den_alt : forall rs x y,
  rs <> [] -> (den (alt rs) x y <-> exists r, In r rs /\ den r x y).
Proof.
  induction rs as [|r rs IH]; intros x y Hne; [contradiction|].
  destruct rs as [|r' rs].
  - simpl. split; [eauto|]. intros (r0 & [<-|[]] & H). exact H.
  - change (den (alt (r :: r' :: rs)) x y)
      with (den r x y \/ den (alt (r' :: rs)) x y).
    rewrite IH by discriminate. split.
    + intros [H | (r0 & Hin & H)]; [exists r | exists r0]; split; auto; [now left | now right].
    + intros (r0 & [<- | Hin] & H); [now left | right; eauto].
Qed.

Lemma den_words : forall ws x y,
  ws <> [] ->
  (den (alt (map word ws)) x y <->
   exists w t, In w ws /\ rest x = lit w ++ t
               /\ y = MState (rev (lit w) ++ seen x) t (caps x)).
Proof.
  intros ws x y Hne. rewrite den_alt.
  - split.
    + intros (r & Hin & H). apply in_map_iff in Hin. destruct Hin as (w & <- & Hin).
      apply den_str in H. destruct H as (t & Hr & Hy). eauto.
    + intros (w & t & Hin & Hr & Hy). exists (word w). split.
      * now apply in_map.
      * apply den_str. eauto.
  - destruct ws; [contradiction | discriminate].
Qed.

Lemma digit_is_word : forall c, is_digit c = true -> is_word c = true.
Proof.
  intros c H. unfold is_word. unfold is_digit in H. rewrite H.
  rewrite !orb_true_r. reflexivity.
Qed.

Ltac lit_compute :=
  repeat match goal with
  | |- context [lit ?s] => let v := eval vm_compute in (lit s) in change (lit s) with v
  | H : context [lit ?s] |- _ =>
      let v := eval vm_compute in (lit s) in change (lit s) with v in H
  end.

Lemma captured_eq : forall x y w, rest x = w ++ rest y -> captured x y = w.
Proof.
  intros [sn rs cs] [sn' rs' cs'] w H. simpl in H. subst rs. apply captured_app.
Qed.

Lemma den_word : forall s sn rs cs y,
  den (word s) (MState sn rs cs) y <->
  exists t, rs = lit s ++ t /\ y = MState (rev (lit s) ++ sn) t cs.
Proof. intros. unfold word. apply den_str. Qed.

Lemma den_grp : forall i a sn rs cs y,
  den (Grp i a) (MState sn rs cs) y <->
  exists z, den a (MState sn rs cs) z
            /\ y = set_cap i (captured (MState sn rs cs) z) z.
Proof. reflexivity. Qed.

Lemma den_grp_rep : forall i p lo hi sn rs cs y,
  den (Grp i (RepCls p lo hi)) (MState sn rs cs) y <->
  exists w t, rs = w ++ t /\ forallb p w = true /\ lo <= length w
              /\ within hi (length w) /\ y = MState (rev w ++ sn) t ((i, w) :: cs).
Proof.
  intros. rewrite den_grp. split.
  - intros (z & Hz & ->). simpl in Hz.
    destruct Hz as (w & t & -> & Hall & Hlo & Hhi & ->).
    exists w, t. repeat split; auto.
    unfold set_cap. simpl. now rewrite captured_app.
  - intros (w & t & -> & Hall & Hlo & Hhi & ->).
    exists (MState (rev w ++ sn) t cs). split.
    + simpl. exists w, t. auto.
    + unfold set_cap. simpl. now rewrite captured_app.
Qed.

Lemma den_grp_words : forall i ws sn rs cs y,
  ws <> [] ->
  (den (Grp i (alt (map word ws))) (MState sn rs cs) y <->
   exists w t, In w ws /\ rs = lit w ++ t
               /\ y = MState (rev (lit w) ++ sn) t ((i, lit w) :: cs)).
Proof.
  intros i ws sn rs cs y Hne. rewrite den_grp. split.
  - intros (z & Hz & ->). apply den_words in Hz; auto.
    destruct Hz as (w & t & Hin & Hr & Hz). simpl in Hr, Hz. subst rs z.
    exists w, t. repeat split; auto.
    unfold set_cap. simpl. now rewrite captured_app.
  - intros (w & t & Hin & -> & ->).
    exists (MState (rev (lit w) ++ sn) t cs). split.
    + apply den_words; auto. exists w, t. auto.
    + unfold set_cap. simpl. now rewrite captured_app.
Qed.

Lemma boundary_start : forall sn c t cs,
  is_word c = true ->
  (at_boundary (MState sn (c :: t) cs) = true <-> head_is_word sn = false).
Proof.
  intros sn c t cs Hc. unfold at_boundary. simpl. rewrite Hc.
  destruct (head_is_word sn); simpl; split; congruence.
Qed.

Lemma boundary_end : forall sn c t cs,
  is_word c = true ->
  (at_boundary (MState (c :: sn) t cs) = true <-> head_is_word t = false).
Proof.
  intros sn c t cs Hc. unfold at_boundary. simpl. rewrite Hc.
  destruct (head_is_word t); simpl; split; congruence.
Qed.

Lemma len_nonempty : forall (w : list N), 1 <= length w -> w <> [].
Proof. intros w H ->. simpl in H. lia. Qed.

Lemma digits_of_len : forall w lo,
  forallb is_digit w = true -> 1 <= lo -> lo <= length w -> digits w.
Proof.
  intros w lo Hall H1 Hlen. split; auto. intros ->. simpl in Hlen. lia.
Qed.

Lemma digits_length : forall w, digits w -> 1 <= length w.
Proof.
  intros [|c w] [Hne _]; [contradiction | simpl; lia].
Qed.

Lemma digits_head : forall w t,
  digits w -> exists c u, w ++ t = c :: u /\ is_word c = true.
Proof.
  intros [|c w] t [Hne Hall]; [contradiction|].
  simpl in Hall. apply andb_true_iff in Hall. destruct Hall as [Hc _].
  exists c, (w ++ t). split; auto. now apply digit_is_word.
Qed.

Lemma boundary_start_digits : forall w sn t cs,
  digits w ->
  (at_boundary (MState sn (w ++ t) cs) = true <-> head_is_word sn = false).
Proof.
  intros w sn t cs Hw. destruct (digits_head w t Hw) as (c & u & -> & Hc).
  now apply boundary_start.
Qed.

(** A run of digits ends with a digit. *)
Lemma digits_last : forall w sn,
  digits w -> exists c u, rev w ++ sn = c :: u /\ is_word c = true.
Proof.
  intros w sn [Hne Hall].
  destruct (rev w) as [|c u] eqn:Hr.
  - apply (f_equal (@rev N)) in Hr. rewrite rev_involutive in Hr. contradiction.
  - exists c, (u ++ sn). split; auto.
    apply digit_is_word.
    rewrite forallb_forall in Hall. apply Hall.
    apply in_rev. rewrite Hr. now left.
Qed.

Lemma chr_inv : forall c sn rs cs y,
  den (Chr c) (MState sn rs cs) y -> exists t, rs = c :: t /\ y = MState (c :: sn) t cs.
Proof. intros c sn rs cs y H. exact H. Qed.

Lemma word_inv : forall s sn rs cs y,
  den (word s) (MState sn rs cs) y ->
  exists t, rs = lit s ++ t /\ y = MState (rev (lit s) ++ sn) t cs.
Proof. intros s sn rs cs y H. apply den_word. exact H. Qed.

Lemma rep_inv : forall p lo hi sn rs cs y,
  den (RepCls p lo hi) (MState sn rs cs) y ->
  exists w t, rs = w ++ t /\ forallb p w = true /\ lo <= length w
              /\ within hi (length w) /\ y = MState (rev w ++ sn) t cs.
Proof. intros p lo hi sn rs cs y H. exact H. Qed.

Lemma grp_rep_inv : forall i p lo hi sn rs cs y,
  den (Grp i (RepCls p lo hi)) (MState sn rs cs) y ->
  exists w t, rs = w ++ t /\ forallb p w = true /\ lo <= length w
              /\ within hi (length w) /\ y = MState (rev w ++ sn) t ((i, w) :: cs).
Proof. intros i p lo hi sn rs cs y H. apply den_grp_rep. exact H. Qed.

Lemma grp_words_inv : forall i ws sn rs cs y,
  ws <> [] ->
  den (Grp i (alt (map word ws))) (MState sn rs cs) y ->
  exists w t, In w ws /\ rs = lit w ++ t
              /\ y = MState (rev (lit w) ++ sn) t ((i, lit w) :: cs).
Proof. intros i ws sn rs cs y Hne H. apply den_grp_words; auto. Qed.

Lemma seq_inv : forall r r' rs x y,
  den (seq (r :: r' :: rs)) x y -> exists z, den r x z /\ den (seq (r' :: rs)) z y.
Proof. intros r r' rs x y H. exact H. Qed.

Lemma boundary_end_digits : forall w sn t cs,
  digits w ->
  (at_boundary (MState (rev w ++ sn) t cs) = true <-> head_is_word t = false).
Proof.
  intros w sn t cs Hw. destruct (digits_last w sn Hw) as (c & u & -> & Hc).
  now apply boundary_end.
Qed.

Lemma seq_intro : forall r r' rs x z y,
  den r x z -> den (seq (r' :: rs)) z y -> den (seq (r :: r' :: rs)) x y.
Proof. intros r r' rs x z y H1 H2. exists z. auto. Qed.

Lemma chr_intro : forall c sn t cs,
  den (Chr c) (MState sn (c :: t) cs) (MState (c :: sn) t cs).
Proof. intros. exists t. auto. Qed.

Lemma word_intro : forall s sn t cs,
  den (word s) (MState sn (lit s ++ t) cs) (MState (rev (lit s) ++ sn) t cs).
Proof. intros. apply den_word. exists t. auto. Qed.

Lemma rep_intro : forall p lo hi sn w t cs,
  forallb p w = true -> lo <= length w -> within hi (length w) ->
  den (RepCls p lo hi) (MState sn (w ++ t) cs) (MState (rev w ++ sn) t cs).
Proof. intros. exists w, t. auto. Qed.

Lemma grp_rep_intro : forall i p lo hi sn w t cs,
  forallb p w = true -> lo <= length w -> within hi (length w) ->
  den (Grp i (RepCls p lo hi)) (MState sn (w ++ t) cs)
      (MState (rev w ++ sn) t ((i, w) :: cs)).
Proof. intros. apply den_grp_rep. exists w, t. auto. Qed.

Lemma grp_words_intro : forall i ws w sn t cs,
  In w ws ->
  den (Grp i (alt (map word ws))) (MState sn (lit w ++ t) cs)
      (MState (rev (lit w) ++ sn) t ((i, lit w) :: cs)).
Proof.
  intros. apply den_grp_words.
  - destruct ws; [contradiction | discriminate].
  - exists w, t. auto.
Qed.

Lemma wordb_intro : forall x, at_boundary x = true -> den WordB x x.
Proof. intros x H. split; auto. Qed.

(* ------------------------------------------------------------------ *)
(** ** The visibility patterns *)

Ltac splits := repeat match goal with |- _ /\ _ => split end.

Ltac seq_step H z H1 :=
  apply seq_inv in H; destruct H as (z & H1 & H).

Lemma lessRe_sound : forall pre rs y,
  den lessRe (at_pos pre rs) y ->
  exists tok post, rs = tok ++ post /\ less_form tok
                   /\ free_before pre /\ free_after post.
Proof.
  intros pre rs y H. unfold lessRe, at_pos in H.
  seq_step H z Hb. destruct Hb as [Hb ->].
  seq_step H z Hc. apply chr_inv in Hc. destruct Hc as (t0 & -> & ->).
  seq_step H z Ha. apply rep_inv in Ha. destruct Ha as (a & t1 & -> & Ha & Hla & _ & ->).
  seq_step H z Hc. apply chr_inv in Hc. destruct Hc as (t2 & -> & ->).
  seq_step H z Hd. apply rep_inv in Hd. destruct Hd as (b & t3 & -> & Hd & Hlb & _ & ->).
  seq_step H z Hw. apply word_inv in Hw. destruct Hw as (t4 & -> & ->).
  destruct H as [He ->].
  apply boundary_start in Hb; [|reflexivity].
  lit_compute. simpl in He. apply boundary_end in He; [|reflexivity].
  exists (ch "M" :: a ++ ch "/" :: b ++ lit "SM"), t4.
  repeat split; auto.
  - simpl. rewrite <- !app_assoc. simpl. rewrite <- !app_assoc. reflexivity.
  - exists a, b. repeat split; eauto using digits_of_len.
    + intros ->. simpl in Hla. lia.
    + intros ->. simpl in Hlb. lia.
Qed.

Lemma lessRe_complete : forall pre tok post,
  less_form tok -> free_before pre -> free_after post ->
  exists y, den lessRe (at_pos pre (tok ++ post)) y.
Proof.
  intros pre tok post (a & b & Ha & Hb & ->) Hpre Hpost.
  unfold lessRe, at_pos. lit_compute.
  pose proof (digits_length a Ha). pose proof (digits_length b Hb).
  destruct Ha as [_ Ha]. destruct Hb as [_ Hb].
  rewrite <- !app_assoc. simpl.
  eexists. simpl.
  eexists. split; [split; [|reflexivity]|].
  { apply boundary_start; auto. }
  eexists. split; [eexists; split; reflexivity|].
  eexists. split.
  { exists a. eexists. repeat split; auto. }
  eexists. split; [eexists; split; reflexivity|].
  eexists. split.
  { exists b. eexists. repeat split; auto. }
  eexists. split.
  { eexists. split; eexists; split; reflexivity. }
  split; [|reflexivity].
  apply boundary_end; auto.
Qed.

Lemma mixedRe_sound : forall pre rs y,
  den mixedRe (at_pos pre rs) y ->
  exists w n d tok post,
    rs = tok ++ post /\ mixed_form w n d tok
    /\ free_before pre /\ free_after post
    /\ caps y = [(3, d); (2, n); (1, w)].
Proof.
  intros pre rs y H. unfold mixedRe, at_pos in H.
  seq_step H z Hb. destruct Hb as [Hb ->].
  seq_step H z Hw. apply grp_rep_inv in Hw.
  destruct Hw as (w & t0 & -> & Hw & Hlw & _ & ->).
  seq_step H z Hs. apply rep_inv in Hs.
  destruct Hs as (sp & t1 & -> & Hs & Hls & _ & ->).
  seq_step H z Hn. apply grp_rep_inv in Hn.
  destruct Hn as (n & t2 & -> & Hn & Hln & _ & ->).
  seq_step H z Hc. apply chr_inv in Hc. destruct Hc as (t3 & -> & ->).
  seq_step H z Hd. apply grp_rep_inv in Hd.
  destruct Hd as (d & t4 & -> & Hd & Hld & _ & ->).
  seq_step H z Hsm. apply word_inv in Hsm. destruct Hsm as (t5 & -> & ->).
  destruct H as [He ->].
  pose proof (digits_of_len w 1 Hw (le_n 1) Hlw) as Dw.
  apply boundary_start_digits in Hb; auto.
  lit_compute. simpl in He. apply boundary_end in He; [|reflexivity].
  exists w, n, d, (w ++ sp ++ n ++ ch "/" :: d ++ lit "SM"), t5.
  repeat split; auto.
  - rewrite <- !app_assoc. simpl. rewrite <- !app_assoc. reflexivity.
  - exists sp. repeat split; auto using len_nonempty.
Qed.

Lemma mixedRe_complete : forall pre w n d tok post,
  mixed_form w n d tok -> free_before pre -> free_after post ->
  exists y, den mixedRe (at_pos pre (tok ++ post)) y.
Proof.
  intros pre w n d tok post (sp & Dw & Ds & Dn & Dd & ->) Hpre Hpost.
  unfold mixedRe, at_pos.
  pose proof (digits_length w Dw). pose proof (digits_length n Dn).
  pose proof (digits_length d Dd).
  assert (1 <= length sp) by (destruct sp, Ds; [contradiction | simpl; lia]).
  rewrite <- !app_assoc.
  eexists.
  eapply seq_intro; [apply wordb_intro; apply boundary_start_digits; auto|].
  destruct Dw as [_ Dw]. destruct Dn as [_ Dn]. destruct Dd as [_ Dd].
  destruct Ds as [_ Ds].
  eapply seq_intro; [apply grp_rep_intro; simpl; auto|].
  eapply seq_intro; [apply rep_intro; simpl; auto|].
  eapply seq_intro; [apply grp_rep_intro; simpl; auto|].
  eapply seq_intro; [apply chr_intro|].
  eapply seq_intro; [apply grp_rep_intro; simpl; auto|].
  eapply seq_intro; [apply word_intro|].
  apply wordb_intro. apply boundary_end; auto.
Qed.

Lemma fracRe_sound : forall pre rs y,
  den fracRe (at_pos pre rs) y ->
  exists n d tok post,
    rs = tok ++ post /\ frac_form n d tok
    /\ free_before pre /\ free_after post
    /\ caps y = [(2, d); (1, n)].
Proof.
  intros pre rs y H. unfold fracRe, at_pos in H.
  seq_step H z Hb. destruct Hb as [Hb ->].
  seq_step H z Hn. apply grp_rep_inv in Hn.
  destruct Hn as (n & t2 & -> & Hn & Hln & _ & ->).
  seq_step H z Hc. apply chr_inv in Hc. destruct Hc as (t3 & -> & ->).
  seq_step H z Hd. apply grp_rep_inv in Hd.
  destruct Hd as (d & t4 & -> & Hd & Hld & _ & ->).
  seq_step H z Hsm. apply word_inv in Hsm. destruct Hsm as (t5 & -> & ->).
  destruct H as [He ->].
  pose proof (digits_of_len n 1 Hn (le_n 1) Hln) as Dn.
  apply boundary_start_digits in Hb; auto.
  lit_compute. simpl in He. apply boundary_end in He; [|reflexivity].
  exists n, d, (n ++ ch "/" :: d ++ lit "SM"), t5.
  repeat split; auto using len_nonempty.
  rewrite <- !app_assoc. simpl. rewrite <- !app_assoc. reflexivity.
Qed.

Lemma fracRe_complete : forall pre n d tok post,
  frac_form n d tok -> free_before pre -> free_after post ->
  exists y, den fracRe (at_pos pre (tok ++ post)) y.
Proof.
  intros pre n d tok post (Dn & Dd & ->) Hpre Hpost.
  unfold fracRe, at_pos.
  pose proof (digits_length n Dn). pose proof (digits_length d Dd).
  rewrite <- !app_assoc.
  eexists.
  eapply seq_intro; [apply wordb_intro; apply boundary_start_digits; auto|].
  destruct Dn as [_ Dn]. destruct Dd as [_ Dd].
  eapply seq_intro; [apply grp_rep_intro; simpl; auto|].
  eapply seq_intro; [apply chr_intro|].
  eapply seq_intro; [apply grp_rep_intro; simpl; auto|].
  eapply seq_intro; [apply word_intro|].
  apply wordb_intro. apply boundary_end; auto.
Qed.

Lemma wholeRe_sound : forall pre rs y,
  den wholeRe (at_pos pre rs) y ->
  exists w tok post,
    rs = tok ++ post /\ whole_form w tok
    /\ free_before pre /\ free_after post
    /\ caps y = [(1, w)].
Proof.
  intros pre rs y H. unfold wholeRe, at_pos in H.
  seq_step H z Hb. destruct Hb as [Hb ->].
  seq_step H z Hw. apply grp_rep_inv in Hw.
  destruct Hw as (w & t2 & -> & Hw & Hlw & _ & ->).
  seq_step H z Hsm. apply word_inv in Hsm. destruct Hsm as (t5 & -> & ->).
  destruct H as [He ->].
  pose proof (digits_of_len w 1 Hw (le_n 1) Hlw) as Dw.
  apply boundary_start_digits in Hb; auto.
  lit_compute. simpl in He. apply boundary_end in He; [|reflexivity].
  exists w, (w ++ lit "SM"), t5.
  repeat split; auto using len_nonempty.
  rewrite <- !app_assoc. reflexivity.
Qed.

Lemma wholeRe_complete : forall pre w tok post,
  whole_form w tok -> free_before pre -> free_after post ->
  exists y, den wholeRe (at_pos pre (tok ++ post)) y.
Proof.
  intros pre w tok post (Dw & ->) Hpre Hpost.
  unfold wholeRe, at_pos.
  pose proof (digits_length w Dw).
  rewrite <- !app_assoc.
  eexists.
  eapply seq_intro; [apply wordb_intro; apply boundary_start_digits; auto|].
  destruct Dw as [_ Dw].
  eapply seq_intro; [apply grp_rep_intro; simpl; auto|].
  eapply seq_intro; [apply word_intro|].
  apply wordb_intro. apply boundary_end; auto.
Qed.

(* ------------------------------------------------------------------ *)
(** ** From matches to tokens *)

Section Tokens.

Variable r : regex.
Variable form : jsstring -> Prop.

Hypothesis r_wf : wf r = true.

Hypothesis r_sound : forall pre rs y,
  den r (at_pos pre rs) y ->
  exists tok post, rs = tok ++ post /\ form tok /\ free_before pre /\ free_after post.

Hypothesis r_complete : forall pre tok post,
  form tok -> free_before pre -> free_after post ->
  exists y, den r (at_pos pre (tok ++ post)) y.

Lemma exec_none_tokens : forall s,
  exec r s = None <->
  ~ exists pre tok post, token_at s pre tok post /\ form tok.
Proof.
  intros s. split.
  - intros H (pre & tok & post & (Hs & Hb & Ha) & Hf).
    destruct (r_complete pre tok post Hf Hb Ha) as (y & Hy).
    eapply exec_none; eauto.
  - intros Hno. destruct (exec r s) as [m|] eqn:He; auto.
    exfalso. apply Hno.
    apply exec_sound in He; auto.
    destruct He as (pre & post & Hs & _ & Hd & _).
    apply r_sound in Hd. destruct Hd as (tok & post' & -> & Hf & Hb & Ha).
    exists pre, tok, post'. repeat split; auto.
Qed.

Lemma exec_some_tokens : forall s pre tok post,
  token_at s pre tok post -> form tok -> exists m, exec r s = Some m.
Proof.
  intros s pre tok post Ht Hf.
  destruct (exec r s) as [m|] eqn:He; eauto.
  apply exec_none_tokens in He. exfalso. apply He. eauto.
Qed.

Lemma test_tokens : forall s,
  test r s = true <-> exists pre tok post, token_at s pre tok post /\ form tok.
Proof.
  intros s. unfold test. split.
  - destruct (exec r s) as [m|] eqn:He; try discriminate. intros _.
    apply exec_sound in He; auto.
    destruct He as (pre & post & Hs & _ & Hd & _).
    apply r_sound in Hd. destruct Hd as (tok & post' & -> & Hf & Hb & Ha).
    exists pre, tok, post'. repeat split; auto.
  - intros (pre & tok & post & Ht & Hf).
    destruct (exec_some_tokens s pre tok post Ht Hf) as (m & ->). reflexivity.
Qed.

(** The match [exec] returns is at the first token of the form. *)
Lemma exec_first_token : forall s m,
  exec r s = Some m ->
  exists pre post,
    s = pre ++ post /\ m_start m = at_pos pre post
    /\ den r (at_pos pre post) (m_end m)
    /\ (forall pre' tok' post',
          token_at s pre' tok' post' -> form tok' -> length pre <= length pre').
Proof.
  intros s m He. apply exec_sound in He; auto.
  destruct He as (pre & post & Hs & Hst & Hd & Hfirst).
  exists pre, post. repeat split; auto.
  intros pre' tok' post' (Hs' & Hb & Ha) Hf.
  destruct (Nat.le_gt_cases (length pre) (length pre')) as [|Hlt]; auto.
  exfalso.
  destruct (r_complete pre' tok' post' Hf Hb Ha) as (y & Hy).
  eapply Hfirst; eauto.
Qed.

(** [exec] returns a match standing at the first token of the form. *)
Lemma exec_at_first_token : forall s pre tok post,
  first_token form s pre tok post ->
  exists m, exec r s = Some m /\ m_start m = at_pos pre (tok ++ post)
            /\ den r (at_pos pre (tok ++ post)) (m_end m).
Proof.
  intros s pre tok post (Ht & Hf & Hmin).
  destruct (exec_some_tokens s pre tok post Ht Hf) as (m & He).
  exists m. split; auto.
  destruct (exec_first_token s m He) as (pm & qm & Hs & Hst & Hd & Hfirst).
  pose proof (Hfirst pre tok post Ht Hf) as Hle.
  destruct (r_sound pm qm (m_end m) Hd) as (tokm & postm & Hq & Hfm & Hbm & Ham).
  assert (Htm : token_at s pm tokm postm).
  { split; [|split]; auto. rewrite Hs, Hq. reflexivity. }
  pose proof (Hmin pm tokm postm Htm Hfm) as Hge.
  destruct Ht as (Hs' & _ & _).
  rewrite Hs' in Hs. apply app_eq_length in Hs; [|lia].
  destruct Hs as [<- <-]. auto.
Qed.

End Tokens.

(* ------------------------------------------------------------------ *)
(** ** Visibility *)

Lemma lessRe_tokens : forall s, test lessRe s = true <-> has_less s.
Proof.
  intros s. apply test_tokens.
  - reflexivity.
  - intros pre rs y H. apply lessRe_sound in H. exact H.
  - intros pre tok post H. now apply lessRe_complete.
Qed.

Lemma mixedRe_first : forall s m,
  exec mixedRe s = Some m ->
  exists pre tok post w n d,
    first_token (fun tok => exists w n d, mixed_form w n d tok) s pre tok post
    /\ mixed_form w n d tok
    /\ m_group 1 m = Some w /\ m_group 2 m = Some n /\ m_group 3 m = Some d.
Proof.
  intros s m He.
  apply (exec_first_token mixedRe (fun tok => exists w n d, mixed_form w n d tok)) in He.
  - destruct He as (pre & post & Hs & Hst & Hd & Hfirst).
    apply mixedRe_sound in Hd.
    destruct Hd as (w & n & d & tok & post' & -> & Hf & Hb & Ha & Hc).
    exists pre, tok, post', w, n, d. unfold first_token, token_at, m_group.
    rewrite Hc. splits; eauto.
  - reflexivity.
  - intros pre tok post (w & n & d & H). eapply mixedRe_complete; eauto.
Qed.

Lemma mixedRe_none : forall s, exec mixedRe s = None <-> ~ has_mixed s.
Proof.
  intros s. apply exec_none_tokens.
  - reflexivity.
  - intros pre rs y H. apply mixedRe_sound in H.
    destruct H as (w & n & d & tok & post & H1 & H2 & H3 & H4 & _). eauto 10.
  - intros pre tok post (w & n & d & H). eapply mixedRe_complete; eauto.
Qed.

Lemma fracRe_first : forall s m,
  exec fracRe s = Some m ->
  exists pre tok post n d,
    first_token (fun tok => exists n d, frac_form n d tok) s pre tok post
    /\ frac_form n d tok
    /\ m_group 1 m = Some n /\ m_group 2 m = Some d.
Proof.
  intros s m He.
  apply (exec_first_token fracRe (fun tok => exists n d, frac_form n d tok)) in He.
  - destruct He as (pre & post & Hs & Hst & Hd & Hfirst).
    apply fracRe_sound in Hd.
    destruct Hd as (n & d & tok & post' & -> & Hf & Hb & Ha & Hc).
    exists pre, tok, post', n, d. unfold first_token, token_at, m_group.
    rewrite Hc. splits; eauto.
  - reflexivity.
  - intros pre tok post (n & d & H). eapply fracRe_complete; eauto.
Qed.

Lemma fracRe_none : forall s, exec fracRe s = None <-> ~ has_frac s.
Proof.
  intros s. apply exec_none_tokens.
  - reflexivity.
  - intros pre rs y H. apply fracRe_sound in H.
    destruct H as (n & d & tok & post & H1 & H2 & H3 & H4 & _). eauto 10.
  - intros pre tok post (n & d & H). eapply fracRe_complete; eauto.
Qed.

Lemma wholeRe_first : forall s m,
  exec wholeRe s = Some m ->
  exists pre tok post w,
    first_token (fun tok => exists w, whole_form w tok) s pre tok post
    /\ whole_form w tok /\ m_group 1 m = Some w.
Proof.
  intros s m He.
  apply (exec_first_token wholeRe (fun tok => exists w, whole_form w tok)) in He.
  - destruct He as (pre & post & Hs & Hst & Hd & Hfirst).
    apply wholeRe_sound in Hd.
    destruct Hd as (w & tok & post' & -> & Hf & Hb & Ha & Hc).
    exists pre, tok, post', w. unfold first_token, token_at, m_group.
    rewrite Hc. splits; eauto.
  - reflexivity.
  - intros pre tok post (w & H). eapply wholeRe_complete; eauto.
Qed.

Lemma wholeRe_none : forall s, exec wholeRe s = None <-> ~ has_whole s.
Proof.
  intros s. apply exec_none_tokens.
  - reflexivity.
  - intros pre rs y H. apply wholeRe_sound in H.
    destruct H as (w & tok & post & H1 & H2 & H3 & H4 & _). eauto 10.
  - intros pre tok post (w & H). eapply wholeRe_complete; eauto.
Qed.

Lemma lessRe_false : forall s, ~ has_less s -> test lessRe s = false.
Proof.
  intros s H. destruct (test lessRe s) eqn:Ht; auto.
  apply lessRe_tokens in Ht. contradiction.
Qed.

(** C3. Visibility extraction tries the four surface forms in priority
    order and the first form that occurs wins: a less-than form
    ["M<d>/<d>SM"] gives 0; otherwise the first mixed number
    ["<whole> <num>/<den>SM"] gives whole + num/den; otherwise the first
    fraction ["<num>/<den>SM"] gives num/den; otherwise the first whole
    number ["<digits>SM"] gives its value; the result is absent exactly
    when no form occurs in the report (so it is never 0 then).  In
    particular ["M1/4SM"] gives 0, ["2 1/2SM"] gives 2.5, ["3/4SM"] gives
    0.75 and ["10SM"] gives 10. *)
Theorem parseVisibility_forms :
  (forall s,
     (has_less s -> parseVisibility s = Some (of_Z 0))
     /\ (~ has_less s -> has_mixed s ->
         exists pre tok post w n d,
           first_token (fun tok => exists w n d, mixed_form w n d tok) s pre tok post
           /\ mixed_form w n d tok
           /\ parseVisibility s
              = Some (num_add (of_Z (parseInt w))
                              (num_div (of_Z (parseInt n)) (of_Z (parseInt d)))))
     /\ (~ has_less s -> ~ has_mixed s -> has_frac s ->
         exists pre tok post n d,
           first_token (fun tok => exists n d, frac_form n d tok) s pre tok post
           /\ frac_form n d tok
           /\ parseVisibility s
              = Some (num_div (of_Z (parseInt n)) (of_Z (parseInt d))))
     /\ (~ has_less s -> ~ has_mixed s -> ~ has_frac s -> has_whole s ->
         exists pre tok post w,
           first_token (fun tok => exists w, whole_form w tok) s pre tok post
           /\ whole_form w tok
           /\ parseVisibility s = Some (of_Z (parseInt w)))
     /\ (parseVisibility s = None <->
         ~ has_less s /\ ~ has_mixed s /\ ~ has_frac s /\ ~ has_whole s))
  /\ parseVisibility (lit "M1/4SM") = Some (of_Z 0)
  /\ parseVisibility (lit "2 1/2SM") = Some (num_div (of_Z 5) (of_Z 2))
  /\ parseVisibility (lit "3/4SM") = Some (num_div (of_Z 3) (of_Z 4))
  /\ parseVisibility (lit "10SM") = Some (of_Z 10).
Proof.
  split; [|repeat split; vm_compute; reflexivity].
  intros s. unfold parseVisibility. splits.
  - intros H. apply lessRe_tokens in H. now rewrite H.
  - intros Hl Hm. rewrite (lessRe_false s Hl).
    destruct (exec mixedRe s) as [m|] eqn:He.
    + destruct (mixedRe_first s m He) as (pre & tok & post & w & n & d & Hf & Hm' & H1 & H2 & H3).
      exists pre, tok, post, w, n, d. unfold parseNum. rewrite H1, H2, H3. auto.
    + apply mixedRe_none in He. contradiction.
  - intros Hl Hm Hf. rewrite (lessRe_false s Hl).
    apply mixedRe_none in Hm. rewrite Hm.
    destruct (exec fracRe s) as [m|] eqn:He.
    + destruct (fracRe_first s m He) as (pre & tok & post & n & d & Hf' & Hm' & H1 & H2).
      exists pre, tok, post, n, d. unfold parseNum. rewrite H1, H2. auto.
    + apply fracRe_none in He. contradiction.
  - intros Hl Hm Hf Hw. rewrite (lessRe_false s Hl).
    apply mixedRe_none in Hm. rewrite Hm.
    apply fracRe_none in Hf. rewrite Hf.
    destruct (exec wholeRe s) as [m|] eqn:He.
    + destruct (wholeRe_first s m He) as (pre & tok & post & w & Hf' & Hm' & H1).
      exists pre, tok, post, w. unfold parseNum. rewrite H1. auto.
    + apply wholeRe_none in He. contradiction.
  - split.
    + destruct (test lessRe s) eqn:Hl; try discriminate.
      destruct (exec mixedRe s) eqn:Hm; try discriminate.
      destruct (exec fracRe s) eqn:Hf; try discriminate.
      destruct (exec wholeRe s) eqn:Hw; try discriminate.
      intros _. splits.
      * intros H. apply lessRe_tokens in H. congruence.
      * now apply mixedRe_none.
      * now apply fracRe_none.
      * now apply wholeRe_none.
    + intros (Hl & Hm & Hf & Hw).
      rewrite (lessRe_false s Hl).
      apply mixedRe_none in Hm. apply fracRe_none in Hf. apply wholeRe_none in Hw.
      now rewrite Hm, Hf, Hw.
Qed.

(* ------------------------------------------------------------------ *)
(** ** Ceiling *)

Lemma head_is_word_app : forall w t,
  w <> [] -> forallb is_word w = true -> head_is_word (w ++ t) = true.
Proof.
  intros [|c w] t Hne Hall; [contradiction|].
  simpl in *. apply andb_true_iff in Hall. tauto.
Qed.

Lemma head_is_word_rev : forall w t,
  w <> [] -> forallb is_word w = true -> head_is_word (rev w ++ t) = true.
Proof.
  intros w t Hne Hall. apply head_is_word_app.
  - intros Hr. apply (f_equal (@rev N)) in Hr. rewrite rev_involutive in Hr.
    contradiction.
  - rewrite forallb_forall in *. intros c Hc. apply Hall. now apply in_rev.
Qed.

(** A pattern between word boundaries that only consumes letters,
    digits and underscores: no match starts inside another one. *)
Lemma separated_words : forall r,
  (forall sn rs y, den r (MState sn rs []) y ->
     at_boundary (MState sn rs []) = true
     /\ exists w, rs = w ++ rest y /\ forallb is_word w = true) ->
  separated r.
Proof.
  intros r Hr sn w1 w2 t y y' H1 H2 Hd Ht Hd'.
  apply Hr in Hd. destruct Hd as (_ & w & Hw & Hall).
  rewrite Ht in Hw. rewrite app_assoc in Hw. apply app_inv_tail in Hw. subst w.
  rewrite forallb_app in Hall. apply andb_true_iff in Hall. destruct Hall as [A1 A2].
  apply Hr in Hd'. destruct Hd' as (Hb & _).
  unfold at_boundary in Hb. simpl in Hb.
  rewrite head_is_word_rev, head_is_word_app in Hb; auto. discriminate.
Qed.

Lemma layerRe_sound : forall pre rs y,
  den layerRe (at_pos pre rs) y ->
  exists cov ds post,
    rs = (cov ++ ds) ++ post /\ (cov = lit "BKN" \/ cov = lit "OVC")
    /\ length ds = 3 /\ forallb is_digit ds = true
    /\ free_before pre /\ free_after post
    /\ rest y = post /\ caps y = [(2, ds); (1, cov)].
Proof.
  intros pre rs y H. unfold layerRe, at_pos in H.
  seq_step H z Hb. destruct Hb as [Hb ->].
  seq_step H z Hc.
  apply (grp_words_inv 1 ["BKN"; "OVC"]%string) in Hc; [|discriminate].
  destruct Hc as (cov & t0 & Hin & -> & ->).
  seq_step H z Hd. apply grp_rep_inv in Hd.
  destruct Hd as (ds & t1 & -> & Hd & Hlo & Hhi & ->).
  destruct H as [He ->]. simpl in Hhi.
  assert (Hds : digits ds) by (apply (digits_of_len ds 3); auto; lia).
  apply boundary_end_digits in He; auto.
  exists (lit cov), ds, t1.
  assert (Hcov : lit cov = lit "BKN" \/ lit cov = lit "OVC").
  { destruct Hin as [<- | [<- | []]]; auto. }
  assert (Hw : is_word (hd 0%N (lit cov)) = true /\ lit cov <> []).
  { destruct Hcov as [-> | ->]; split; try reflexivity; discriminate. }
  destruct (lit cov) as [|c0 cv] eqn:Hlc; [now destruct Hw|].
  simpl in Hb. apply boundary_start in Hb; [|apply Hw].
  splits; auto.
  - rewrite <- app_assoc. reflexivity.
  - lia.
Qed.

Lemma layerRe_complete : forall pre cov ds post,
  (cov = lit "BKN" \/ cov = lit "OVC") -> length ds = 3 ->
  forallb is_digit ds = true -> free_before pre -> free_after post ->
  exists y, den layerRe (at_pos pre ((cov ++ ds) ++ post)) y.
Proof.
  intros pre cov ds post Hcov Hlen Hds Hpre Hpost.
  unfold layerRe, at_pos. rewrite <- app_assoc.
  assert (Dd : digits ds) by (apply (digits_of_len ds 3); auto; lia).
  assert (exists w, In w ["BKN"; "OVC"]%string /\ cov = lit w) as (w & Hin & ->).
  { destruct Hcov as [-> | ->]; [exists "BKN"%string | exists "OVC"%string];
      simpl; auto. }
  eexists.
  eapply seq_intro.
  { apply wordb_intro. destruct Hcov as [-> | ->]; apply boundary_start; auto. }
  eapply seq_intro.
  { apply (grp_words_intro 1 ["BKN"; "OVC"]%string w). exact Hin. }
  eapply seq_intro; [apply grp_rep_intro; simpl; auto; lia|].
  apply wordb_intro. apply boundary_end_digits; auto.
Qed.

Lemma layerRe_separated : separated layerRe.
Proof.
  apply separated_words. intros sn rs y H.
  split.
  - unfold layerRe in H. seq_step H z Hb. now destruct Hb.
  - rewrite <- (rev_involutive sn) in H. apply layerRe_sound in H.
    destruct H as (cov & ds & post & -> & Hcov & Hlen & Hds & _ & _ & -> & _).
    exists (cov ++ ds). split; auto.
    rewrite forallb_app. apply andb_true_iff. split.
    + destruct Hcov as [-> | ->]; reflexivity.
    + rewrite forallb_forall in *. intros c Hc. apply digit_is_word. auto.
Qed.

Lemma parseInt_three : forall ds n, three_digits ds n -> parseInt ds = n.
Proof.
  intros ds n (a & b & c & -> & _ & _ & _ & ->).
  unfold parseInt. cbn [fold_left]. ring.
Qed.

Lemma three_digits_intro : forall ds,
  length ds = 3 -> forallb is_digit ds = true -> three_digits ds (parseInt ds).
Proof.
  intros [|a [|b [|c [|e ds]]]] Hlen Hall; try discriminate.
  simpl in Hall. repeat (apply andb_true_iff in Hall; destruct Hall as [? Hall]).
  exists a, b, c. splits; auto. unfold parseInt. cbn [fold_left]. ring.
Qed.

Lemma three_digits_shape : forall ds n,
  three_digits ds n -> length ds = 3 /\ forallb is_digit ds = true.
Proof.
  intros ds n (a & b & c & -> & Ha & Hb & Hc & _). simpl.
  rewrite Ha, Hb, Hc. auto.
Qed.

(** The feet a match of [layerRe] stands for in [parseCeiling]. *)
Lemma layer_match_token : forall s m pre post,
  s = pre ++ post -> m_start m = at_pos pre post ->
  den layerRe (at_pos pre post) (m_end m) ->
  exists tok post',
    post = tok ++ post' /\ token_at s pre tok post'
    /\ ceiling_layer tok (parseInt (to_str (m_group 2 m)) * 100)%Z.
Proof.
  intros s m pre post Hs Hst Hd. apply layerRe_sound in Hd.
  destruct Hd as (cov & ds & post' & -> & Hcov & Hlen & Hds & Hb & Ha & _ & Hc).
  exists (cov ++ ds), post'. unfold m_group. rewrite Hc. simpl.
  splits; auto.
  - split; auto.
  - exists cov, ds, (parseInt ds). splits; auto. now apply three_digits_intro.
Qed.

Lemma ceiling_layer_length : forall tok ft, ceiling_layer tok ft -> length tok = 6.
Proof.
  intros tok ft (cov & ds & n & Hcov & Hds & -> & _).
  apply three_digits_shape in Hds. destruct Hds as [Hlen _].
  rewrite length_app, Hlen. destruct Hcov as [-> | ->]; reflexivity.
Qed.

Lemma ceiling_layer_fun : forall tok ft ft',
  ceiling_layer tok ft -> ceiling_layer tok ft' -> ft = ft'.
Proof.
  intros tok ft ft' (cov & ds & n & Hcov & Hds & -> & ->)
         (cov' & ds' & n' & Hcov' & Hds' & Heq & ->).
  assert (length cov = length cov').
  { destruct Hcov as [-> | ->], Hcov' as [-> | ->]; reflexivity. }
  assert (ds = ds').
  { clear - Heq H. revert cov' Heq H.
    induction cov as [|c cov IH]; intros [|c' cov'] Heq H; simpl in *; try discriminate; auto.
    inversion Heq. eapply IH; eauto. }
  subst ds'. apply parseInt_three in Hds. apply parseInt_three in Hds'. congruence.
Qed.

Lemma lowest_fold_some : forall ms low,
  exists ft, fold_left lowest_step ms (Some low) = Some ft
             /\ (ft <= low)%Z
             /\ (ft = low \/ exists m, In m ms /\ layer_feet m = ft)
             /\ (forall m, In m ms -> (ft <= layer_feet m)%Z).
Proof.
  induction ms as [|m ms IH]; intros low; simpl.
  - exists low. splits; auto; try lia; intros m [].
  - unfold lowest_step at 1. fold (layer_feet m).
    destruct (Z.ltb_spec (layer_feet m) low) as [Hlt | Hge].
    + destruct (IH (layer_feet m)) as (ft & Hf & Hle & Hin & Hall).
      exists ft. splits; auto; try lia.
      * right. destruct Hin as [-> | (m' & Hm' & <-)]; eauto.
      * intros m' [<- | Hm']; auto.
    + destruct (IH low) as (ft & Hf & Hle & Hin & Hall).
      exists ft. splits; auto.
      * destruct Hin as [-> | (m' & Hm' & <-)]; eauto.
      * intros m' [<- | Hm']; auto. lia.
Qed.

Lemma lowest_fold : forall ms,
  (ms = [] /\ fold_left lowest_step ms None = None)
  \/ exists ft, fold_left lowest_step ms None = Some ft
                /\ (exists m, In m ms /\ layer_feet m = ft)
                /\ (forall m, In m ms -> (ft <= layer_feet m)%Z).
Proof.
  intros [|m ms]; [now left | right]. simpl.
  destruct (lowest_fold_some ms (layer_feet m)) as (ft & Hf & Hle & Hin & Hall).
  exists ft. splits; auto.
  - destruct Hin as [-> | (m' & Hm' & <-)]; eauto.
  - intros m' [<- | Hm']; auto.
Qed.

Lemma parseCeiling_matches : forall s,
  exists ms, exec_matches layerRe s = Ret ms
             /\ parseCeiling s = Ret (fold_left lowest_step ms None).
Proof.
  intros s.
  destruct (exec_matches_total layerRe s) as (ms & Hms); [reflexivity | simpl; lia |].
  exists ms. split; auto.
  unfold parseCeiling. rewrite while_exec_matches, Hms. reflexivity.
Qed.

(** Every match of the loop stands on a ceiling layer and every ceiling
    layer of the report is matched. *)
Lemma layer_matches_tokens : forall s ms,
  exec_matches layerRe s = Ret ms ->
  (forall m, In m ms ->
     exists pre tok post, token_at s pre tok post /\ ceiling_layer tok (layer_feet m))
  /\ (forall pre tok post ft,
        token_at s pre tok post -> ceiling_layer tok ft ->
        exists m, In m ms /\ layer_feet m = ft).
Proof.
  intros s ms Hms. split.
  - intros m Hin.
    pose proof (exec_matches_sound layerRe s ms eq_refl Hms) as Hall.
    rewrite Forall_forall in Hall. destruct (Hall m Hin) as (pre & post & Hs & Hst & Hd).
    destruct (layer_match_token s m pre post Hs Hst Hd) as (tok & post' & _ & Ht & Hc).
    eauto.
  - intros pre tok post ft (Hs & Hb & Ha) Hc.
    assert (Hden : exists y, den layerRe (at_pos pre (tok ++ post)) y).
    { destruct Hc as (cov & ds & n & Hcov & Hds & -> & _).
      apply three_digits_shape in Hds. destruct Hds.
      now apply layerRe_complete. }
    destruct Hden as (y & Hy).
    destruct (exec_matches_cover layerRe s ms eq_refl layerRe_separated Hms
                pre (tok ++ post) y Hs Hy) as (m & Hin & Hst).
    exists m. split; auto.
    pose proof (exec_matches_sound layerRe s ms eq_refl Hms) as Hall.
    rewrite Forall_forall in Hall. destruct (Hall m Hin) as (pre' & post' & Hs' & Hst' & Hd).
    rewrite Hst in Hst'. unfold at_pos in Hst'. inversion Hst' as [[Hrev Hpost]].
    apply (f_equal (@rev N)) in Hrev. rewrite !rev_involutive in Hrev. subst pre' post'.
    destruct (layer_match_token s m pre (tok ++ post) Hs Hst Hd)
      as (tok' & post'' & Heq & _ & Hc').
    assert (tok' = tok).
    { pose proof (ceiling_layer_length _ _ Hc) as L1.
      pose proof (ceiling_layer_length _ _ Hc') as L2.
      symmetry in Heq. apply app_eq_length in Heq; [tauto | congruence]. }
    subst tok'. unfold layer_feet. eapply ceiling_layer_fun; eauto.
Qed.

(** C2. Ceiling extraction considers exactly the tokens [BKN] or [OVC]
    followed by three digits (so never [FEW] or [SCT] tokens), reads
    the digits as hundreds of feet, and returns the minimum over these
    layers, or absent when there is none; ["SCT015 BKN025 OVC008"] gives
    800 ft. *)
Theorem parseCeiling_lowest_layer :
  (forall s,
     exists ceil, parseCeiling s = Ret ceil
       /\ (ceil = None <->
           ~ exists pre tok post ft, token_at s pre tok post /\ ceiling_layer tok ft)
       /\ (forall ft, ceil = Some ft ->
             (exists pre tok post, token_at s pre tok post /\ ceiling_layer tok ft)
             /\ (forall pre tok post ft',
                   token_at s pre tok post -> ceiling_layer tok ft' -> (ft <= ft')%Z)))
  /\ parseCeiling (lit "SCT015 BKN025 OVC008") = Ret (Some 800%Z)
  /\ parseCeiling (lit "FEW008 SCT015") = Ret None.
Proof.
  split; [|split; vm_compute; reflexivity].
  intros s. destruct (parseCeiling_matches s) as (ms & Hms & Hpc).
  destruct (layer_matches_tokens s ms Hms) as (Hsound & Hcover).
  exists (fold_left lowest_step ms None). split; auto.
  destruct (lowest_fold ms) as [(-> & Hf) | (ft & Hf & (m & Hin & Hm) & Hmin)];
    rewrite Hf.
  - splits.
    + split; auto. intros _ (pre & tok & post & ft & Ht & Hc).
      destruct (Hcover pre tok post ft Ht Hc) as (m & [] & _).
    + discriminate.
  - splits.
    + split; try discriminate. intros Hno. exfalso. apply Hno.
      destruct (Hsound m Hin) as (pre & tok & post & Ht & Hc). eauto 10.
    + intros ft' Heq. inversion Heq; subst ft'. split.
      * destruct (Hsound m Hin) as (pre & tok & post & Ht & Hc).
        rewrite Hm in Hc. eauto.
      * intros pre tok post ft' Ht Hc.
        destruct (Hcover pre tok post ft' Ht Hc) as (m' & Hin' & <-). auto.
Qed.

(* ------------------------------------------------------------------ *)
(** ** Flight category *)

Lemma ceil_lt_spec : forall ceil n, ceil_lt ceil n = true <-> ceiling_below ceil n.
Proof.
  intros [c|] n; unfold ceiling_below; simpl.
  - rewrite Z.ltb_lt. split; [eauto | intros (ft & [= <-] & H); exact H].
  - split; [discriminate | intros (ft & [=] & _)].
Qed.

Lemma ceil_le_spec : forall ceil n, ceil_le ceil n = true <-> ceiling_at_most ceil n.
Proof.
  intros [c|] n; unfold ceiling_at_most; simpl.
  - rewrite Z.leb_le. split; [eauto | intros (ft & [= <-] & H); exact H].
  - split; [discriminate | intros (ft & [=] & _)].
Qed.

Lemma vis_lt_spec : forall vis n, vis_lt vis n = true <-> visibility_below vis n.
Proof.
  intros [v|] n; unfold visibility_below; simpl.
  - split; [eauto | intros (x & [= <-] & H); exact H].
  - split; [discriminate | intros (x & [=] & _)].
Qed.

Lemma vis_le_spec : forall vis n, vis_le vis n = true <-> visibility_at_most vis n.
Proof.
  intros [v|] n; unfold visibility_at_most; simpl.
  - split; [eauto | intros (x & [= <-] & H); exact H].
  - split; [discriminate | intros (x & [=] & _)].
Qed.

Lemma lifr_spec : forall ceil vis,
  ceil_lt ceil 500 || vis_lt vis 1 = true <-> lifr_rule ceil vis.
Proof.
  intros. unfold lifr_rule. now rewrite orb_true_iff, ceil_lt_spec, vis_lt_spec.
Qed.

Lemma ifr_spec : forall ceil vis,
  ceil_lt ceil 1000 || vis_lt vis 3 = true <-> ifr_rule ceil vis.
Proof.
  intros. unfold ifr_rule. now rewrite orb_true_iff, ceil_lt_spec, vis_lt_spec.
Qed.

Lemma mvfr_spec : forall ceil vis,
  ceil_le ceil 3000 || vis_le vis 5 = true <-> mvfr_rule ceil vis.
Proof.
  intros. unfold mvfr_rule. now rewrite orb_true_iff, ceil_le_spec, vis_le_spec.
Qed.

(** C1. The classifier returns the readings it extracted and evaluates
    the four rules in strict priority order: LIFR when the ceiling is
    present and below 500 ft or the visibility is present and below
    1 SM; else IFR when the ceiling is below 1000 ft or the visibility
    below 3 SM; else MVFR when the ceiling is at most 3000 ft or the
    visibility at most 5 SM; else VFR, in particular when both readings
    are absent.  A ceiling of 400 with visibility 10 is LIFR, no ceiling
    with visibility 2 is IFR, a ceiling of 2000 with no visibility is
    MVFR; the bounds of MVFR are inclusive and those of LIFR and IFR
    strict. *)
Theorem getFlightCategory_rules :
  (forall s,
     exists f, getFlightCategory s = Ret f
       /\ parseCeiling s = Ret (ceilingFt f)
       /\ visibilitySM f = parseVisibility s
       /\ (lifr_rule (ceilingFt f) (visibilitySM f) -> flight_category f = LIFR)
       /\ (~ lifr_rule (ceilingFt f) (visibilitySM f) ->
           ifr_rule (ceilingFt f) (visibilitySM f) -> flight_category f = IFR)
       /\ (~ lifr_rule (ceilingFt f) (visibilitySM f) ->
           ~ ifr_rule (ceilingFt f) (visibilitySM f) ->
           mvfr_rule (ceilingFt f) (visibilitySM f) -> flight_category f = MVFR)
       /\ (~ lifr_rule (ceilingFt f) (visibilitySM f) ->
           ~ ifr_rule (ceilingFt f) (visibilitySM f) ->
           ~ mvfr_rule (ceilingFt f) (visibilitySM f) -> flight_category f = VFR)
       /\ (ceilingFt f = Some 400%Z -> visibilitySM f = Some (of_Z 10) ->
           flight_category f = LIFR)
       /\ (ceilingFt f = None -> visibilitySM f = Some (of_Z 2) ->
           flight_category f = IFR)
       /\ (ceilingFt f = Some 2000%Z -> visibilitySM f = None ->
           flight_category f = MVFR)
       /\ (ceilingFt f = None -> visibilitySM f = None -> flight_category f = VFR))
  /\ getFlightCategory (lit "BKN004 10SM") = Ret (Flight LIFR (Some (of_Z 10)) (Some 400%Z))
  /\ getFlightCategory (lit "2SM") = Ret (Flight IFR (Some (of_Z 2)) None)
  /\ getFlightCategory (lit "BKN020") = Ret (Flight MVFR None (Some 2000%Z))
  /\ getFlightCategory (lit "SKC") = Ret (Flight VFR None None)
  /\ getFlightCategory (lit "BKN005 10SM") = Ret (Flight IFR (Some (of_Z 10)) (Some 500%Z))
  /\ getFlightCategory (lit "1SM") = Ret (Flight IFR (Some (of_Z 1)) None)
  /\ getFlightCategory (lit "BKN010 10SM") = Ret (Flight MVFR (Some (of_Z 10)) (Some 1000%Z))
  /\ getFlightCategory (lit "3SM") = Ret (Flight MVFR (Some (of_Z 3)) None)
  /\ getFlightCategory (lit "BKN030 10SM") = Ret (Flight MVFR (Some (of_Z 10)) (Some 3000%Z))
  /\ getFlightCategory (lit "5SM") = Ret (Flight MVFR (Some (of_Z 5)) None)
  /\ getFlightCategory (lit "BKN031 6SM") = Ret (Flight VFR (Some (of_Z 6)) (Some 3100%Z)).
Proof.
  split; [|splits; vm_compute; reflexivity].
  intros s. destruct (parseCeiling_matches s) as (ms & _ & Hpc).
  unfold getFlightCategory. rewrite Hpc. simpl.
  set (ceil := fold_left lowest_step ms None). set (vis := parseVisibility s).
  assert (Hrules :
    forall c,
      (if ceil_lt ceil 500 || vis_lt vis 1 then LIFR
       else if ceil_lt ceil 1000 || vis_lt vis 3 then IFR
       else if ceil_le ceil 3000 || vis_le vis 5 then MVFR else VFR) = c ->
      (lifr_rule ceil vis -> c = LIFR)
      /\ (~ lifr_rule ceil vis -> ifr_rule ceil vis -> c = IFR)
      /\ (~ lifr_rule ceil vis -> ~ ifr_rule ceil vis -> mvfr_rule ceil vis -> c = MVFR)
      /\ (~ lifr_rule ceil vis -> ~ ifr_rule ceil vis -> ~ mvfr_rule ceil vis -> c = VFR)).
  { intros c <-.
    pose proof (lifr_spec ceil vis) as L. pose proof (ifr_spec ceil vis) as I.
    pose proof (mvfr_spec ceil vis) as M.
    destruct (ceil_lt ceil 500 || vis_lt vis 1);
      destruct (ceil_lt ceil 1000 || vis_lt vis 3);
      destruct (ceil_le ceil 3000 || vis_le vis 5);
      splits; intros; auto; try tauto;
      try (exfalso; intuition congruence). }
  assert (Hex :
    forall c,
      (if ceil_lt ceil 500 || vis_lt vis 1 then LIFR
       else if ceil_lt ceil 1000 || vis_lt vis 3 then IFR
       else if ceil_le ceil 3000 || vis_le vis 5 then MVFR else VFR) = c ->
      (ceil = Some 400%Z -> vis = Some (of_Z 10) -> c = LIFR)
      /\ (ceil = None -> vis = Some (of_Z 2) -> c = IFR)
      /\ (ceil = Some 2000%Z -> vis = None -> c = MVFR)
      /\ (ceil = None -> vis = None -> c = VFR)).
  { intros c <-. splits; intros -> ->; reflexivity. }
  destruct (ceil_lt ceil 500 || vis_lt vis 1) eqn:E1;
    [|destruct (ceil_lt ceil 1000 || vis_lt vis 3) eqn:E2;
      [|destruct (ceil_le ceil 3000 || vis_le vis 5) eqn:E3]];
    eexists; (split; [reflexivity|]); simpl;
    (split; [reflexivity|]); (split; [reflexivity|]);
    destruct (Hrules _ eq_refl) as (R1 & R2 & R3 & R4);
    destruct (Hex _ eq_refl) as (X1 & X2 & X3 & X4);
    splits; assumption.
Qed.

(* ------------------------------------------------------------------ *)
(** ** Weather phenomena *)

Lemma fold_left_snoc : forall (A B : Type) (f : B -> A) (ms : list B) (acc : list A),
  fold_left (fun found m => found ++ [f m]) ms acc = acc ++ map f ms.
Proof.
  intros A B f ms. induction ms as [|m ms IH]; intros acc; simpl.
  - now rewrite app_nil_r.
  - rewrite IH, <- app_assoc. reflexivity.
Qed.

Lemma lookup_value : forall table key v,
  lookup table key = Some v -> In v (map snd table).
Proof.
  induction table as [|[k v'] table IH]; intros key v H; simpl in *; try discriminate.
  destruct (jseqb k key).
  - inversion H. now left.
  - right. eauto.
Qed.

(** The third group of a match of [wxRe] is one of the codes the pattern
    lists. *)
Lemma wxRe_group3 : forall x y,
  den wxRe x y -> exists w, In w wx_codes /\ lookup_cap 3 (caps y) = Some (lit w).
Proof.
  intros x y H. unfold wxRe in H.
  seq_step H z Hb. seq_step H z1 H1. seq_step H z2 H2. seq_step H z3 H3.
  destruct H as [_ ->]. destruct z2 as [sn rs cs].
  apply (grp_words_inv 3 wx_codes) in H3; [|discriminate].
  destruct H3 as (w & t & Hin & _ & ->). exists w. split; auto.
Qed.

(** Every code of the pattern is a key of the table. *)
Lemma wx_codes_in_table : forall w,
  In w wx_codes -> exists phrase, lookup wxCodes (lit w) = Some phrase /\ phrase <> [].
Proof.
  intros w Hin. unfold wx_codes in Hin. simpl in Hin.
  repeat (destruct Hin as [<- | Hin];
          [eexists; split; [vm_compute; reflexivity | discriminate]|]).
  contradiction.
Qed.

Lemma wx_intensity_values : forall key,
  In (match lookup wxIntensity key with Some p => p | None => [] end)
     [[]; lit "light "; lit "heavy "; lit "in vicinity "].
Proof.
  intros key. destruct (lookup wxIntensity key) as [p|] eqn:Hl; [|now left].
  apply lookup_value in Hl. right. exact Hl.
Qed.

Lemma wx_matches : forall s,
  exists ms, exec_matches wxRe s = Ret ms /\ wxFound s = Ret (map wx_phrase ms)
             /\ Forall (fun m => exists pre post,
                          s = pre ++ post /\ m_start m = at_pos pre post
                          /\ den wxRe (at_pos pre post) (m_end m)) ms.
Proof.
  intros s.
  destruct (exec_matches_total wxRe s) as (ms & Hms); [reflexivity | simpl; lia |].
  exists ms. splits; auto.
  - unfold wxFound. rewrite while_exec_matches, Hms. simpl.
    now rewrite fold_left_snoc.
  - apply exec_matches_sound; auto.
Qed.

Lemma wx_phrases_table : forall s,
  exists ms,
    exec_matches wxRe s = Ret ms
    /\ wxFound s = Ret (map wx_phrase ms)
    /\ Forall (fun m =>
                 exists code phrase prefix,
                   m_group 3 m = Some code
                   /\ lookup wxCodes code = Some phrase
                   /\ phrase <> []
                   /\ In prefix [[]; lit "light "; lit "heavy "; lit "in vicinity "]
                   /\ wx_phrase m = prefix ++ phrase) ms.
Proof.
  intros s. destruct (wx_matches s) as (ms & Hms & Hfound & Hall).
  exists ms. splits; auto.
  eapply Forall_impl; [|exact Hall].
  intros m (pre & post & _ & _ & Hd).
  apply wxRe_group3 in Hd. destruct Hd as (w & Hin & Hg).
  destruct (wx_codes_in_table w Hin) as (phrase & Hl & Hne).
  exists (lit w), phrase,
    (match lookup wxIntensity (to_str (m_group 1 m)) with Some p => p | None => [] end).
  splits; auto.
  - apply wx_intensity_values.
  - unfold wx_phrase, m_group. rewrite Hg. simpl to_str. rewrite Hl. reflexivity.
Qed.

(** C10. Every weather phrase METAR translation produces is a phrase of
    the code table, possibly after one of the intensity prefixes: the
    code of every match is a key of the table, so the lower-case
    fallback is never taken. *)
Theorem wx_phrases_from_table : forall s,
  exists ms,
    exec_matches wxRe s = Ret ms
    /\ wxFound s = Ret (map wx_phrase ms)
    /\ Forall (fun m =>
                 exists code phrase prefix,
                   m_group 3 m = Some code
                   /\ lookup wxCodes code = Some phrase
                   /\ In phrase (map snd wxCodes)
                   /\ In prefix [[]; lit "light "; lit "heavy "; lit "in vicinity "]
                   /\ wx_phrase m = prefix ++ phrase) ms.
Proof.
  intros s. destruct (wx_phrases_table s) as (ms & Hms & Hfound & Hall).
  exists ms. splits; auto.
  eapply Forall_impl; [|exact Hall].
  intros m (code & phrase & prefix & Hg & Hl & _ & Hp & Hw).
  exists code, phrase, prefix. splits; auto.
  eapply lookup_value; eauto.
Qed.

(* ------------------------------------------------------------------ *)
(** ** The translators never fail *)

Lemma trimStart_nil : forall w, trimStart w = [] <-> forallb is_space w = true.
Proof.
  induction w as [|c w IH]; simpl; [tauto|].
  destruct (is_space c); simpl; [exact IH | split; discriminate].
Qed.

Lemma trimStart_all : forall w,
  forallb is_space w = false -> forallb is_space (trimStart w) = false.
Proof.
  induction w as [|c w IH]; simpl; auto.
  destruct (is_space c) eqn:Hc; simpl; auto. now rewrite Hc.
Qed.

Lemma forallb_rev : forall (p : N -> bool) w, forallb p (rev w) = forallb p w.
Proof.
  intros p w. induction w as [|c w IH]; simpl; auto.
  rewrite forallb_app, IH. simpl. rewrite andb_true_r. apply andb_comm.
Qed.

(** The early return of [translateTaf] is taken exactly on the reports
    made of white space only. *)
Lemma taf_missing_blank : forall s, taf_missing s = forallb is_space s.
Proof.
  intros s. unfold taf_missing, trim.
  destruct (forallb is_space s) eqn:Hs.
  - apply trimStart_nil in Hs. rewrite Hs. simpl. apply orb_true_r.
  - apply orb_false_iff. split.
    + destruct s; [discriminate | reflexivity].
    + apply trimStart_all in Hs. rewrite <- forallb_rev in Hs.
      apply trimStart_all in Hs. rewrite <- forallb_rev in Hs.
      destruct (rev (trimStart (rev (trimStart s)))); [discriminate | reflexivity].
Qed.

Lemma capitalize_ret : forall w, w <> [] -> exists c t, capitalize w = Ret (c :: t).
Proof.
  intros [|c t] H; [contradiction|]. simpl. eauto.
Qed.

Lemma join_nonempty : forall sep parts,
  Forall (fun p => p <> []) parts -> parts <> [] -> join sep parts <> [].
Proof.
  intros sep [|p parts] Hall Hne; [contradiction|].
  inversion Hall; subst. destruct parts as [|q parts]; simpl; auto.
  destruct p; [contradiction | discriminate].
Qed.

Lemma finish_nonempty : forall parts fallback,
  Forall (fun p => p <> []) parts -> fallback <> [] -> finish parts fallback <> [].
Proof.
  intros [|p parts] fallback Hall Hf; simpl; auto.
  apply (join_nonempty (lit " ") (p :: parts)); auto. discriminate.
Qed.

Lemma wind_nonempty : forall s,
  Forall (fun p => p <> []) (metar_wind s) /\ Forall (fun p => p <> []) (taf_wind s).
Proof.
  intros s. unfold metar_wind, taf_wind.
  destruct (exec windRe s) as [m|]; split; repeat constructor;
    destruct (parseInt (to_str (m_group 2 m)) =? 0)%Z; discriminate.
Qed.

Lemma visibility_nonempty : forall s, Forall (fun p => p <> []) (visibility_sentence s).
Proof.
  intros s. unfold visibility_sentence.
  destruct (parseVisibility s); repeat constructor. discriminate.
Qed.

Lemma weather_total : forall s,
  exists ws, metar_weather s = Ret ws /\ Forall (fun p => p <> []) ws.
Proof.
  intros s. destruct (wx_phrases_table s) as (ms & _ & Hf & Hall).
  unfold metar_weather. rewrite Hf. simpl.
  destruct ms as [|m ms]; simpl; [eexists; split; [reflexivity | constructor]|].
  inversion Hall as [|? ? Hm _]; subst.
  destruct Hm as (code & phrase & prefix & Hg & Hl & Hph & _ & Hp).
  assert (Hne : wx_phrase m <> []).
  { rewrite Hp. intros Hnil. apply app_eq_nil in Hnil. destruct Hnil as [_ ->].
    contradiction. }
  destruct (capitalize_ret _ Hne) as (c & t & ->). simpl.
  eexists. split; [reflexivity|]. repeat constructor.
  destruct (map wx_phrase ms); discriminate.
Qed.

Lemma layer_nonempty : forall m, metar_layer m <> [] /\ taf_layer m <> [].
Proof.
  intros m. unfold metar_layer, taf_layer.
  split; intros H; apply app_eq_nil in H; destruct H as [_ H]; discriminate.
Qed.

Lemma sky_layers : forall s,
  exists ms,
    exec_matches skyRe s = Ret ms
    /\ metar_layers s
       = Ret (map metar_layer ms ++ (if test clearRe s then [lit "sky clear"] else [])).
Proof.
  intros s.
  destruct (exec_matches_total skyRe s) as (ms & Hms); [reflexivity | simpl; lia |].
  exists ms. split; auto.
  unfold metar_layers. rewrite while_exec_matches, Hms. simpl.
  rewrite fold_left_snoc. simpl.
  destruct (test clearRe s); [reflexivity | now rewrite app_nil_r].
Qed.

Lemma exec_matches_none : forall r s ms,
  exec_matches r s = Ret ms -> exec r s = None -> ms = [].
Proof.
  intros r s ms Hms He. apply exec_matches_head in Hms. rewrite He in Hms.
  destruct ms; [reflexivity | discriminate].
Qed.

Lemma sky_total : forall s,
  exists ws, metar_sky s = Ret ws /\ Forall (fun p => p <> []) ws
             /\ (exec skyRe s = None -> test clearRe s = false -> ws = []).
Proof.
  intros s. destruct (sky_layers s) as (ms & Hms & Hl).
  unfold metar_sky. rewrite Hl. simpl.
  destruct (map metar_layer ms ++ (if test clearRe s then [lit "sky clear"] else []))
    as [|l0 more] eqn:Hlayers.
  - eexists. splits; [reflexivity | constructor | auto].
  - assert (Hne : l0 <> []).
    { destruct ms as [|m ms]; simpl in Hlayers.
      - destruct (test clearRe s); inversion Hlayers. discriminate.
      - inversion Hlayers. apply layer_nonempty. }
    destruct (capitalize_ret _ Hne) as (c & t & ->). simpl.
    eexists. splits; [reflexivity | repeat constructor; discriminate |].
    intros He Hc. rewrite (exec_matches_none skyRe s ms Hms He), Hc in Hlayers.
    discriminate.
Qed.

Lemma taf_sky_total : forall s,
  exists ws, taf_sky s = Ret ws /\ Forall (fun p => p <> []) ws
             /\ (exec skyRe s = None -> test tafClearRe s = false -> ws = []).
Proof.
  intros s. unfold taf_sky.
  destruct (exec skyRe s) as [m|].
  - destruct (capitalize_ret (taf_layer m)) as (c & t & ->); [apply layer_nonempty|].
    simpl. eexists. splits; [reflexivity | repeat constructor; discriminate | discriminate].
  - destruct (test tafClearRe s).
    + eexists. splits; [reflexivity | repeat constructor; discriminate | discriminate].
    + eexists. splits; [reflexivity | constructor | auto].
Qed.

Lemma simple_blocks_nonempty : forall s,
  Forall (fun p => p <> []) (metar_temperature s)
  /\ Forall (fun p => p <> []) (metar_altimeter s)
  /\ Forall (fun p => p <> []) (taf_period s)
  /\ Forall (fun p => p <> []) (taf_changes s).
Proof.
  intros s. unfold metar_temperature, metar_altimeter, taf_period, taf_changes.
  splits.
  - destruct (exec tempRe s); repeat constructor. discriminate.
  - destruct (exec altRe s); repeat constructor. discriminate.
  - destruct (exec periodRe s); repeat constructor. discriminate.
  - destruct (match_all changeRe s); repeat constructor. discriminate.
Qed.

Lemma match_all_none : forall r s, exec r s = None -> match_all r s = [].
Proof.
  intros r s H. unfold match_all, exec in *. simpl. now rewrite H.
Qed.

Lemma metar_parts_total : forall s,
  exists parts, metar_parts s = Ret parts /\ Forall (fun p => p <> []) parts
                /\ (metar_nothing s -> parts = []).
Proof.
  intros s. unfold metar_parts.
  destruct (weather_total s) as (wx & Hwx & Nwx).
  destruct (sky_total s) as (sky & Hsky & Nsky & Esky).
  destruct (wind_nonempty s) as (Nwind & _).
  destruct (simple_blocks_nonempty s) as (Ntemp & Nalt & _ & _).
  rewrite Hwx, Hsky. simpl. eexists. splits; [reflexivity | |].
  - repeat (apply Forall_app; split); auto using visibility_nonempty.
  - intros (Hw & Hv & Hx & Hs & Hc & Ht & Ha).
    rewrite (Esky Hs Hc).
    unfold metar_wind, visibility_sentence, metar_temperature, metar_altimeter.
    rewrite Hw, Hv, Ht, Ha. simpl.
    destruct (wx_phrases_table s) as (ms & Hms & Hf & _).
    rewrite (exec_matches_none wxRe s ms Hms Hx) in Hf.
    unfold metar_weather in Hwx. rewrite Hf in Hwx. simpl in Hwx.
    inversion Hwx. reflexivity.
Qed.

Lemma taf_parts_total : forall s,
  exists parts, taf_parts s = Ret parts /\ Forall (fun p => p <> []) parts
                /\ (taf_nothing s -> parts = []).
Proof.
  intros s. unfold taf_parts.
  destruct (taf_sky_total s) as (sky & Hsky & Nsky & Esky).
  destruct (wind_nonempty s) as (_ & Nwind).
  destruct (simple_blocks_nonempty s) as (_ & _ & Nper & Nch).
  rewrite Hsky. simpl. eexists. splits; [reflexivity | |].
  - repeat (apply Forall_app; split); auto using visibility_nonempty.
  - intros (Hp & Hw & Hv & Hs & Hc & Hg).
    rewrite (Esky Hs Hc).
    unfold taf_period, taf_wind, visibility_sentence, taf_changes.
    rewrite Hp, Hw, Hv, (match_all_none changeRe s Hg). reflexivity.
Qed.

Lemma metar_parts_shape : forall s,
  exists wx sky,
    metar_weather s = Ret wx /\ metar_sky s = Ret sky
    /\ metar_parts s
       = Ret (metar_wind s ++ visibility_sentence s ++ wx ++ sky
              ++ metar_temperature s ++ metar_altimeter s).
Proof.
  intros s. destruct (weather_total s) as (wx & Hwx & _).
  destruct (sky_total s) as (sky & Hsky & _).
  exists wx, sky. unfold metar_parts. rewrite Hwx, Hsky. auto.
Qed.

Lemma taf_parts_shape : forall s,
  exists sky,
    taf_sky s = Ret sky
    /\ taf_parts s
       = Ret (taf_period s ++ taf_wind s ++ visibility_sentence s ++ sky
              ++ taf_changes s).
Proof.
  intros s. destruct (taf_sky_total s) as (sky & Hsky & _).
  exists sky. unfold taf_parts. rewrite Hsky. auto.
Qed.

Lemma weather_empty : forall s, metar_weather s = Ret [] -> exec wxRe s = None.
Proof.
  intros s H. destruct (wx_phrases_table s) as (ms & Hms & Hf & _).
  unfold metar_weather in H. rewrite Hf in H. simpl in H.
  destruct ms as [|m ms].
  - now rewrite (exec_matches_head wxRe s [] Hms).
  - simpl in H. destruct (capitalize (wx_phrase m)); discriminate.
Qed.

Lemma sky_empty : forall s,
  metar_sky s = Ret [] -> exec skyRe s = None /\ test clearRe s = false.
Proof.
  intros s H. destruct (sky_layers s) as (ms & Hms & Hl).
  unfold metar_sky in H. rewrite Hl in H. simpl in H.
  destruct (map metar_layer ms ++ (if test clearRe s then [lit "sky clear"] else []))
    as [|l0 more] eqn:Hlayers.
  - apply app_eq_nil in Hlayers. destruct Hlayers as [Hm Hc].
    apply map_eq_nil in Hm. subst ms. split.
    + now rewrite (exec_matches_head skyRe s [] Hms).
    + destruct (test clearRe s); [discriminate | reflexivity].
  - destruct (capitalize l0); discriminate.
Qed.

Lemma taf_sky_empty : forall s,
  taf_sky s = Ret [] -> exec skyRe s = None /\ test tafClearRe s = false.
Proof.
  intros s H. unfold taf_sky in H.
  destruct (exec skyRe s) as [m|].
  - destruct (capitalize (taf_layer m)); discriminate.
  - destruct (test tafClearRe s); [discriminate | auto].
Qed.

Lemma match_all_empty : forall r s, match_all r s = [] -> exec r s = None.
Proof.
  intros r s H. unfold match_all, exec in *. simpl in H.
  destruct (scan r [] s) as [m|]; auto.
  destruct (Nat.eqb (length (rest (m_end m))) (length (rest (m_start m))));
    [destruct (rest (m_end m))|]; discriminate.
Qed.

(** The array [parts] is empty only when no group was found. *)
Lemma metar_parts_empty : forall s, metar_parts s = Ret [] -> metar_nothing s.
Proof.
  intros s H. destruct (metar_parts_shape s) as (wx & sky & Hwx & Hsky & Hp).
  rewrite Hp in H. inversion H as [Hnil]. clear H.
  apply app_eq_nil in Hnil. destruct Hnil as [Hw Hnil].
  apply app_eq_nil in Hnil. destruct Hnil as [Hv Hnil].
  apply app_eq_nil in Hnil. destruct Hnil as [Hx Hnil].
  apply app_eq_nil in Hnil. destruct Hnil as [Hs Hnil].
  apply app_eq_nil in Hnil. destruct Hnil as [Ht Ha].
  subst wx sky. destruct (sky_empty s Hsky) as [Hs1 Hs2].
  unfold metar_nothing. splits; auto using weather_empty.
  - unfold metar_wind in Hw. destruct (exec windRe s); [discriminate | reflexivity].
  - unfold visibility_sentence in Hv.
    destruct (parseVisibility s); [discriminate | reflexivity].
  - unfold metar_temperature in Ht. destruct (exec tempRe s); [discriminate | reflexivity].
  - unfold metar_altimeter in Ha. destruct (exec altRe s); [discriminate | reflexivity].
Qed.

Lemma taf_parts_empty : forall s, taf_parts s = Ret [] -> taf_nothing s.
Proof.
  intros s H. destruct (taf_parts_shape s) as (sky & Hsky & Hp).
  rewrite Hp in H. inversion H as [Hnil]. clear H.
  apply app_eq_nil in Hnil. destruct Hnil as [Hper Hnil].
  apply app_eq_nil in Hnil. destruct Hnil as [Hw Hnil].
  apply app_eq_nil in Hnil. destruct Hnil as [Hv Hnil].
  apply app_eq_nil in Hnil. destruct Hnil as [Hs Hc].
  subst sky. destruct (taf_sky_empty s Hsky) as [Hs1 Hs2].
  unfold taf_nothing. splits; auto.
  - unfold taf_period in Hper. destruct (exec periodRe s); [discriminate | reflexivity].
  - unfold taf_wind in Hw. destruct (exec windRe s); [discriminate | reflexivity].
  - unfold visibility_sentence in Hv.
    destruct (parseVisibility s); [discriminate | reflexivity].
  - apply match_all_empty. unfold taf_changes in Hc.
    destruct (match_all changeRe s); [reflexivity | discriminate].
Qed.

(** C5. The three fixed outcomes: the TAF translator answers
    ["No TAF available."] on an empty or blank input, before any
    extraction, and ["Unable to translate TAF."] on a non-blank input in
    which no group is found; the METAR translator answers
    ["Unable to translate METAR."] when no group is found; in every
    other case the answer is the sentences found, joined by spaces; and
    on every input each translator returns (it neither throws nor loops)
    a string that is not empty. *)
Theorem translators_fallbacks :
  (forall s, forallb is_space s = true -> translateTaf s = Ret (lit "No TAF available."))
  /\ (forall s, forallb is_space s = false -> taf_nothing s ->
        translateTaf s = Ret (lit "Unable to translate TAF."))
  /\ (forall s, metar_nothing s ->
        translateMetar s = Ret (lit "Unable to translate METAR."))
  /\ (forall s, ~ metar_nothing s ->
        exists p parts, translateMetar s = Ret (join (lit " ") (p :: parts)))
  /\ (forall s, forallb is_space s = false -> ~ taf_nothing s ->
        exists p parts, translateTaf s = Ret (join (lit " ") (p :: parts)))
  /\ (forall s, exists out, translateMetar s = Ret out /\ out <> [])
  /\ (forall s, exists out, translateTaf s = Ret out /\ out <> [])
  /\ translateTaf [] = Ret (lit "No TAF available.")
  /\ translateTaf (lit "   ") = Ret (lit "No TAF available.")
  /\ translateTaf (lit "no groups here") = Ret (lit "Unable to translate TAF.")
  /\ translateMetar (lit "no groups here") = Ret (lit "Unable to translate METAR.")
  /\ translateMetar [] = Ret (lit "Unable to translate METAR.").
Proof.
  splits.
  - intros s Hs. unfold translateTaf. now rewrite taf_missing_blank, Hs.
  - intros s Hs Hn. unfold translateTaf. rewrite taf_missing_blank, Hs.
    destruct (taf_parts_total s) as (parts & Hp & _ & He).
    rewrite Hp, (He Hn). reflexivity.
  - intros s Hn. unfold translateMetar.
    destruct (metar_parts_total s) as (parts & Hp & _ & He).
    rewrite Hp, (He Hn). reflexivity.
  - intros s Hsome. unfold translateMetar.
    destruct (metar_parts_total s) as (parts & Hp & _ & _).
    destruct parts as [|p parts].
    + exfalso. apply Hsome. now apply metar_parts_empty.
    + rewrite Hp. simpl. eauto.
  - intros s Hs Hsome. unfold translateTaf. rewrite taf_missing_blank, Hs.
    destruct (taf_parts_total s) as (parts & Hp & _ & _).
    destruct parts as [|p parts].
    + exfalso. apply Hsome. now apply taf_parts_empty.
    + rewrite Hp. simpl. eauto.
  - intros s. unfold translateMetar.
    destruct (metar_parts_total s) as (parts & Hp & Hall & _).
    rewrite Hp. simpl. eexists. split; [reflexivity|].
    apply finish_nonempty; auto. discriminate.
  - intros s. unfold translateTaf.
    destruct (taf_missing s).
    + eexists. split; [reflexivity | discriminate].
    + destruct (taf_parts_total s) as (parts & Hp & Hall & _).
      rewrite Hp. simpl. eexists. split; [reflexivity|].
      apply finish_nonempty; auto. discriminate.
  - vm_compute; reflexivity.
  - vm_compute; reflexivity.
  - vm_compute; reflexivity.
  - vm_compute; reflexivity.
  - vm_compute; reflexivity.
Qed.

(* ------------------------------------------------------------------ *)
(** ** Zero denominators *)

(** C4. On a fraction or mixed number whose denominator is zero the
    division of [parseVisibility] is not guarded: ["1/0SM"] and
    ["2 1/0SM"] give the infinite Number and ["0/0SM"] gives NaN, which
    the translation prints and the classifier takes for good visibility. *)
Theorem parseVisibility_zero_denominator :
  parseVisibility (lit "1/0SM") = Some (S754_infinity false)
  /\ parseVisibility (lit "0/0SM") = Some S754_nan
  /\ parseVisibility (lit "2 1/0SM") = Some (S754_infinity false)
  /\ parseVisibility (lit "2 0/0SM") = Some S754_nan
  /\ translateMetar (lit "1/0SM") = Ret (lit "Visibility Infinity statute miles.")
  /\ translateMetar (lit "0/0SM") = Ret (lit "Visibility NaN statute miles.")
  /\ getFlightCategory (lit "OVC040 1/0SM")
     = Ret (Flight VFR (Some (S754_infinity false)) (Some 4000%Z)).
Proof.
  splits; vm_compute; reflexivity.
Qed.

(* ------------------------------------------------------------------ *)
(** ** Sky conditions *)

(** C6. In the METAR path ["sky clear"] is pushed whenever the report
    contains [CLR], [SKC] or [CAVOK], also after real layers (the TAF
    path only looks for it when there is no layer): ["BKN020 CLR"] is
    rendered ["Broken clouds at 2,000 feet, sky clear."].  The layers
    are joined with [", "], the first capitalised, and a period ends
    the sentence. *)
Theorem metar_sky_clear_after_layers :
  metar_layers (lit "BKN020 CLR")
  = Ret [lit "broken clouds at 2,000 feet"; lit "sky clear"]
  /\ metar_sky (lit "BKN020 CLR") = Ret [lit "Broken clouds at 2,000 feet, sky clear."]
  /\ translateMetar (lit "FEW015 BKN020 SKC")
     = Ret (lit "Few clouds at 1,500 feet, broken clouds at 2,000 feet, sky clear.")
  /\ metar_sky (lit "CLR") = Ret [lit "Sky clear."]
  /\ taf_sky (lit "BKN020 SKC") = Ret [lit "Broken clouds at 2,000 feet."]
  /\ (forall s, exists ms,
        exec_matches skyRe s = Ret ms
        /\ metar_layers s
           = Ret (map metar_layer ms
                  ++ (if test clearRe s then [lit "sky clear"] else []))).
Proof.
  splits; try (vm_compute; reflexivity).
  apply sky_layers.
Qed.

(* ------------------------------------------------------------------ *)
(** ** Wind *)

Lemma grp_inv : forall i a sn rs cs y,
  den (Grp i a) (MState sn rs cs) y ->
  exists z, den a (MState sn rs cs) z
            /\ y = set_cap i (captured (MState sn rs cs) z) z.
Proof. intros i a sn rs cs y H. exact H. Qed.

Lemma windRe_sound : forall pre rs y,
  den windRe (at_pos pre rs) y ->
  exists dir spd gust post,
    rs = (dir ++ spd ++ gust ++ lit "KT") ++ post
    /\ wind_form dir spd gust (dir ++ spd ++ gust ++ lit "KT")
    /\ free_before pre /\ free_after post
    /\ lookup_cap 1 (caps y) = Some dir /\ lookup_cap 2 (caps y) = Some spd.
Proof.
  intros pre rs y H. unfold windRe, at_pos in H.
  seq_step H z Hb. destruct Hb as [Hb ->].
  seq_step H z H1. apply grp_inv in H1. destruct H1 as (z1 & H1 & ->).
  assert (Hdir : exists dir t,
            rs = dir ++ t
            /\ (dir = lit "VRB" \/ (length dir = 3 /\ forallb is_digit dir = true))
            /\ z1 = MState (rev dir ++ rev pre) t []).
  { destruct H1 as [H1 | H1].
    - apply word_inv in H1. destruct H1 as (t & -> & ->). exists (lit "VRB"), t. auto.
    - apply rep_inv in H1. destruct H1 as (w & t & -> & Hw & Hlo & Hhi & ->).
      simpl in Hhi. exists w, t. splits; auto. right. split; auto. lia. }
  destruct Hdir as (dir & t0 & -> & Hdir & ->).
  unfold set_cap in H. rewrite captured_app in H. cbn [seen rest caps] in H.
  seq_step H z H2. apply grp_rep_inv in H2.
  destruct H2 as (spd & t1 & -> & Hspd & Hlo & Hhi & ->). simpl in Hhi.
  seq_step H z H3.
  assert (Hgust : exists gust t cs,
            t1 = gust ++ t
            /\ (gust = [] \/ exists g, gust = lit "G" ++ g /\ 2 <= length g <= 3
                                       /\ forallb is_digit g = true)
            /\ z = MState (rev gust ++ rev spd ++ rev dir ++ rev pre) t cs
            /\ lookup_cap 1 cs = Some dir /\ lookup_cap 2 cs = Some spd).
  { destruct H3 as [-> | [H3 _]].
    - exists [], t1, [(2, spd); (1, dir)]. splits; auto.
    - simpl in H3.
      destruct H3 as (z0 & (z' & (t2 & -> & ->)
                            & (z1 & (g & t3 & Hr & Hg & Hglo & Hghi & ->) & ->)) & ->).
      simpl in Hr. subst t2.
      exists (lit "G" ++ g), t3. eexists. splits.
      + reflexivity.
      + right. exists g. splits; auto.
      + unfold set_cap, step, clear_caps. simpl.
        rewrite <- ?app_assoc. reflexivity.
      + reflexivity.
      + reflexivity. }
  destruct Hgust as (gust & t2 & cs & -> & Hgust & -> & Hc1 & Hc2).
  seq_step H z Hkt. apply word_inv in Hkt. destruct Hkt as (t3 & -> & ->).
  destruct H as [He ->].
  lit_compute. simpl in He. apply boundary_end in He; [|reflexivity].
  assert (Hstart : head_is_word (dir ++ spd ++ gust ++ [75; 84]%N ++ t3) = true).
  { destruct Hdir as [-> | [Hlen Hd]]; [reflexivity|].
    apply head_is_word_app.
    - apply len_nonempty. lia.
    - rewrite forallb_forall in *. intros c Hc. apply digit_is_word. auto. }
  unfold at_boundary in Hb. cbn [seen rest] in Hb. rewrite Hstart in Hb.
  exists dir, spd, gust, t3. splits; auto.
  - rewrite <- !app_assoc. reflexivity.
  - unfold wind_form. splits; auto.
  - unfold free_before. destruct (head_is_word (rev pre)); auto; discriminate.
Qed.

Lemma grp_intro : forall i a sn w t cs cs',
  den a (MState sn (w ++ t) cs) (MState (rev w ++ sn) t cs') ->
  den (Grp i a) (MState sn (w ++ t) cs) (MState (rev w ++ sn) t ((i, w) :: cs')).
Proof.
  intros i a sn w t cs cs' H. eexists. split; [exact H|].
  unfold set_cap. simpl. now rewrite captured_app.
Qed.

Lemma opt_skip : forall a x, den (Opt a) x x.
Proof. intros. now left. Qed.

Lemma opt_take : forall a x y,
  den a (clear_caps (groups a) x) y -> length (rest y) <> length (rest x) ->
  den (Opt a) x y.
Proof. intros. right. auto. Qed.

Lemma windRe_complete : forall pre dir spd gust tok post,
  wind_form dir spd gust tok -> free_before pre -> free_after post ->
  exists y, den windRe (at_pos pre (tok ++ post)) y.
Proof.
  intros pre dir spd gust tok post (Hdir & (Hlen & Hspd) & Hgust & ->) Hpre Hpost.
  unfold windRe, at_pos. rewrite <- !app_assoc.
  assert (Hstart : head_is_word (dir ++ spd ++ gust ++ lit "KT" ++ post) = true).
  { destruct Hdir as [-> | [Hl Hd]]; [reflexivity|].
    apply head_is_word_app.
    - apply len_nonempty. lia.
    - rewrite forallb_forall in *. intros c Hc. apply digit_is_word. auto. }
  assert (Hopt : exists cs,
            den (Opt (Grp 3 (Seq (Chr (ch "G")) (Grp 4 (digits_n 2 3)))))
                (MState (rev spd ++ rev dir ++ rev pre) (gust ++ lit "KT" ++ post)
                        [(2, spd); (1, dir)])
                (MState (rev gust ++ rev spd ++ rev dir ++ rev pre) (lit "KT" ++ post) cs)).
  { destruct Hgust as [-> | (g & -> & Hg & Hgd)].
    - eexists. apply opt_skip.
    - eexists. apply opt_take.
      + unfold clear_caps. cbn [groups seen rest caps filter existsb Nat.eqb fst negb orb app].
        apply (grp_intro 3 _ _ (lit "G" ++ g)).
        exists (MState (ch "G" :: rev spd ++ rev dir ++ rev pre)
                       (g ++ lit "KT" ++ post) [(2, spd); (1, dir)]).
        split.
        * lit_compute. rewrite <- app_assoc. apply chr_intro.
        * replace (rev (lit "G" ++ g) ++ rev spd ++ rev dir ++ rev pre)
            with (rev g ++ ch "G" :: rev spd ++ rev dir ++ rev pre).
          -- apply grp_rep_intro; simpl; auto; lia.
          -- lit_compute. simpl. rewrite <- app_assoc. reflexivity.
      + cbn [rest]. rewrite !length_app. lit_compute. simpl. lia. }
  destruct Hopt as (cs & Hopt).
  eexists.
  eapply seq_intro.
  { apply wordb_intro. unfold at_boundary. cbn [seen rest]. rewrite Hstart.
    unfold free_before in Hpre. now rewrite Hpre. }
  eapply seq_intro.
  { apply grp_intro. destruct Hdir as [-> | [Hl Hd]].
    - left. apply word_intro.
    - right. apply rep_intro; simpl; auto; lia. }
  eapply seq_intro; [apply grp_rep_intro; simpl; auto; lia|].
  eapply seq_intro; [exact Hopt|].
  eapply seq_intro; [apply word_intro|].
  apply wordb_intro. apply boundary_end; auto.
Qed.

(** A run of digits that is followed by something else is determined by
    the input. *)
Lemma digit_run_unique : forall a a' c c' r r',
  forallb is_digit a = true -> forallb is_digit a' = true ->
  is_digit c = false -> is_digit c' = false ->
  a ++ c :: r = a' ++ c' :: r' -> a = a'.
Proof.
  induction a as [|x a IH]; intros [|x' a'] c c' r r' Ha Ha' Hc Hc' H; simpl in *; auto.
  - inversion H; subst. apply andb_true_iff in Ha'. destruct Ha'. congruence.
  - inversion H; subst. apply andb_true_iff in Ha. destruct Ha. congruence.
  - inversion H; subst.
    apply andb_true_iff in Ha. apply andb_true_iff in Ha'.
    destruct Ha as [_ Ha]. destruct Ha' as [_ Ha'].
    f_equal. exact (IH a' c c' r r' Ha Ha' Hc Hc' H2).
Qed.

Lemma wind_form_speed : forall dir spd gust tok post dir' spd' gust' tok' post',
  wind_form dir spd gust tok -> wind_form dir' spd' gust' tok' ->
  tok ++ post = tok' ++ post' -> spd = spd'.
Proof.
  intros dir spd gust tok post dir' spd' gust' tok' post'
         (Hdir & (_ & Hspd) & Hgust & ->) (Hdir' & (_ & Hspd') & Hgust' & ->) Heq.
  rewrite <- !app_assoc in Heq.
  apply app_eq_length in Heq.
  - destruct Heq as [_ Heq].
    assert (Hnext : forall g, (g = [] \/ exists w, g = lit "G" ++ w
                                  /\ 2 <= length w <= 3 /\ forallb is_digit w = true) ->
              forall p, exists c r, g ++ lit "KT" ++ p = c :: r /\ is_digit c = false).
    { intros g [-> | (w & -> & _)] p; eexists; eexists; split; reflexivity. }
    destruct (Hnext gust Hgust post) as (c & r & Hr & Hc).
    destruct (Hnext gust' Hgust' post') as (c' & r' & Hr' & Hc').
    rewrite Hr, Hr' in Heq.
    exact (digit_run_unique spd spd' c c' r r' Hspd Hspd' Hc Hc' Heq).
  - destruct Hdir as [-> | [-> _]], Hdir' as [-> | [-> _]]; reflexivity.
Qed.

Lemma finish_app_cons : forall before p parts fallback,
  finish (before ++ p :: parts) fallback = join (lit " ") (before ++ p :: parts).
Proof. intros [|b before] p parts fallback; reflexivity. Qed.

(** A report that holds a token with a visible character is not blank. *)
Lemma token_not_blank : forall s pre tok post,
  s = pre ++ tok ++ post -> forallb is_space tok = false -> taf_missing s = false.
Proof.
  intros s pre tok post -> Htok. rewrite taf_missing_blank, !forallb_app, Htok.
  simpl. apply andb_false_r.
Qed.

Lemma wind_form_not_blank : forall dir spd gust tok,
  wind_form dir spd gust tok -> forallb is_space tok = false.
Proof.
  intros dir spd gust tok (_ & _ & _ & ->).
  rewrite !forallb_app. simpl. rewrite !andb_false_r. reflexivity.
Qed.

Lemma wind_first_speed : forall s pre tok post dir spd gust,
  first_token (fun tok => exists d sp g, wind_form d sp g tok) s pre tok post ->
  wind_form dir spd gust tok ->
  exists m, exec windRe s = Some m /\ m_group 2 m = Some spd.
Proof.
  intros s pre tok post dir spd gust Hfirst Hform.
  destruct (exec_at_first_token windRe (fun tok => exists d sp g, wind_form d sp g tok))
    with (s := s) (pre := pre) (tok := tok) (post := post)
    as (m & He & Hst & Hd); auto.
  - intros p rs y H. apply windRe_sound in H.
    destruct H as (d & sp & g & po & H1 & H2 & H3 & H4 & _). eauto 10.
  - intros p t po (d & sp & g & H). eapply windRe_complete; eauto.
  - exists m. split; auto.
    apply windRe_sound in Hd.
    destruct Hd as (dir' & spd' & gust' & post' & Heq & Hform' & _ & _ & _ & Hc).
    unfold m_group. rewrite Hc. f_equal. symmetry.
    eapply wind_form_speed; eauto.
Qed.

(** C7. When the wind group of a report (the first one it holds) has
    speed 0, whatever its direction and with or without a gust, both
    translators render the fixed sentence ["Winds calm."] in place of
    the templated wind sentence; so for ["00000KT"] and ["VRB00KT"]. *)
Theorem wind_calm :
  (forall s pre tok post dir spd gust,
     first_token (fun tok => exists d sp g, wind_form d sp g tok) s pre tok post ->
     wind_form dir spd gust tok ->
     parseInt spd = 0%Z ->
     metar_wind s = [calm_sentence]
     /\ taf_wind s = [calm_sentence]
     /\ (exists more, translateMetar s
                      = Ret (join (lit " ") (calm_sentence :: more)))
     /\ (exists more, translateTaf s
                      = Ret (join (lit " ") (taf_period s ++ calm_sentence :: more))))
  /\ translateMetar (lit "00000KT") = Ret (lit "Winds calm.")
  /\ translateMetar (lit "VRB00KT") = Ret (lit "Winds calm.")
  /\ translateMetar (lit "27000G15KT") = Ret (lit "Winds calm.")
  /\ translateMetar (lit "VRB000G20KT") = Ret (lit "Winds calm.")
  /\ translateTaf (lit "00000KT") = Ret (lit "Winds calm.")
  /\ translateTaf (lit "VRB00KT") = Ret (lit "Winds calm.")
  /\ translateTaf (lit "27000G15KT") = Ret (lit "Winds calm.")
  /\ translateMetar (lit "KORD 281551Z 00000KT 10SM")
     = Ret (lit "Winds calm. Visibility 10 statute miles.")
  /\ translateTaf (lit "TAF KORD 2818/2924 VRB00KT")
     = Ret (lit "Forecast valid day 28 from 18:00Z to day 29 24:00Z. Winds calm.").
Proof.
  split.
  - intros s pre tok post dir spd gust Hfirst Hform Hzero.
    destruct (wind_first_speed s pre tok post dir spd gust Hfirst Hform) as (m & He & Hg).
    assert (Hm : metar_wind s = [calm_sentence]).
    { unfold metar_wind. rewrite He, Hg. simpl to_str. rewrite Hzero. reflexivity. }
    assert (Ht : taf_wind s = [calm_sentence]).
    { unfold taf_wind. rewrite He, Hg. simpl to_str. rewrite Hzero. reflexivity. }
    splits; auto.
    + destruct (metar_parts_shape s) as (wx & sky & _ & _ & Hp).
      unfold translateMetar. rewrite Hp, Hm. simpl. eexists. reflexivity.
    + destruct (taf_parts_shape s) as (sky & _ & Hp).
      destruct Hfirst as ((Hs & _ & _) & _ & _).
      unfold translateTaf.
      rewrite (token_not_blank s pre tok post Hs (wind_form_not_blank _ _ _ _ Hform)).
      rewrite Hp, Ht. simpl. rewrite finish_app_cons. eexists. reflexivity.
  - splits; vm_compute; reflexivity.
Qed.

(* ------------------------------------------------------------------ *)
(** ** Temperature and dewpoint *)

Lemma clear_caps_nil : forall x, clear_caps [] x = x.
Proof.
  intros [sn rs cs]. unfold clear_caps. simpl. f_equal.
  induction cs as [|c cs IH]; simpl; congruence.
Qed.

Lemma temp_field_parse : forall f v, temp_field f v -> parse_temp f = v.
Proof.
  intros f v (a & b & Ha & Hb & [[-> ->] | [-> ->]]).
  - unfold parse_temp, startsWith.
    assert ((ch "M" =? a)%N = false) as ->.
    { apply N.eqb_neq. intros <-. discriminate. }
    unfold parseInt. cbn [fold_left]. ring.
  - unfold parse_temp, startsWith. rewrite N.eqb_refl.
    unfold parseInt. cbn [tl fold_left]. ring.
Qed.

Lemma temp_field_intro : forall a b,
  is_digit a = true -> is_digit b = true ->
  temp_shape [a; b] /\ temp_shape (ch "M" :: [a; b]).
Proof.
  intros a b Ha Hb. split; eexists; exists a, b; splits; eauto.
Qed.

(** One field of the temperature group: [(M?\d{2})]. *)
Lemma temp_field_inv : forall i sn rs cs y,
  den (Grp i (Seq (Opt (Chr (ch "M"))) (digits_n 2 2))) (MState sn rs cs) y ->
  exists f t, rs = f ++ t /\ temp_shape f
              /\ y = MState (rev f ++ sn) t ((i, f) :: cs).
Proof.
  intros i sn rs cs y H. apply grp_inv in H. destruct H as (z & (z1 & Ho & Hd) & ->).
  assert (Hopt : exists m t, rs = m ++ t /\ (m = [] \/ m = [ch "M"])
                             /\ z1 = MState (rev m ++ sn) t cs).
  { destruct Ho as [-> | [Hc _]].
    - exists [], rs. auto.
    - rewrite clear_caps_nil in Hc. apply chr_inv in Hc.
      destruct Hc as (t & -> & ->). exists [ch "M"], t. auto. }
  destruct Hopt as (m & t & -> & Hm & ->).
  apply rep_inv in Hd. destruct Hd as (w & t' & -> & Hw & Hlo & Hhi & ->).
  simpl in Hhi.
  destruct w as [|a [|b [|c w]]]; simpl in Hlo, Hhi; try lia.
  simpl in Hw. apply andb_true_iff in Hw. destruct Hw as [Ha Hw].
  apply andb_true_iff in Hw. destruct Hw as [Hb _].
  destruct (temp_field_intro a b Ha Hb) as [S1 S2].
  exists (m ++ [a; b]), t'. splits.
  - now rewrite <- app_assoc.
  - destruct Hm as [-> | ->]; assumption.
  - unfold set_cap. cbn [seen rest caps].
    rewrite (captured_eq _ _ (m ++ [a; b])) by (cbn [rest]; now rewrite <- app_assoc).
    rewrite rev_app_distr, <- app_assoc. reflexivity.
Qed.

Lemma temp_field_den : forall i f sn t cs,
  temp_shape f ->
  den (Grp i (Seq (Opt (Chr (ch "M"))) (digits_n 2 2)))
      (MState sn (f ++ t) cs) (MState (rev f ++ sn) t ((i, f) :: cs)).
Proof.
  intros i f sn t cs (v & a & b & Ha & Hb & [[-> _] | [-> _]]); apply grp_intro.
  - exists (MState sn ([a; b] ++ t) cs). split; [apply opt_skip|].
    apply rep_intro; simpl; auto. now rewrite Ha, Hb.
  - exists (MState (ch "M" :: sn) ([a; b] ++ t) cs). split.
    + apply opt_take; [rewrite clear_caps_nil; apply chr_intro | simpl; lia].
    + change (rev (ch "M" :: [a; b]) ++ sn) with ((rev [a; b] ++ [ch "M"]) ++ sn).
      rewrite <- app_assoc. apply rep_intro; simpl; auto. now rewrite Ha, Hb.
Qed.

Lemma temp_shape_ends : forall f,
  temp_shape f ->
  (forall t, head_is_word (f ++ t) = true)
  /\ (forall sn, head_is_word (rev f ++ sn) = true).
Proof.
  intros f (v & a & b & Ha & Hb & [[-> _] | [-> _]]); split; intros; simpl;
    auto using digit_is_word.
Qed.

Lemma tempRe_sound : forall pre rs y,
  den tempRe (at_pos pre rs) y ->
  exists ft fd post,
    rs = (ft ++ lit "/" ++ fd) ++ post /\ temp_shape ft /\ temp_shape fd
    /\ free_before pre /\ free_after post
    /\ caps y = [(2, fd); (1, ft)].
Proof.
  intros pre rs y H. unfold tempRe, at_pos in H.
  seq_step H z Hb. destruct Hb as [Hb ->].
  seq_step H z H1. apply temp_field_inv in H1. destruct H1 as (ft & t0 & -> & Hft & ->).
  seq_step H z Hc. apply chr_inv in Hc. destruct Hc as (t1 & -> & ->).
  seq_step H z H2. apply temp_field_inv in H2. destruct H2 as (fd & t2 & -> & Hfd & ->).
  destruct H as [He ->].
  destruct (temp_shape_ends ft Hft) as [S1 _].
  destruct (temp_shape_ends fd Hfd) as [_ E2].
  unfold at_boundary in Hb, He. cbn [seen rest] in Hb, He.
  rewrite S1 in Hb. rewrite E2 in He.
  exists ft, fd, t2. splits; auto.
  - rewrite <- !app_assoc. reflexivity.
  - unfold free_before. destruct (head_is_word (rev pre)); auto; discriminate.
  - unfold free_after. destruct (head_is_word t2); auto; discriminate.
Qed.

Lemma tempRe_complete : forall pre ft fd post,
  temp_shape ft -> temp_shape fd -> free_before pre -> free_after post ->
  exists y, den tempRe (at_pos pre ((ft ++ lit "/" ++ fd) ++ post)) y.
Proof.
  intros pre ft fd post Hft Hfd Hpre Hpost.
  unfold tempRe, at_pos. rewrite <- !app_assoc.
  destruct (temp_shape_ends ft Hft) as [S1 _].
  destruct (temp_shape_ends fd Hfd) as [_ E2].
  eexists.
  eapply seq_intro.
  { apply wordb_intro. unfold at_boundary. cbn [seen rest]. rewrite S1.
    unfold free_before in Hpre. now rewrite Hpre. }
  eapply seq_intro; [apply temp_field_den; auto|].
  eapply seq_intro; [apply chr_intro|].
  eapply seq_intro; [apply temp_field_den; auto|].
  apply wordb_intro. unfold at_boundary. cbn [seen rest]. rewrite E2.
  unfold free_after in Hpost. now rewrite Hpost.
Qed.

Lemma temp_shape_unique : forall f f' r r',
  temp_shape f -> temp_shape f' -> f ++ r = f' ++ r' -> f = f' /\ r = r'.
Proof.
  intros f f' r r' (v & a & b & Ha & Hb & Hf) (v' & a' & b' & Ha' & Hb' & Hf') Heq.
  assert (ch "M" <> a) by (intros <-; discriminate).
  assert (ch "M" <> a') by (intros <-; discriminate).
  destruct Hf as [[-> _] | [-> _]], Hf' as [[-> _] | [-> _]];
    simpl in Heq; inversion Heq; subst; auto; contradiction.
Qed.

Lemma temp_first_fields : forall s pre tok post t d,
  first_token (fun tok => exists t d, temp_form t d tok) s pre tok post ->
  temp_form t d tok ->
  exists m ft fd,
    exec tempRe s = Some m /\ m_group 1 m = Some ft /\ m_group 2 m = Some fd
    /\ temp_field ft t /\ temp_field fd d.
Proof.
  intros s pre tok post t d Hfirst (ft & fd & Hft & Hfd & ->).
  destruct (exec_at_first_token tempRe (fun tok => exists t d, temp_form t d tok))
    with (s := s) (pre := pre) (tok := ft ++ lit "/" ++ fd) (post := post)
    as (m & He & Hst & Hd); auto.
  - intros p rs y H. apply tempRe_sound in H.
    destruct H as (f1 & f2 & po & -> & (v1 & H1) & (v2 & H2) & Hb & Ha & _).
    exists (f1 ++ lit "/" ++ f2), po. splits; auto.
    exists v1, v2, f1, f2. auto.
  - intros p tk po (t0 & d0 & f1 & f2 & H1 & H2 & ->) Hb Ha.
    apply tempRe_complete; auto; eexists; eauto.
  - apply tempRe_sound in Hd.
    destruct Hd as (ft' & fd' & post' & Heq & Hft' & Hfd' & _ & _ & Hc).
    rewrite <- !app_assoc in Heq.
    apply temp_shape_unique in Heq; auto; [|eexists; eauto].
    destruct Heq as [<- Heq]. simpl in Heq. inversion Heq as [Heq'].
    apply temp_shape_unique in Heq'; auto; [|eexists; eauto].
    destruct Heq' as [<- _].
    exists m, ft, fd. unfold m_group. rewrite Hc. splits; auto.
Qed.

(** C9. When a report holds a temperature/dewpoint group
    ["<[M]two digits>/<[M]two digits>"], METAR translation reads a
    leading [M] of either field as a minus sign and renders the first
    such group as ["Temperature <T>°C, dewpoint <D>°C."]; ["M03/M08"]
    gives ["Temperature -3°C, dewpoint -8°C."] and ["05/M01"] gives
    ["Temperature 5°C, dewpoint -1°C."]. *)
Theorem temperature_rendering :
  (forall s pre tok post t d,
     first_token (fun tok => exists t d, temp_form t d tok) s pre tok post ->
     temp_form t d tok ->
     metar_temperature s = [temperature_sentence t d]
     /\ (exists before after,
           translateMetar s
           = Ret (join (lit " ") (before ++ temperature_sentence t d :: after))))
  /\ translateMetar (lit "M03/M08") = Ret (lit "Temperature -3°C, dewpoint -8°C.")
  /\ translateMetar (lit "05/M01") = Ret (lit "Temperature 5°C, dewpoint -1°C.")
  /\ translateMetar (lit "M00/M12") = Ret (lit "Temperature 0°C, dewpoint -12°C.")
  /\ translateMetar (lit "KORD 281551Z 28012KT 10SM 05/M01 A2992")
     = Ret (lit "Wind 280° at 12 knots. Visibility 10 statute miles. Temperature 5°C, dewpoint -1°C. Altimeter 29.92 inHg.").
Proof.
  split.
  - intros s pre tok post t d Hfirst Hform.
    destruct (temp_first_fields s pre tok post t d Hfirst Hform)
      as (m & ft & fd & He & H1 & H2 & Hft & Hfd).
    assert (Hm : metar_temperature s = [temperature_sentence t d]).
    { unfold metar_temperature, temperature_sentence. rewrite He, H1, H2. simpl to_str.
      now rewrite (temp_field_parse ft t Hft), (temp_field_parse fd d Hfd). }
    split; auto.
    destruct (metar_parts_shape s) as (wx & sky & _ & _ & Hp).
    unfold translateMetar. rewrite Hp, Hm. simpl.
    exists (metar_wind s ++ visibility_sentence s ++ wx ++ sky), (metar_altimeter s).
    rewrite <- (finish_app_cons _ _ _ (lit "Unable to translate METAR.")).
    rewrite <- !app_assoc. reflexivity.
  - splits; vm_compute; reflexivity.
Qed.

(* ------------------------------------------------------------------ *)
(** ** The sky layer of a forecast *)

Lemma sky_cover_lit : forall w,
  In w sky_covers ->
  In (lit w) [lit "FEW"; lit "SCT"; lit "BKN"; lit "OVC"]
  /\ (forall t, head_is_word (lit w ++ t) = true).
Proof.
  intros w Hin. unfold sky_covers in Hin. simpl in Hin.
  destruct Hin as [<- | [<- | [<- | [<- | []]]]]; split; simpl; auto; tauto.
Qed.

Lemma sky_cover_of_lit : forall cov,
  In cov [lit "FEW"; lit "SCT"; lit "BKN"; lit "OVC"] ->
  exists w, In w sky_covers /\ cov = lit w.
Proof.
  intros cov Hin. simpl in Hin.
  destruct Hin as [<- | [<- | [<- | [<- | []]]]]; eexists; split;
    try reflexivity; unfold sky_covers; simpl; tauto.
Qed.

Lemma skyRe_sound : forall pre rs y,
  den skyRe (at_pos pre rs) y ->
  exists tok post, rs = tok ++ post /\ sky_form tok
                   /\ free_before pre /\ free_after post.
Proof.
  intros pre rs y H. unfold skyRe, at_pos in H.
  seq_step H z Hb. destruct Hb as [Hb ->].
  seq_step H z H1. apply (grp_words_inv 1 sky_covers) in H1; [|discriminate].
  destruct H1 as (w & t0 & Hin & -> & ->).
  seq_step H z H2. apply grp_rep_inv in H2.
  destruct H2 as (ds & t1 & -> & Hds & Hlo & Hhi & ->). simpl in Hhi.
  seq_step H z H3. destruct H as [He ->].
  destruct (sky_cover_lit w Hin) as (Hcov & Hstart).
  unfold at_boundary in Hb. cbn [seen rest] in Hb. rewrite Hstart in Hb.
  assert (Hpre : free_before pre).
  { unfold free_before. destruct (head_is_word (rev pre)); auto; discriminate. }
  assert (Dd : digits ds) by (apply (digits_of_len ds 3); auto; lia).
  destruct H3 as [-> | [H3 _]].
  - apply boundary_end_digits in He; auto.
    exists (lit w ++ ds ++ []), t1. splits; auto.
    + rewrite app_nil_r, <- app_assoc. reflexivity.
    + exists (lit w), ds, []. splits; auto; [lia | now left].
  - simpl in H3.
    destruct H3 as (z0 & Hsuf & ->).
    assert (Hs : exists suf t,
              t1 = suf ++ t /\ (suf = lit "CB" \/ suf = lit "TCU")
              /\ rest z0 = t /\ head_is_word (seen z0) = true).
    { destruct Hsuf as [(z1 & (t & Ht & ->) & (t' & Hr & ->))
                       | (z1 & (t & Ht & ->) & (z2 & (t' & Hr & ->) & (t'' & Hr' & ->)))];
        simpl in Ht, Hr; subst t1 t.
      - exists (lit "CB"), t'. splits; auto.
      - simpl in Hr'. subst t'. exists (lit "TCU"), t''. splits; auto. }
    destruct Hs as (suf & t & -> & Hsuf' & Hrest & Hseen).
    unfold at_boundary, set_cap in He. cbn [seen rest] in He.
    rewrite Hseen, Hrest in He.
    exists (lit w ++ ds ++ suf), t. splits; auto.
    + rewrite <- !app_assoc. reflexivity.
    + exists (lit w), ds, suf. splits; auto; [lia|].
      destruct Hsuf' as [-> | ->]; simpl; auto.
    + unfold free_after. destruct (head_is_word t); auto; discriminate.
Qed.

Lemma skyRe_complete : forall pre tok post,
  sky_form tok -> free_before pre -> free_after post ->
  exists y, den skyRe (at_pos pre (tok ++ post)) y.
Proof.
  intros pre tok post (cov & ds & suffix & Hcov & Hlen & Hds & Hsuf & ->) Hpre Hpost.
  unfold skyRe, at_pos. rewrite <- !app_assoc.
  destruct (sky_cover_of_lit cov Hcov) as (w & Hin & ->).
  destruct (sky_cover_lit w Hin) as (_ & Hstart).
  assert (Dd : digits ds) by (apply (digits_of_len ds 3); auto; lia).
  assert (Hopt : exists sn cs,
            den (Opt (Grp 3 (Alt (word "CB") (word "TCU"))))
                (MState (rev ds ++ rev (lit w) ++ rev pre) (suffix ++ post)
                        [(2, ds); (1, lit w)])
                (MState sn post cs)
            /\ at_boundary (MState sn post cs) = true).
  { simpl in Hsuf. destruct Hsuf as [<- | [<- | [<- | []]]].
    - eexists. eexists. split; [apply opt_skip|].
      apply boundary_end_digits; auto.
    - eexists. eexists. split.
      + apply opt_take.
        * unfold clear_caps.
          cbn [groups seen rest caps filter existsb Nat.eqb fst negb orb app].
          apply grp_intro. left. apply word_intro.
        * cbn [rest]. rewrite length_app. simpl. lia.
      + apply boundary_end; auto.
    - eexists. eexists. split.
      + apply opt_take.
        * unfold clear_caps.
          cbn [groups seen rest caps filter existsb Nat.eqb fst negb orb app].
          apply grp_intro. right. apply word_intro.
        * cbn [rest]. rewrite length_app. simpl. lia.
      + apply boundary_end; auto. }
  destruct Hopt as (sn & cs & Hopt & Hend).
  eexists.
  eapply seq_intro.
  { apply wordb_intro. unfold at_boundary. cbn [seen rest]. rewrite Hstart.
    unfold free_before in Hpre. now rewrite Hpre. }
  eapply seq_intro; [apply (grp_words_intro 1 sky_covers w); exact Hin|].
  eapply seq_intro; [apply grp_rep_intro; simpl; auto; lia|].
  eapply seq_intro; [exact Hopt|].
  apply wordb_intro. exact Hend.
Qed.

Lemma tafClearRe_sound : forall pre rs y,
  den tafClearRe (at_pos pre rs) y ->
  exists tok post, rs = tok ++ post /\ (tok = lit "SKC" \/ tok = lit "CAVOK")
                   /\ free_before pre /\ free_after post.
Proof.
  intros pre rs y H. unfold tafClearRe, at_pos in H.
  seq_step H z Hb. destruct Hb as [Hb ->].
  seq_step H z H1. apply (grp_words_inv 1 ["SKC"; "CAVOK"]%string) in H1; [|discriminate].
  destruct H1 as (w & t0 & Hin & -> & ->).
  destruct H as [He ->].
  assert (Hw : lit w = lit "SKC" \/ lit w = lit "CAVOK").
  { destruct Hin as [<- | [<- | []]]; auto. }
  exists (lit w), t0. splits; auto.
  - destruct Hw as [Hw | Hw]; rewrite Hw in Hb; apply boundary_start in Hb; auto.
  - destruct Hw as [Hw | Hw]; rewrite Hw in He; apply boundary_end in He; auto.
Qed.

Lemma tafClearRe_complete : forall pre tok post,
  (tok = lit "SKC" \/ tok = lit "CAVOK") -> free_before pre -> free_after post ->
  exists y, den tafClearRe (at_pos pre (tok ++ post)) y.
Proof.
  intros pre tok post Htok Hpre Hpost. unfold tafClearRe, at_pos.
  assert (exists w, In w ["SKC"; "CAVOK"]%string /\ tok = lit w) as (w & Hin & ->).
  { destruct Htok as [-> | ->]; [exists "SKC"%string | exists "CAVOK"%string];
      simpl; auto. }
  eexists.
  eapply seq_intro.
  { apply wordb_intro. destruct Htok as [-> | ->]; apply boundary_start; auto. }
  eapply seq_intro.
  { apply (grp_words_intro 1 ["SKC"; "CAVOK"]%string w). exact Hin. }
  apply wordb_intro. destruct Htok as [-> | ->]; apply boundary_end; auto.
Qed.

Lemma clearRe_sound : forall pre rs y,
  den clearRe (at_pos pre rs) y ->
  exists tok post,
    rs = tok ++ post /\ (tok = lit "CLR" \/ tok = lit "SKC" \/ tok = lit "CAVOK")
    /\ free_before pre /\ free_after post.
Proof.
  intros pre rs y H. unfold clearRe, at_pos in H.
  seq_step H z Hb. destruct Hb as [Hb ->].
  seq_step H z H1.
  apply (grp_words_inv 1 ["CLR"; "SKC"; "CAVOK"]%string) in H1; [|discriminate].
  destruct H1 as (w & t0 & Hin & -> & ->).
  destruct H as [He ->].
  assert (Hw : lit w = lit "CLR" \/ lit w = lit "SKC" \/ lit w = lit "CAVOK").
  { destruct Hin as [<- | [<- | [<- | []]]]; auto. }
  exists (lit w), t0. splits; auto.
  - destruct Hw as [Hw | [Hw | Hw]]; rewrite Hw in Hb; apply boundary_start in Hb; auto.
  - destruct Hw as [Hw | [Hw | Hw]]; rewrite Hw in He; apply boundary_end in He; auto.
Qed.

Lemma clearRe_complete : forall pre tok post,
  (tok = lit "CLR" \/ tok = lit "SKC" \/ tok = lit "CAVOK") ->
  free_before pre -> free_after post ->
  exists y, den clearRe (at_pos pre (tok ++ post)) y.
Proof.
  intros pre tok post Htok Hpre Hpost. unfold clearRe, at_pos.
  assert (exists w, In w ["CLR"; "SKC"; "CAVOK"]%string /\ tok = lit w)
    as (w & Hin & ->).
  { destruct Htok as [-> | [-> | ->]];
      [exists "CLR"%string | exists "SKC"%string | exists "CAVOK"%string];
      simpl; auto. }
  eexists.
  eapply seq_intro.
  { apply wordb_intro. destruct Htok as [-> | [-> | ->]]; apply boundary_start; auto. }
  eapply seq_intro.
  { apply (grp_words_intro 1 ["CLR"; "SKC"; "CAVOK"]%string w). exact Hin. }
  apply wordb_intro. destruct Htok as [-> | [-> | ->]]; apply boundary_end; auto.
Qed.

Lemma skyRe_first : forall s m,
  exec skyRe s = Some m ->
  exists pre tok post,
    first_token sky_form s pre tok post /\ m_start m = at_pos pre (tok ++ post).
Proof.
  intros s m He.
  apply (exec_first_token skyRe sky_form) in He.
  - destruct He as (pre & post & Hs & Hst & Hd & Hfirst).
    apply skyRe_sound in Hd. destruct Hd as (tok & post' & -> & Hf & Hb & Ha).
    exists pre, tok, post'. unfold first_token, token_at. splits; auto.
  - reflexivity.
  - intros pre tok post. apply skyRe_complete.
Qed.

(** C8. In TAF translation only the earliest sky-layer token is
    rendered, with the phrase the METAR path gives the same token (the
    first of its layers); when the report has no layer token the
    sentence ["Sky clear."] is produced exactly when the report contains
    [SKC] or [CAVOK], so not for [CLR], which only the METAR path
    recognises. *)
Theorem taf_first_sky_layer :
  (forall s m,
     exec skyRe s = Some m ->
     (exists pre tok post,
        first_token sky_form s pre tok post /\ m_start m = at_pos pre (tok ++ post))
     /\ (exists sentence,
           capitalize (taf_layer m) = Ret sentence
           /\ taf_sky s = Ret [sentence ++ lit "."])
     /\ taf_layer m = metar_layer m
     /\ (exists more,
           exec_matches skyRe s = Ret (m :: more)
           /\ metar_layers s
              = Ret (metar_layer m :: map metar_layer more
                     ++ (if test clearRe s then [lit "sky clear"] else []))))
  /\ (forall s,
        exec skyRe s = None <->
        ~ exists pre tok post, token_at s pre tok post /\ sky_form tok)
  /\ (forall s,
        exec skyRe s = None ->
        taf_sky s = Ret (if test tafClearRe s then [lit "Sky clear."] else []))
  /\ (forall s,
        test tafClearRe s = true <->
        exists pre tok post,
          token_at s pre tok post /\ (tok = lit "SKC" \/ tok = lit "CAVOK"))
  /\ (forall s,
        test clearRe s = true <->
        exists pre tok post,
          token_at s pre tok post
          /\ (tok = lit "CLR" \/ tok = lit "SKC" \/ tok = lit "CAVOK"))
  /\ translateTaf (lit "FEW020 BKN040CB OVC100") = Ret (lit "Few clouds at 2,000 feet.")
  /\ translateMetar (lit "FEW020 BKN040CB OVC100")
     = Ret (lit "Few clouds at 2,000 feet, broken clouds at 4,000 feet with cumulonimbus, overcast at 10,000 feet.")
  /\ translateTaf (lit "SKC") = Ret (lit "Sky clear.")
  /\ translateTaf (lit "CAVOK") = Ret (lit "Sky clear.")
  /\ translateTaf (lit "CLR") = Ret (lit "Unable to translate TAF.")
  /\ translateMetar (lit "CLR") = Ret (lit "Sky clear.")
  /\ translateTaf (lit "BKN020 SKC") = Ret (lit "Broken clouds at 2,000 feet.").
Proof.
  splits.
  - intros s m He. splits.
    + now apply skyRe_first.
    + destruct (capitalize_ret (taf_layer m)) as (c & t & Hc); [apply layer_nonempty|].
      exists (c :: t). split; auto. unfold taf_sky. rewrite He, Hc. reflexivity.
    + reflexivity.
    + destruct (sky_layers s) as (ms & Hms & Hl).
      pose proof (exec_matches_head skyRe s ms Hms) as Hh. rewrite He in Hh.
      destruct ms as [|m' more]; inversion Hh; subst m'.
      exists more. split; auto.
  - intros s. apply exec_none_tokens.
    + reflexivity.
    + intros pre rs y. apply skyRe_sound.
    + intros pre tok post. apply skyRe_complete.
  - intros s He. unfold taf_sky. rewrite He. destruct (test tafClearRe s); reflexivity.
  - intros s. apply (test_tokens tafClearRe (fun tok => tok = lit "SKC" \/ tok = lit "CAVOK")).
    + reflexivity.
    + intros pre rs y. apply tafClearRe_sound.
    + intros pre tok post. apply tafClearRe_complete.
  - intros s.
    apply (test_tokens clearRe
             (fun tok => tok = lit "CLR" \/ tok = lit "SKC" \/ tok = lit "CAVOK")).
    + reflexivity.
    + intros pre rs y. apply clearRe_sound.
    + intros pre tok post. apply clearRe_complete.
  - vm_compute; reflexivity.
  - vm_compute; reflexivity.
  - vm_compute; reflexivity.
  - vm_compute; reflexivity.
  - vm_compute; reflexivity.
  - vm_compute; reflexivity.
  - vm_compute; reflexivity.
Qed.

(* ------------------------------------------------------------------ *)
(** ** The arguments of [parseInt]

    Every capture the program hands to [parseInt] is a run of digits
    (for the visibility, ceiling, speed and temperature captures this is
    part of [mixedRe_sound], [fracRe_sound], [wholeRe_sound],
    [layerRe_sound], [windRe_sound] and [temp_field_inv]). *)

Lemma clear_caps_fresh : forall gs sn rs cs,
  (forall p, In p cs -> existsb (Nat.eqb (fst p)) gs = false) ->
  clear_caps gs (MState sn rs cs) = MState sn rs cs.
Proof.
  intros gs sn rs cs H. unfold clear_caps. simpl. f_equal.
  induction cs as [|c cs IH]; simpl; auto.
  rewrite (H c) by now left. simpl. f_equal. apply IH.
  intros p Hp. apply H. now right.
Qed.

Lemma altRe_capture : forall pre rs y,
  den altRe (at_pos pre rs) y ->
  exists w, lookup_cap 1 (caps y) = Some w /\ length w = 4
            /\ forallb is_digit w = true.
Proof.
  intros pre rs y H. unfold altRe, at_pos in H.
  seq_step H z Hb. destruct Hb as [_ ->].
  seq_step H z Hc. apply chr_inv in Hc. destruct Hc as (t0 & -> & ->).
  seq_step H z H1. apply grp_rep_inv in H1.
  destruct H1 as (w & t1 & -> & Hw & Hlo & Hhi & ->). simpl in Hhi.
  destruct H as [_ ->]. exists w. splits; auto. lia.
Qed.

Lemma periodRe_capture : forall pre rs y,
  den periodRe (at_pos pre rs) y ->
  exists a b c d,
    lookup_cap 1 (caps y) = Some a /\ lookup_cap 2 (caps y) = Some b
    /\ lookup_cap 3 (caps y) = Some c /\ lookup_cap 4 (caps y) = Some d
    /\ Forall (fun w => length w = 2 /\ forallb is_digit w = true) [a; b; c; d].
Proof.
  intros pre rs y H. unfold periodRe, at_pos in H.
  seq_step H z Hb. destruct Hb as [_ ->].
  seq_step H z H1. apply grp_rep_inv in H1.
  destruct H1 as (a & t1 & -> & Ha & Halo & Hahi & ->). simpl in Hahi.
  seq_step H z H2. apply grp_rep_inv in H2.
  destruct H2 as (b & t2 & -> & Hb & Hblo & Hbhi & ->). simpl in Hbhi.
  seq_step H z Hc. apply chr_inv in Hc. destruct Hc as (t3 & -> & ->).
  seq_step H z H3. apply grp_rep_inv in H3.
  destruct H3 as (c & t4 & -> & Hc & Hclo & Hchi & ->). simpl in Hchi.
  seq_step H z H4. apply grp_rep_inv in H4.
  destruct H4 as (d & t5 & -> & Hd & Hdlo & Hdhi & ->). simpl in Hdhi.
  destruct H as [_ ->]. exists a, b, c, d. splits; auto.
  repeat constructor; auto; lia.
Qed.

Lemma skyRe_capture : forall pre rs y,
  den skyRe (at_pos pre rs) y ->
  exists cov ds,
    lookup_cap 1 (caps y) = Some (lit cov) /\ In cov sky_covers
    /\ lookup_cap 2 (caps y) = Some ds /\ length ds = 3
    /\ forallb is_digit ds = true
    /\ (lookup_cap 3 (caps y) = None \/ lookup_cap 3 (caps y) = Some (lit "CB")
        \/ lookup_cap 3 (caps y) = Some (lit "TCU")).
Proof.
  intros pre rs y H. unfold skyRe, at_pos in H.
  seq_step H z Hb. destruct Hb as [_ ->].
  seq_step H z H1. apply (grp_words_inv 1 sky_covers) in H1; [|discriminate].
  destruct H1 as (w & t0 & Hin & -> & ->).
  seq_step H z H2. apply grp_rep_inv in H2.
  destruct H2 as (ds & t1 & -> & Hds & Hlo & Hhi & ->). simpl in Hhi.
  seq_step H z H3. destruct H as [_ ->].
  exists w, ds.
  destruct H3 as [-> | [H3 _]].
  - splits; auto; lia.
  - rewrite clear_caps_fresh in H3.
    + apply (grp_words_inv 3 ["CB"; "TCU"]%string) in H3; [|discriminate].
      destruct H3 as (suf & t2 & Hsuf & -> & ->).
      splits; auto; try lia.
      destruct Hsuf as [<- | [<- | []]]; simpl; auto.
    + intros p [<- | [<- | []]]; reflexivity.
Qed.

Lemma windRe_gust : forall pre rs y,
  den windRe (at_pos pre rs) y ->
  lookup_cap 4 (caps y) = None
  \/ exists g, lookup_cap 4 (caps y) = Some g /\ 2 <= length g <= 3
               /\ forallb is_digit g = true.
Proof.
  intros pre rs y H. unfold windRe, at_pos in H.
  seq_step H z Hb. destruct Hb as [_ ->].
  seq_step H z H1. apply grp_inv in H1. destruct H1 as (z1 & H1 & ->).
  assert (Hz1 : caps z1 = []).
  { destruct H1 as [H1 | H1].
    - apply word_inv in H1. destruct H1 as (t & _ & ->). reflexivity.
    - apply rep_inv in H1. destruct H1 as (w & t & _ & _ & _ & _ & ->). reflexivity. }
  destruct z1 as [sn1 rs1 cs1]. simpl in Hz1. subst cs1.
  unfold set_cap in H. cbn [seen rest caps] in H.
  seq_step H z H2. apply grp_rep_inv in H2.
  destruct H2 as (spd & t1 & -> & _ & _ & _ & ->).
  seq_step H z H3.
  seq_step H z' Hkt. destruct z as [sn rs' cs].
  apply word_inv in Hkt. destruct Hkt as (t3 & -> & ->).
  destruct H as [_ ->]. cbn [caps].
  destruct H3 as [H3 | [H3 _]].
  - inversion H3; subst. left. reflexivity.
  - rewrite clear_caps_fresh in H3.
    + apply grp_inv in H3. destruct H3 as (z3 & H3 & Hz).
      apply seq_inv with (rs := []) in H3. destruct H3 as (z4 & Hc & H3).
      apply chr_inv in Hc. destruct Hc as (t2 & -> & ->).
      apply grp_rep_inv in H3. destruct H3 as (g & t4 & -> & Hg & Hglo & Hghi & ->).
      simpl in Hghi. unfold set_cap in Hz. cbn [seen rest caps] in Hz.
      inversion Hz; subst. right. exists g. splits; auto.
    + intros p [<- | [<- | []]]; reflexivity.
Qed.

(* ------------------------------------------------------------------ *)
(** ** The templated wind sentence *)

Lemma jseqb_true : forall a b, jseqb a b = true -> a = b.
Proof.
  intros a b H. unfold jseqb in H. destruct (list_eq_dec N.eq_dec a b); [auto | discriminate].
Qed.

Lemma jseqb_refl : forall a, jseqb a a = true.
Proof.
  intros a. unfold jseqb. destruct (list_eq_dec N.eq_dec a a); [auto | contradiction].
Qed.

(** The captures of a match of [windRe]. *)
Lemma windRe_groups : forall pre rs y,
  den windRe (at_pos pre rs) y ->
  exists dir spd gust post,
    rs = (dir ++ spd ++ gust ++ lit "KT") ++ post
    /\ wind_form dir spd gust (dir ++ spd ++ gust ++ lit "KT")
    /\ lookup_cap 1 (caps y) = Some dir /\ lookup_cap 2 (caps y) = Some spd
    /\ lookup_cap 4 (caps y) = match gust with [] => None | _ :: g => Some g end.
Proof.
  intros pre rs y H. unfold windRe, at_pos in H.
  seq_step H z Hb. destruct Hb as [Hb ->].
  seq_step H z H1. apply grp_inv in H1. destruct H1 as (z1 & H1 & ->).
  assert (Hdir : exists dir t,
            rs = dir ++ t
            /\ (dir = lit "VRB" \/ (length dir = 3 /\ forallb is_digit dir = true))
            /\ z1 = MState (rev dir ++ rev pre) t []).
  { destruct H1 as [H1 | H1].
    - apply word_inv in H1. destruct H1 as (t & -> & ->). exists (lit "VRB"), t. auto.
    - apply rep_inv in H1. destruct H1 as (w & t & -> & Hw & Hlo & Hhi & ->).
      simpl in Hhi. exists w, t. splits; auto. right. split; auto. lia. }
  destruct Hdir as (dir & t0 & -> & Hdir & ->).
  unfold set_cap in H. rewrite captured_app in H. cbn [seen rest caps] in H.
  seq_step H z H2. apply grp_rep_inv in H2.
  destruct H2 as (spd & t1 & -> & Hspd & Hlo & Hhi & ->). simpl in Hhi.
  seq_step H z H3.
  assert (Hgust : exists gust t cs,
            t1 = gust ++ t
            /\ (gust = [] \/ exists g, gust = lit "G" ++ g /\ 2 <= length g <= 3
                                       /\ forallb is_digit g = true)
            /\ z = MState (rev gust ++ rev spd ++ rev dir ++ rev pre) t cs
            /\ lookup_cap 1 cs = Some dir /\ lookup_cap 2 cs = Some spd
            /\ lookup_cap 4 cs = match gust with [] => None | _ :: g => Some g end).
  { destruct H3 as [-> | [H3 _]].
    - exists [], t1, [(2, spd); (1, dir)]. splits; auto.
    - simpl in H3.
      destruct H3 as (z0 & (z' & (t2 & -> & ->)
                            & (z1 & (g & t3 & Hr & Hg & Hglo & Hghi & ->) & ->)) & ->).
      simpl in Hr. subst t2.
      exists (lit "G" ++ g), t3. eexists. splits.
      + reflexivity.
      + right. exists g. splits; auto.
      + unfold set_cap, step, clear_caps. simpl.
        rewrite <- ?app_assoc. reflexivity.
      + reflexivity.
      + reflexivity.
      + simpl. now rewrite captured_app. }
  destruct Hgust as (gust & t2 & cs & -> & Hgust & -> & Hc1 & Hc2 & Hc4).
  seq_step H z Hkt. apply word_inv in Hkt. destruct Hkt as (t3 & -> & ->).
  destruct H as [He ->].
  exists dir, spd, gust, t3. splits; auto.
  - rewrite <- !app_assoc. reflexivity.
  - unfold wind_form. splits; auto.
Qed.

(** A wind token is read in one way only. *)
Lemma wind_form_parts : forall dir spd gust tok post dir' spd' gust' tok' post',
  wind_form dir spd gust tok -> wind_form dir' spd' gust' tok' ->
  tok ++ post = tok' ++ post' -> dir = dir' /\ spd = spd' /\ gust = gust'.
Proof.
  intros dir spd gust tok post dir' spd' gust' tok' post' Hf Hf' Heq.
  pose proof (wind_form_speed _ _ _ _ _ _ _ _ _ _ Hf Hf' Heq) as Hspd.
  destruct Hf as (Hdir & (_ & Hs) & Hgust & ->).
  destruct Hf' as (Hdir' & (_ & Hs') & Hgust' & ->).
  subst spd'. rewrite <- !app_assoc in Heq.
  apply app_eq_length in Heq.
  - destruct Heq as [<- Heq]. apply app_inv_head in Heq.
    splits; auto.
    destruct Hgust as [-> | (g & -> & _ & Hg)], Hgust' as [-> | (g' & -> & _ & Hg')];
      auto; try discriminate.
    lit_compute. simpl in Heq. inversion Heq as [Hgg]. f_equal.
    eapply (digit_run_unique g g' 75%N 75%N); eauto.
  - destruct Hdir as [-> | [-> _]], Hdir' as [-> | [-> _]]; reflexivity.
Qed.

Lemma wind_first_groups : forall s pre tok post dir spd gust,
  first_token (fun tok => exists d sp g, wind_form d sp g tok) s pre tok post ->
  wind_form dir spd gust tok ->
  exists m, exec windRe s = Some m
            /\ m_group 1 m = Some dir /\ m_group 2 m = Some spd
            /\ m_group 4 m = match gust with [] => None | _ :: g => Some g end.
Proof.
  intros s pre tok post dir spd gust Hfirst Hform.
  destruct (exec_at_first_token windRe (fun tok => exists d sp g, wind_form d sp g tok))
    with (s := s) (pre := pre) (tok := tok) (post := post)
    as (m & He & Hst & Hd); auto.
  - intros p rs y H. apply windRe_sound in H.
    destruct H as (d & sp & g & po & H1 & H2 & H3 & H4 & _). eauto 10.
  - intros p t po (d & sp & g & H). eapply windRe_complete; eauto.
  - exists m. split; auto.
    apply windRe_groups in Hd.
    destruct Hd as (dir' & spd' & gust' & post' & Heq & Hform' & Hc1 & Hc2 & Hc4).
    destruct (wind_form_parts _ _ _ _ _ _ _ _ _ _ Hform Hform' Heq) as (-> & -> & ->).
    unfold m_group. auto.
Qed.

Lemma gust_text_phrase : forall dir spd gust tok,
  wind_form dir spd gust tok ->
  gust_text (match gust with [] => None | _ :: g => Some g end) = gust_phrase gust.
Proof.
  intros dir spd gust tok (_ & _ & [-> | (g & -> & Hlen & _)] & _); [reflexivity|].
  lit_compute. simpl. destruct g; [simpl in Hlen; lia | reflexivity].
Qed.

(** X1. The wind group of a report (the first one it holds) whose speed is
    not 0 is rendered by the templated sentence: the direction as it is
    written followed by the degree sign, or "variable" for [VRB]; the
    speed and the gust as numbers, without their leading zeros; the gust
    clause only when the group has a gust part.  The forecast sentence
    differs by its first words only. *)
Theorem wind_templated :
  forall s pre tok post dir spd gust,
    first_token (fun tok => exists d sp g, wind_form d sp g tok) s pre tok post ->
    wind_form dir spd gust tok ->
    parseInt spd <> 0%Z ->
    metar_wind s = [wind_sentence (lit "Wind ") dir spd gust]
    /\ taf_wind s = [wind_sentence (lit "Initial wind ") dir spd gust].
Proof.
  intros s pre tok post dir spd gust Hfirst Hform Hspd.
  destruct (wind_first_groups s pre tok post dir spd gust Hfirst Hform)
    as (m & He & H1 & H2 & H4).
  apply Z.eqb_neq in Hspd.
  unfold metar_wind, taf_wind, wind_sentence.
  rewrite He, H1, H2, H4. simpl to_str. rewrite Hspd.
  rewrite (gust_text_phrase dir spd gust tok Hform). auto.
Qed.

(* ------------------------------------------------------------------ *)
(** ** Altimeter *)

Lemma altRe_sound : forall pre rs y,
  den altRe (at_pos pre rs) y ->
  exists ds post,
    rs = (lit "A" ++ ds) ++ post /\ altimeter_form ds (lit "A" ++ ds)
    /\ free_before pre /\ free_after post
    /\ lookup_cap 1 (caps y) = Some ds.
Proof.
  intros pre rs y H. unfold altRe, at_pos in H.
  seq_step H z Hb. destruct Hb as [Hb ->].
  seq_step H z Hc. apply chr_inv in Hc. destruct Hc as (t0 & -> & ->).
  seq_step H z H1. apply grp_rep_inv in H1.
  destruct H1 as (ds & t1 & -> & Hds & Hlo & Hhi & ->). simpl in Hhi.
  destruct H as [He ->].
  assert (Dd : digits ds) by (apply (digits_of_len ds 4); auto; lia).
  apply boundary_start in Hb; [|reflexivity].
  apply boundary_end_digits in He; auto.
  exists ds, t1. unfold altimeter_form. splits; auto. lia.
Qed.

Lemma altRe_complete : forall pre ds tok post,
  altimeter_form ds tok -> free_before pre -> free_after post ->
  exists y, den altRe (at_pos pre (tok ++ post)) y.
Proof.
  intros pre ds tok post (Hlen & Hds & ->) Hpre Hpost.
  unfold altRe, at_pos. rewrite <- app_assoc.
  assert (Dd : digits ds) by (apply (digits_of_len ds 4); auto; lia).
  eexists.
  eapply seq_intro.
  { apply wordb_intro. apply boundary_start; auto. }
  eapply seq_intro; [apply chr_intro|].
  eapply seq_intro; [apply grp_rep_intro; simpl; auto; lia|].
  apply wordb_intro. apply boundary_end_digits; auto.
Qed.

Lemma altimeter_first_digits : forall s pre tok post ds,
  first_token (fun tok => exists ds, altimeter_form ds tok) s pre tok post ->
  altimeter_form ds tok ->
  exists m, exec altRe s = Some m /\ m_group 1 m = Some ds.
Proof.
  intros s pre tok post ds Hfirst Hform.
  destruct (exec_at_first_token altRe (fun tok => exists ds, altimeter_form ds tok))
    with (s := s) (pre := pre) (tok := tok) (post := post)
    as (m & He & Hst & Hd); auto.
  - intros p rs y H. apply altRe_sound in H.
    destruct H as (d & po & H1 & H2 & H3 & H4 & _). eauto 10.
  - intros p t po (d & H). eapply altRe_complete; eauto.
  - exists m. split; auto.
    apply altRe_sound in Hd.
    destruct Hd as (ds' & post' & Heq & (Hlen' & _ & _) & _ & _ & Hc).
    destruct Hform as (Hlen & _ & ->).
    unfold m_group. rewrite Hc. f_equal.
    apply app_eq_length in Heq.
    + destruct Heq as [Heq _]. apply app_inv_head in Heq. auto.
    + rewrite !length_app. lia.
Qed.

Lemma forallb_upto : forall (f : Z -> bool) (n : Z),
  forallb f (map Z.of_nat (List.seq 0 (Z.to_nat n))) = true ->
  forall z, (0 <= z < n)%Z -> f z = true.
Proof.
  intros f n H z Hz. rewrite forallb_forall in H. apply H.
  apply in_map_iff. exists (Z.to_nat z). split; [apply Z2Nat.id; lia|].
  apply in_seq. lia.
Qed.

Lemma forallb_from : forall (f : Z -> bool) (b len : Z),
  forallb f (map (fun i => (b + Z.of_nat i)%Z) (List.seq 0 (Z.to_nat len))) = true ->
  forall z, (b <= z < b + len)%Z -> f z = true.
Proof.
  intros f b len H z Hz. rewrite forallb_forall in H. apply H.
  apply in_map_iff. exists (Z.to_nat (z - b)). split; [lia|].
  apply in_seq. lia.
Qed.

Lemma digit_val_range : forall c, is_digit c = true -> (0 <= digit_val c <= 9)%Z.
Proof.
  intros c H. unfold is_digit, in_range in H. apply andb_true_iff in H.
  destruct H as [H1 H2]. apply N.leb_le in H1. apply N.leb_le in H2.
  unfold digit_val. lia.
Qed.

Lemma parseInt_four : forall ds,
  length ds = 4 -> forallb is_digit ds = true -> (0 <= parseInt ds < 10000)%Z.
Proof.
  intros [|a [|b [|c [|d [|e ds]]]]] Hlen Hall; try discriminate.
  simpl in Hall.
  apply andb_true_iff in Hall. destruct Hall as [Ha Hall].
  apply andb_true_iff in Hall. destruct Hall as [Hb Hall].
  apply andb_true_iff in Hall. destruct Hall as [Hc Hall].
  apply andb_true_iff in Hall. destruct Hall as [Hd _].
  apply digit_val_range in Ha, Hb, Hc, Hd.
  unfold parseInt. cbn [fold_left]. lia.
Qed.

(** Hundredths divided by 100 and printed with two decimals: the
    integer part, a point and the two last digits, for every value four
    digits can denote. *)
Lemma hundredths_toFixed2 : forall n,
  (0 <= n < 10000)%Z ->
  toFixed2 (num_div (of_Z n) (of_Z 100))
  = Z_to_js (n / 100) ++ lit "." ++ padStart2 (Z_to_js (n mod 100)).
Proof.
  intros n Hn. apply jseqb_true.
  set (f := fun n => jseqb (toFixed2 (num_div (of_Z n) (of_Z 100)))
                           (Z_to_js (n / 100) ++ lit "." ++ padStart2 (Z_to_js (n mod 100)))).
  change (f n = true).
  assert (Hk : exists k, (0 <= k < 10)%Z /\ (1000 * k <= n < 1000 * k + 1000)%Z).
  { exists (n / 1000)%Z.
    pose proof (Z.div_mod n 1000 ltac:(lia)) as Hd.
    pose proof (Z.mod_pos_bound n 1000 ltac:(lia)) as Hm.
    split; [|lia].
    split; [apply Z.div_pos; lia | apply Z.div_lt_upper_bound; lia]. }
  destruct Hk as (k & Hk & Hn').
  apply (forallb_from f (1000 * k) 1000); [|lia].
  assert (Hcases : (k = 0 \/ k = 1 \/ k = 2 \/ k = 3 \/ k = 4 \/ k = 5 \/ k = 6
                    \/ k = 7 \/ k = 8 \/ k = 9)%Z) by lia.
  destruct Hcases as [-> | [-> | [-> | [-> | [-> | [-> | [-> | [-> | [-> | ->]]]]]]]]];
    vm_compute; reflexivity.
Qed.

(** X2. The altimeter group of a report (the first one it holds) is
    rendered as inches of mercury with two decimals, and the text is the
    group's own digits: the number its first two digits denote, a point,
    and its last two digits.  The division by 100 and the rounding of
    [toFixed] lose nothing for any of the 10000 settings. *)
Theorem altimeter_rendering :
  forall s pre tok post ds,
    first_token (fun tok => exists ds, altimeter_form ds tok) s pre tok post ->
    altimeter_form ds tok ->
    metar_altimeter s = [altimeter_sentence (parseInt ds)]
    /\ (0 <= parseInt ds < 10000)%Z.
Proof.
  intros s pre tok post ds Hfirst Hform.
  destruct (altimeter_first_digits s pre tok post ds Hfirst Hform) as (m & He & Hg).
  destruct Hform as (Hlen & Hds & _).
  pose proof (parseInt_four ds Hlen Hds) as Hr. split; auto.
  unfold metar_altimeter, altimeter_sentence, parseNum. rewrite He, Hg. simpl to_str.
  rewrite (hundredths_toFixed2 _ Hr). rewrite <- !app_assoc. reflexivity.
Qed.

(* ------------------------------------------------------------------ *)
(** ** The validity period of a forecast *)

Lemma two_digits_digits : forall w, two_digits w -> digits w.
Proof. intros w [Hlen Hall]. apply (digits_of_len w 2); auto; lia. Qed.

Lemma periodRe_sound : forall pre rs y,
  den periodRe (at_pos pre rs) y ->
  exists d1 h1 d2 h2 post,
    rs = (d1 ++ h1 ++ lit "/" ++ d2 ++ h2) ++ post
    /\ period_form d1 h1 d2 h2 (d1 ++ h1 ++ lit "/" ++ d2 ++ h2)
    /\ free_before pre /\ free_after post
    /\ lookup_cap 1 (caps y) = Some d1 /\ lookup_cap 2 (caps y) = Some h1
    /\ lookup_cap 3 (caps y) = Some d2 /\ lookup_cap 4 (caps y) = Some h2.
Proof.
  intros pre rs y H. unfold periodRe, at_pos in H.
  seq_step H z Hb. destruct Hb as [Hb ->].
  seq_step H z H1. apply grp_rep_inv in H1.
  destruct H1 as (a & t1 & -> & Ha & Halo & Hahi & ->). simpl in Hahi.
  seq_step H z H2. apply grp_rep_inv in H2.
  destruct H2 as (b & t2 & -> & Hb2 & Hblo & Hbhi & ->). simpl in Hbhi.
  seq_step H z Hc. apply chr_inv in Hc. destruct Hc as (t3 & -> & ->).
  seq_step H z H3. apply grp_rep_inv in H3.
  destruct H3 as (c & t4 & -> & Hc & Hclo & Hchi & ->). simpl in Hchi.
  seq_step H z H4. apply grp_rep_inv in H4.
  destruct H4 as (d & t5 & -> & Hd & Hdlo & Hdhi & ->). simpl in Hdhi.
  destruct H as [He ->].
  assert (Ta : two_digits a) by (split; auto; lia).
  assert (Tb : two_digits b) by (split; auto; lia).
  assert (Tc : two_digits c) by (split; auto; lia).
  assert (Td : two_digits d) by (split; auto; lia).
  apply boundary_start_digits in Hb; [|now apply two_digits_digits].
  apply boundary_end_digits in He; [|now apply two_digits_digits].
  exists a, b, c, d, t5. unfold period_form.
  splits; auto; try (rewrite <- !app_assoc; reflexivity).
Qed.

Lemma periodRe_complete : forall pre d1 h1 d2 h2 tok post,
  period_form d1 h1 d2 h2 tok -> free_before pre -> free_after post ->
  exists y, den periodRe (at_pos pre (tok ++ post)) y.
Proof.
  intros pre d1 h1 d2 h2 tok post (T1 & T2 & T3 & T4 & ->) Hpre Hpost.
  unfold periodRe, at_pos. rewrite <- !app_assoc.
  pose proof (two_digits_digits _ T1) as D1.
  pose proof (two_digits_digits _ T4) as D4.
  destruct T1 as [L1 A1], T2 as [L2 A2], T3 as [L3 A3], T4 as [L4 A4].
  eexists.
  eapply seq_intro.
  { apply wordb_intro. apply boundary_start_digits; auto. }
  eapply seq_intro; [apply grp_rep_intro; simpl; auto; lia|].
  eapply seq_intro; [apply grp_rep_intro; simpl; auto; lia|].
  eapply seq_intro; [lit_compute; apply chr_intro|].
  eapply seq_intro; [apply grp_rep_intro; simpl; auto; lia|].
  eapply seq_intro; [apply grp_rep_intro; simpl; auto; lia|].
  apply wordb_intro. apply boundary_end_digits; auto.
Qed.

Lemma period_form_parts : forall d1 h1 d2 h2 tok post d1' h1' d2' h2' tok' post',
  period_form d1 h1 d2 h2 tok -> period_form d1' h1' d2' h2' tok' ->
  tok ++ post = tok' ++ post' -> d1 = d1' /\ h1 = h1' /\ d2 = d2' /\ h2 = h2'.
Proof.
  intros d1 h1 d2 h2 tok post d1' h1' d2' h2' tok' post'
         ([L1 _] & [L2 _] & [L3 _] & [L4 _] & ->)
         ([L1' _] & [L2' _] & [L3' _] & [L4' _] & ->) Heq.
  rewrite <- !app_assoc in Heq.
  apply app_eq_length in Heq; [|congruence]. destruct Heq as [<- Heq].
  apply app_eq_length in Heq; [|congruence]. destruct Heq as [<- Heq].
  apply app_eq_length in Heq; [|reflexivity]. destruct Heq as [_ Heq].
  apply app_eq_length in Heq; [|congruence]. destruct Heq as [<- Heq].
  apply app_eq_length in Heq; [|congruence]. destruct Heq as [<- Heq].
  auto.
Qed.

Lemma digit_cases : forall c,
  is_digit c = true -> In c [48; 49; 50; 51; 52; 53; 54; 55; 56; 57]%N.
Proof.
  intros c H. unfold is_digit, in_range in H. apply andb_true_iff in H.
  destruct H as [H1 H2]. apply N.leb_le in H1. apply N.leb_le in H2.
  assert (c = 48 \/ c = 49 \/ c = 50 \/ c = 51 \/ c = 52 \/ c = 53 \/ c = 54
          \/ c = 55 \/ c = 56 \/ c = 57)%N as Hc by lia.
  simpl. intuition auto.
Qed.

(** Reading two digits as a number and padding its decimal text back to
    two places gives the two digits again. *)
Lemma hour_round_trip : forall h,
  two_digits h -> padStart2 (Z_to_js (parseInt h)) = h.
Proof.
  intros [|a [|b [|c h]]] [Hlen Hall]; try discriminate.
  simpl in Hall. apply andb_true_iff in Hall. destruct Hall as [Ha Hall].
  apply andb_true_iff in Hall. destruct Hall as [Hb _].
  apply digit_cases in Ha. apply digit_cases in Hb.
  simpl in Ha, Hb.
  repeat (destruct Ha as [<- | Ha]; [
    repeat (destruct Hb as [<- | Hb]; [vm_compute; reflexivity|]); contradiction |]).
  contradiction.
Qed.

(** X3. The validity period of a forecast (the first period group it holds)
    is rendered with the two hours exactly as they are written and the
    two days as numbers, without a leading zero. *)
Theorem period_rendering :
  forall s pre tok post d1 h1 d2 h2,
    first_token (fun tok => exists a b c d, period_form a b c d tok) s pre tok post ->
    period_form d1 h1 d2 h2 tok ->
    taf_period s = [period_sentence d1 h1 d2 h2].
Proof.
  intros s pre tok post d1 h1 d2 h2 Hfirst Hform.
  destruct (exec_at_first_token periodRe
              (fun tok => exists a b c d, period_form a b c d tok))
    with (s := s) (pre := pre) (tok := tok) (post := post)
    as (m & He & Hst & Hd); auto.
  - intros p rs y H. apply periodRe_sound in H.
    destruct H as (a & b & c & d & po & H1 & H2 & H3 & H4 & _). eauto 12.
  - intros p t po (a & b & c & d & H). eapply periodRe_complete; eauto.
  - apply periodRe_sound in Hd.
    destruct Hd as (a & b & c & d & post' & Heq & Hform' & _ & _ & C1 & C2 & C3 & C4).
    destruct (period_form_parts _ _ _ _ _ _ _ _ _ _ _ _ Hform Hform' Heq)
      as (-> & -> & -> & ->).
    destruct Hform as (_ & T2 & _ & T4 & _).
    unfold taf_period, period_sentence, m_group. rewrite He, C1, C2, C3, C4.
    simpl to_str. rewrite (hour_round_trip _ T2), (hour_round_trip _ T4). reflexivity.
Qed.

(* ------------------------------------------------------------------ *)
(** ** The change groups of a forecast *)

(** [s.match(re)] with the [g] flag returns the texts of the matches the
    [exec] loop goes through. *)
Lemma match_all_from_matches : forall r n sn rs ms,
  matches_from n r sn rs = Ret ms ->
  match_all_from (S n) r sn rs = map m_text ms.
Proof.
  intros r n. induction n as [|n IH]; intros sn rs ms H.
  - simpl in *. destruct (scan r sn rs) as [m|]; try discriminate.
    inversion H. reflexivity.
  - change (matches_from (S n) r sn rs) with
      (match scan r sn rs with
       | None => Ret []
       | Some m =>
           if Nat.eqb (length (rest (m_end m))) (length (rest (m_start m)))
           then Diverge
           else ms <- matches_from n r (seen (m_end m)) (rest (m_end m)) ;;
                Ret (m :: ms)
       end) in H.
    change (match_all_from (S (S n)) r sn rs) with
      (match scan r sn rs with
       | None => []
       | Some m =>
           let y := m_end m in
           if Nat.eqb (length (rest y)) (length (rest (m_start m))) then
             match rest y with
             | [] => [m_text m]
             | c :: t => m_text m :: match_all_from (S n) r (c :: seen y) t
             end
           else m_text m :: match_all_from (S n) r (seen y) (rest y)
       end).
    destruct (scan r sn rs) as [m|]; [|inversion H; reflexivity].
    cbv zeta.
    destruct (Nat.eqb (length (rest (m_end m))) (length (rest (m_start m))));
      try discriminate.
    destruct (matches_from n r (seen (m_end m)) (rest (m_end m))) as [ms'| |] eqn:Hms;
      try discriminate.
    simpl in H. inversion H; subst ms. simpl. f_equal. apply IH. exact Hms.
Qed.

Lemma match_all_matches : forall r s ms,
  exec_matches r s = Ret ms -> match_all r s = map m_text ms.
Proof. intros r s ms H. apply match_all_from_matches. exact H. Qed.

(** The matches of the loop stand at increasing positions. *)
Lemma matches_from_sorted : forall r n sn rs ms,
  wf r = true -> matches_from n r sn rs = Ret ms ->
  StronglySorted (fun m m' => length (seen (m_start m)) < length (seen (m_start m'))) ms
  /\ Forall (fun m => length sn <= length (seen (m_start m))) ms.
Proof.
  intros r n. induction n as [|n IH]; intros sn rs ms Hwf H; simpl in H.
  - destruct (scan r sn rs); try discriminate. inversion H. split; constructor.
  - destruct (scan r sn rs) as [m|] eqn:Hs; [|inversion H; split; constructor].
    destruct (Nat.eqb (length (rest (m_end m))) (length (rest (m_start m)))) eqn:Hlen;
      try discriminate.
    destruct (matches_from n r (seen (m_end m)) (rest (m_end m))) as [ms'| |] eqn:Hms;
      try discriminate.
    simpl in H. inversion H; subst ms. clear H.
    apply scan_sound in Hs; auto.
    destruct Hs as (pre & post & Hrs & Hst & Hd & _).
    destruct (den_consumed _ _ _ Hd) as (w & Hr & Hsn & _).
    apply Nat.eqb_neq in Hlen.
    assert (Hw : 1 <= length w).
    { destruct w; simpl; [|lia]. simpl in Hr. rewrite Hr in Hlen. contradiction. }
    destruct (IH _ _ _ Hwf Hms) as (Hsorted & Hall).
    assert (Hstart : length sn <= length (seen (m_start m))).
    { rewrite Hst. simpl. rewrite length_app. lia. }
    split.
    + constructor; auto.
      eapply Forall_impl; [|exact Hall].
      intros m' Hm'. rewrite Hsn, length_app, length_rev in Hm'. lia.
    + constructor; auto.
      eapply Forall_impl; [|exact Hall].
      intros m' Hm'. rewrite Hsn, length_app, length_rev in Hm'. lia.
Qed.

Lemma changeRe_sound : forall pre rs y,
  den changeRe (at_pos pre rs) y ->
  exists tok post,
    rs = tok ++ post /\ change_form tok /\ free_before pre /\ free_after post
    /\ rest y = post.
Proof.
  intros pre rs y H. unfold changeRe, at_pos in H.
  seq_step H z Hb. destruct Hb as [Hb ->].
  seq_step H z H1. apply grp_inv in H1. destruct H1 as (z1 & H1 & ->).
  destruct H as [He ->].
  assert (Htok : exists tok post c sn,
            rs = tok ++ post /\ change_form tok /\ z1 = MState (c :: sn) post []
            /\ is_word c = true /\ head_is_word rs = true).
  { destruct H1 as [H1 | [H1 | H1]].
    - apply word_inv in H1. destruct H1 as (t & -> & ->).
      exists (lit "TEMPO"), t. eexists. eexists. unfold change_form.
      splits; auto; reflexivity.
    - apply word_inv in H1. destruct H1 as (t & -> & ->).
      exists (lit "BECMG"), t. eexists. eexists. unfold change_form.
      splits; auto; reflexivity.
    - destruct H1 as (z0 & Hfm & Hd).
      apply word_inv in Hfm. destruct Hfm as (t & -> & ->).
      apply rep_inv in Hd. destruct Hd as (ds & t' & -> & Hds & Hlo & Hhi & ->).
      simpl in Hhi.
      assert (Dd : digits ds) by (apply (digits_of_len ds 6); auto; lia).
      destruct (digits_last ds (rev (lit "FM") ++ rev pre) Dd) as (c & u & Hcu & Hc).
      exists (lit "FM" ++ ds), t', c, u. unfold change_form. splits; auto.
      + right. right. exists ds. splits; auto. lia.
      + now rewrite Hcu. }
  destruct Htok as (tok & post & c & sn & -> & Hform & -> & Hc & Hstart).
  unfold set_cap in He. cbn [seen rest caps] in He.
  apply boundary_end in He; auto.
  unfold at_boundary in Hb. cbn [seen rest] in Hb. rewrite Hstart in Hb.
  exists tok, post. splits; auto.
  unfold free_before. destruct (head_is_word (rev pre)); auto; discriminate.
Qed.

Lemma change_form_word : forall tok,
  change_form tok -> tok <> [] /\ forallb is_word tok = true.
Proof.
  intros tok [-> | [-> | (ds & Hlen & Hds & ->)]]; try (split; [discriminate | reflexivity]).
  split; [discriminate|].
  rewrite forallb_app. apply andb_true_iff. split; [reflexivity|].
  rewrite forallb_forall in *. intros c Hc. apply digit_is_word. auto.
Qed.

Lemma changeRe_complete : forall pre tok post,
  change_form tok -> free_before pre -> free_after post ->
  exists y, den changeRe (at_pos pre (tok ++ post)) y.
Proof.
  intros pre tok post Hform Hpre Hpost. unfold changeRe, at_pos.
  destruct (change_form_word tok Hform) as (Hne & Hw).
  assert (Hstart : head_is_word (tok ++ post) = true) by now apply head_is_word_app.
  assert (Hend : forall cs, at_boundary (MState (rev tok ++ rev pre) post cs) = true).
  { intros cs. unfold at_boundary. cbn [seen rest].
    rewrite head_is_word_rev; auto. unfold free_after in Hpost. now rewrite Hpost. }
  eexists.
  eapply seq_intro.
  { apply wordb_intro. unfold at_boundary. cbn [seen rest]. rewrite Hstart.
    unfold free_before in Hpre. now rewrite Hpre. }
  eapply seq_intro.
  { apply grp_intro.
    destruct Hform as [-> | [-> | (ds & Hlen & Hds & ->)]].
    - left. apply word_intro.
    - right. left. apply word_intro.
    - right. right.
      exists (MState (rev (lit "FM") ++ rev pre) (ds ++ post) []). split.
      + rewrite <- app_assoc. apply word_intro.
      + rewrite rev_app_distr, <- app_assoc.
        apply rep_intro; simpl; auto; lia. }
  apply wordb_intro. apply Hend.
Qed.

Lemma changeRe_separated : separated changeRe.
Proof.
  apply separated_words. intros sn rs y H.
  split.
  - unfold changeRe in H. seq_step H z Hb. now destruct Hb.
  - rewrite <- (rev_involutive sn) in H. apply changeRe_sound in H.
    destruct H as (tok & post & -> & Hform & _ & _ & ->).
    exists tok. split; auto. now apply change_form_word.
Qed.

(** Two change groups that start at the same place are the same. *)
Lemma change_form_unique : forall tok post tok' post',
  change_form tok -> change_form tok' ->
  free_after post -> free_after post' ->
  tok ++ post = tok' ++ post' -> tok = tok'.
Proof.
  intros tok post tok' post' Hf Hf' Ha Ha' Heq.
  assert (Hlen : length tok = length tok').
  { destruct Hf as [-> | [-> | (ds & Hlen & Hds & ->)]],
             Hf' as [-> | [-> | (ds' & Hlen' & Hds' & ->)]];
      try reflexivity; try discriminate;
      try (rewrite !length_app, Hlen, Hlen'; reflexivity). }
  apply app_eq_length in Heq; tauto.
Qed.

(** X4. The change-group sentence of a forecast counts the change groups of
    the report, [TEMPO], [BECMG] and [FM] with six digits, each standing
    as a token of its own, and lists them in the order in which they
    occur: every match stands on such a token, every such token is
    matched, once, and the number in the sentence is the number of these
    tokens, with "groups" in the plural from two on. *)
Theorem taf_change_groups :
  forall s,
  exists ms,
    exec_matches changeRe s = Ret ms
    /\ match_all changeRe s = map m_text ms
    /\ taf_changes s = match ms with
                       | [] => []
                       | _ :: _ => [changes_sentence (map m_text ms)]
                       end
    /\ Forall (fun m => exists pre post,
                 token_at s pre (m_text m) post /\ change_form (m_text m)
                 /\ m_start m = at_pos pre (m_text m ++ post)) ms
    /\ (forall pre tok post,
          token_at s pre tok post -> change_form tok ->
          exists m, In m ms /\ m_start m = at_pos pre (tok ++ post) /\ m_text m = tok)
    /\ StronglySorted
         (fun m m' => length (seen (m_start m)) < length (seen (m_start m'))) ms.
Proof.
  intros s.
  destruct (exec_matches_total changeRe s) as (ms & Hms); [reflexivity | simpl; lia |].
  pose proof (match_all_matches changeRe s ms Hms) as Hall.
  assert (Hsound : Forall (fun m => exists pre post,
                     token_at s pre (m_text m) post /\ change_form (m_text m)
                     /\ m_start m = at_pos pre (m_text m ++ post)) ms).
  { pose proof (exec_matches_sound changeRe s ms eq_refl Hms) as Hs.
    eapply Forall_impl; [|exact Hs].
    intros m (pre & post & Hsplit & Hst & Hd).
    apply changeRe_sound in Hd.
    destruct Hd as (tok & post' & -> & Hform & Hb & Ha & Hrest).
    assert (Htext : m_text m = tok).
    { unfold m_text. apply captured_eq. rewrite Hst, Hrest. reflexivity. }
    rewrite Htext. exists pre, post'. unfold token_at. splits; auto. }
  exists ms. splits; auto.
  - unfold taf_changes. rewrite Hall. destruct ms; reflexivity.
  - intros pre tok post (Hs & Hb & Ha) Hform.
    destruct (changeRe_complete pre tok post Hform Hb Ha) as (y & Hy).
    destruct (exec_matches_cover changeRe s ms eq_refl changeRe_separated Hms
                pre (tok ++ post) y Hs Hy) as (m & Hin & Hst).
    exists m. splits; auto.
    rewrite Forall_forall in Hsound.
    destruct (Hsound m Hin) as (pre' & post' & (_ & _ & Ha') & Hform' & Hst').
    rewrite Hst in Hst'. unfold at_pos in Hst'. injection Hst' as _ Heq.
    symmetry. exact (change_form_unique tok post (m_text m) post' Hform Hform' Ha Ha' Heq).
  - apply (matches_from_sorted changeRe (length s) [] s ms); auto.
Qed.

(* ------------------------------------------------------------------ *)
(** ** The intensity of a weather group *)

Lemma lookup_clear_caps : forall i gs x,
  existsb (Nat.eqb i) gs = false ->
  lookup_cap i (caps (clear_caps gs x)) = lookup_cap i (caps x).
Proof.
  intros i gs [sn rs cs] Hi. unfold clear_caps. simpl.
  induction cs as [|[j w] cs IH]; simpl; auto.
  destruct (Nat.eqb i j) eqn:Hij.
  - apply Nat.eqb_eq in Hij. subst j. simpl. rewrite Hi. simpl.
    now rewrite Nat.eqb_refl.
  - destruct (existsb (Nat.eqb j) gs); simpl; auto. now rewrite Hij.
Qed.

(** The first group of a match of [wxRe]: absent, [VC], or a sign, and
    a sign only where a word character stands before it. *)
Lemma wxRe_group1 : forall pre rs y,
  den wxRe (at_pos pre rs) y ->
  lookup_cap 1 (caps y) = None
  \/ lookup_cap 1 (caps y) = Some (lit "VC")
  \/ ((lookup_cap 1 (caps y) = Some (lit "-") \/ lookup_cap 1 (caps y) = Some (lit "+"))
      /\ head_is_word (rev pre) = true).
Proof.
  intros pre rs y H. unfold wxRe, at_pos in H.
  seq_step H z0 Hb. destruct Hb as [Hb ->].
  seq_step H z1 H1. seq_step H z2 H2. seq_step H z3 H3.
  destruct H as [_ ->].
  assert (H32 : lookup_cap 1 (caps z3) = lookup_cap 1 (caps z2)).
  { destruct z2 as [sn2 rs2 cs2].
    apply (grp_words_inv 3 wx_codes) in H3; [|discriminate].
    destruct H3 as (w & t & _ & _ & ->). reflexivity. }
  assert (H21 : lookup_cap 1 (caps z2) = lookup_cap 1 (caps z1)).
  { destruct H2 as [-> | [H2 _]]; auto.
    rewrite <- (lookup_clear_caps 1 [2] z1) by reflexivity.
    simpl groups in H2.
    destruct (clear_caps [2] z1) as [sn1 rs1 cs1].
    apply (grp_words_inv 2 ["MI"; "PR"; "BC"; "DR"; "BL"; "SH"; "TS"; "FZ"]%string) in H2;
      [|discriminate].
    destruct H2 as (w & t & _ & _ & ->). reflexivity. }
  rewrite H32, H21.
  destruct H1 as [-> | [H1 _]]; [now left|].
  right. unfold clear_caps in H1. cbn [groups seen rest caps filter app] in H1.
  apply grp_inv in H1. destruct H1 as (z & [H1 | H1] & ->).
  - right. destruct H1 as (c & t & Hr & Hc & ->). cbn [rest] in Hr. subst rs.
    unfold set_cap, step. cbn [seen rest caps]. rewrite captured_eq with (w := [c]);
      [|reflexivity].
    assert (Hsign : c = 45%N \/ c = 43%N).
    { unfold one_of in Hc. simpl in Hc. rewrite orb_false_r in Hc.
      apply orb_true_iff in Hc. destruct Hc as [Hc | Hc]; apply N.eqb_eq in Hc; auto. }
    unfold at_boundary in Hb. cbn [seen rest head_is_word] in Hb.
    split.
    + destruct Hsign as [-> | ->]; [left | right]; reflexivity.
    + destruct Hsign as [-> | ->]; simpl in Hb;
        destruct (head_is_word (rev pre)); auto; discriminate.
  - left. apply word_inv in H1. destruct H1 as (t & -> & ->).
    unfold set_cap. cbn [seen rest caps]. rewrite captured_app. reflexivity.
Qed.

(** X5. A sign before a weather group is read as its intensity only when it
    directly follows a letter, a digit or an underscore.  A group that
    stands after white space or at the start of the report, as the
    groups of a report do, is rendered without "light" or "heavy",
    whatever sign it carries: by the phenomenon alone, or after
    "in vicinity" for [VC]. *)
Theorem wx_intensity_sign :
  (forall s,
   exists ms,
     exec_matches wxRe s = Ret ms
     /\ wxFound s = Ret (map wx_phrase ms)
     /\ Forall (fun m =>
                  exists pre post,
                    s = pre ++ post /\ m_start m = at_pos pre post
                    /\ (m_group 1 m = Some (lit "-") \/ m_group 1 m = Some (lit "+") ->
                        ~ free_before pre)
                    /\ (free_before pre ->
                        exists phrase,
                          In phrase (map snd wxCodes)
                          /\ (wx_phrase m = phrase
                              \/ wx_phrase m = lit "in vicinity " ++ phrase))) ms)
  /\ translateMetar (lit "-RA") = Ret (lit "Rain.")
  /\ translateMetar (lit "KJFK 10SM +TSRA BR") = Ret (lit "Visibility 10 statute miles. Rain, mist.")
  /\ translateMetar (lit "+SN VCFG")
     = Ret (lit "Snow, in vicinity fog.")
  /\ translateMetar (lit "10SM-RA") = Ret (lit "Visibility 10 statute miles. Light rain.").
Proof.
  split; [|splits; vm_compute; reflexivity].
  intros s. destruct (wx_matches s) as (ms & Hms & Hfound & Hall).
  exists ms. splits; auto.
  eapply Forall_impl; [|exact Hall].
  intros m (pre & post & Hs & Hst & Hd).
  exists pre, post. splits; auto.
  - intros Hsign Hfree. apply wxRe_group1 in Hd. unfold m_group in Hsign.
    unfold free_before in Hfree.
    destruct Hd as [Hd | [Hd | [_ Hd]]].
    + rewrite Hd in Hsign. destruct Hsign; discriminate.
    + rewrite Hd in Hsign. destruct Hsign; discriminate.
    + congruence.
  - intros Hfree.
    pose proof (wxRe_group3 _ _ Hd) as (w & Hin & Hg3).
    destruct (wx_codes_in_table w Hin) as (phrase & Hl & _).
    exists phrase. split; [eapply lookup_value; eauto|].
    apply wxRe_group1 in Hd. unfold free_before in Hfree.
    unfold wx_phrase, m_group. rewrite Hg3. simpl to_str. rewrite Hl.
    destruct Hd as [Hd | [Hd | [_ Hd]]].
    + rewrite Hd. left. reflexivity.
    + rewrite Hd. right. reflexivity.
    + congruence.
Qed.

(* ------------------------------------------------------------------ *)
(** ** The ceiling and the layers of the translation *)

Lemma parseCeiling_some : forall s ft,
  parseCeiling s = Ret (Some ft) ->
  exists pre tok post, token_at s pre tok post /\ ceiling_layer tok ft.
Proof.
  intros s ft H. destruct (parseCeiling_matches s) as (ms & Hms & Hpc).
  rewrite Hpc in H. inversion H as [Hf]. clear H.
  destruct (layer_matches_tokens s ms Hms) as (Hsound & _).
  destruct (lowest_fold ms) as [(-> & Hn) | (ft' & Hf' & (m & Hin & Hm) & _)].
  - rewrite Hn in Hf. discriminate.
  - rewrite Hf' in Hf. injection Hf as Heq. rewrite Heq in Hm.
    destruct (Hsound m Hin) as (pre & tok & post & Ht & Hc).
    rewrite Hm in Hc. eauto.
Qed.

Lemma parseCeiling_bound : forall s pre tok post ft',
  token_at s pre tok post -> ceiling_layer tok ft' ->
  exists ft, parseCeiling s = Ret (Some ft) /\ (ft <= ft')%Z.
Proof.
  intros s pre tok post ft' Ht Hc. destruct (parseCeiling_matches s) as (ms & Hms & Hpc).
  destruct (layer_matches_tokens s ms Hms) as (_ & Hcover).
  destruct (Hcover pre tok post ft' Ht Hc) as (m & Hin & Hm).
  destruct (lowest_fold ms) as [(-> & _) | (ft & Hf & _ & Hmin)]; [destruct Hin|].
  exists ft. rewrite Hpc, Hf. split; auto. rewrite <- Hm. auto.
Qed.

(** The captures of a match of [skyRe]. *)
Lemma skyRe_groups : forall pre rs y,
  den skyRe (at_pos pre rs) y ->
  exists cov ds suffix post,
    rs = (lit cov ++ ds ++ suffix) ++ post
    /\ In cov sky_covers /\ length ds = 3 /\ forallb is_digit ds = true
    /\ In suffix [[]; lit "CB"; lit "TCU"]
    /\ free_before pre /\ free_after post /\ rest y = post
    /\ lookup_cap 1 (caps y) = Some (lit cov) /\ lookup_cap 2 (caps y) = Some ds
    /\ lookup_cap 3 (caps y) = match suffix with [] => None | _ :: _ => Some suffix end.
Proof.
  intros pre rs y H. unfold skyRe, at_pos in H.
  seq_step H z Hb. destruct Hb as [Hb ->].
  seq_step H z H1. apply (grp_words_inv 1 sky_covers) in H1; [|discriminate].
  destruct H1 as (w & t0 & Hin & -> & ->).
  seq_step H z H2. apply grp_rep_inv in H2.
  destruct H2 as (ds & t1 & -> & Hds & Hlo & Hhi & ->). simpl in Hhi.
  seq_step H z H3. destruct H as [He ->].
  destruct (sky_cover_lit w Hin) as (Hcov & Hstart).
  unfold at_boundary in Hb. cbn [seen rest] in Hb. rewrite Hstart in Hb.
  assert (Hpre : free_before pre).
  { unfold free_before. destruct (head_is_word (rev pre)); auto; discriminate. }
  assert (Dd : digits ds) by (apply (digits_of_len ds 3); auto; lia).
  destruct H3 as [-> | [H3 _]].
  - apply boundary_end_digits in He; auto.
    exists w, ds, [], t1. splits; auto; try lia.
    + rewrite app_nil_r, <- app_assoc. reflexivity.
    + now left.
  - rewrite clear_caps_fresh in H3.
    + apply (grp_words_inv 3 ["CB"; "TCU"]%string) in H3; [|discriminate].
      destruct H3 as (suf & t2 & Hsuf & -> & ->).
      assert (Hs : (lit suf = lit "CB" \/ lit suf = lit "TCU")).
      { destruct Hsuf as [<- | [<- | []]]; auto. }
      assert (He' : head_is_word t2 = false).
      { destruct Hs as [Hs | Hs]; rewrite Hs in He; apply boundary_end in He; auto. }
      exists w, ds, (lit suf), t2. splits; auto; try lia.
      * rewrite <- !app_assoc. reflexivity.
      * destruct Hs as [-> | ->]; simpl; auto.
      * cbn [caps lookup_cap Nat.eqb]. destruct Hs as [-> | ->]; reflexivity.
    + intros p [<- | [<- | []]]; reflexivity.
Qed.

Lemma sky_form_word : forall cov ds suffix,
  In cov sky_covers -> length ds = 3 -> forallb is_digit ds = true ->
  In suffix [[]; lit "CB"; lit "TCU"] ->
  forallb is_word (lit cov ++ ds ++ suffix) = true.
Proof.
  intros cov ds suffix Hcov Hlen Hds Hsuf.
  rewrite !forallb_app. apply andb_true_iff. split; [|apply andb_true_iff; split].
  - unfold sky_covers in Hcov. simpl in Hcov.
    destruct Hcov as [<- | [<- | [<- | [<- | []]]]]; reflexivity.
  - rewrite forallb_forall in *. intros c Hc. apply digit_is_word. auto.
  - simpl in Hsuf. destruct Hsuf as [<- | [<- | [<- | []]]]; reflexivity.
Qed.

Lemma skyRe_separated : separated skyRe.
Proof.
  apply separated_words. intros sn rs y H.
  split.
  - unfold skyRe in H. seq_step H z Hb. now destruct Hb.
  - rewrite <- (rev_involutive sn) in H. apply skyRe_groups in H.
    destruct H as (cov & ds & suffix & post & -> & Hcov & Hlen & Hds & Hsuf & _ & _ & -> & _).
    exists (lit cov ++ ds ++ suffix). split; auto. now apply sky_form_word.
Qed.

Lemma sky_cover_length : forall cov, In cov sky_covers -> length (lit cov) = 3.
Proof.
  intros cov H. unfold sky_covers in H. simpl in H.
  destruct H as [<- | [<- | [<- | [<- | []]]]]; reflexivity.
Qed.

(** The match of [skyRe] that stands on a ceiling layer: its captures
    are the cover and the digits of the layer, without a remark. *)
Lemma sky_match_of_layer : forall pre cov ds post y,
  (cov = lit "BKN" \/ cov = lit "OVC") -> length ds = 3 -> free_after post ->
  den skyRe (at_pos pre ((cov ++ ds) ++ post)) y ->
  lookup_cap 1 (caps y) = Some cov /\ lookup_cap 2 (caps y) = Some ds
  /\ lookup_cap 3 (caps y) = None.
Proof.
  intros pre cov ds post y Hcov Hlen Hpost H.
  apply skyRe_groups in H.
  destruct H as (cov' & ds' & suffix & post' & Heq & Hin & Hlen' & _ & Hsuf & _ & _ & _
                 & C1 & C2 & C3).
  rewrite <- !app_assoc in Heq.
  apply app_eq_length in Heq.
  2:{ rewrite (sky_cover_length cov' Hin). destruct Hcov as [-> | ->]; reflexivity. }
  destruct Heq as [Hc Heq]. apply app_eq_length in Heq; [|congruence].
  destruct Heq as [Hd Heq]. subst ds'. rewrite <- Hc in C1.
  splits; auto. rewrite C3.
  simpl in Hsuf. destruct Hsuf as [<- | [<- | [<- | []]]]; auto;
    subst post; discriminate Hpost.
Qed.

(** X6. The ceiling the classifier works with is one of the layers the
    translation lists, a broken or overcast one without a remark; and
    every broken or overcast layer that the translation lists without a
    remark is at or above the ceiling.  A layer with a cumulonimbus or
    towering cumulus remark is listed by the translation but never
    counts for the ceiling. *)
Theorem ceiling_among_layers :
  (forall s ft,
     parseCeiling s = Ret (Some ft) ->
     exists layers cover,
       metar_layers s = Ret layers
       /\ (cover = lit "broken clouds" \/ cover = lit "overcast")
       /\ In (cover ++ lit " at " ++ toLocaleString ft ++ lit " feet") layers)
  /\ (forall s ms m,
        exec_matches skyRe s = Ret ms -> In m ms ->
        m_group 1 m = Some (lit "BKN") \/ m_group 1 m = Some (lit "OVC") ->
        m_group 3 m = None ->
        exists ft, parseCeiling s = Ret (Some ft)
                   /\ (ft <= parseInt (to_str (m_group 2 m)) * 100)%Z)
  /\ parseCeiling (lit "BKN010CB OVC050TCU") = Ret None
  /\ metar_sky (lit "BKN010CB OVC050TCU")
     = Ret [lit "Broken clouds at 1,000 feet with cumulonimbus, overcast at 5,000 feet with towering cumulus."]
  /\ parseCeiling (lit "OVC008CB BKN030") = Ret (Some 3000%Z).
Proof.
  split; [|split; [|splits; vm_compute; reflexivity]].
  - intros s ft Hpc.
    destruct (parseCeiling_some s ft Hpc) as (pre & tok & post & (Hs & Hb & Ha) & Hc).
    destruct Hc as (cov & ds & n & Hcov & Hds & -> & ->).
    pose proof (three_digits_shape ds n Hds) as (Hlen & Hall).
    destruct (sky_layers s) as (ms & Hms & Hl).
    assert (Hform : sky_form (cov ++ ds)).
    { exists cov, ds, []. rewrite app_nil_r. splits; auto.
      - simpl. destruct Hcov as [-> | ->]; auto.
      - now left. }
    destruct (skyRe_complete pre (cov ++ ds) post Hform Hb Ha) as (y & Hy).
    destruct (exec_matches_cover skyRe s ms eq_refl skyRe_separated Hms
                pre ((cov ++ ds) ++ post) y Hs Hy) as (m & Hin & Hst).
    pose proof (exec_matches_sound skyRe s ms eq_refl Hms) as Hsound.
    rewrite Forall_forall in Hsound.
    destruct (Hsound m Hin) as (pre' & post' & _ & Hst' & Hd).
    rewrite <- Hst', Hst in Hd.
    destruct (sky_match_of_layer pre cov ds post (m_end m) Hcov Hlen Ha Hd)
      as (C1 & C2 & C3).
    exists (map metar_layer ms ++ (if test clearRe s then [lit "sky clear"] else [])).
    exists (if jseqb cov (lit "BKN") then lit "broken clouds" else lit "overcast").
    splits; auto.
    + destruct Hcov as [-> | ->]; auto.
    + apply in_or_app. left. apply in_map_iff. exists m. split; auto.
      unfold metar_layer, m_group. rewrite C1, C2, C3. simpl to_str.
      rewrite (parseInt_three ds n Hds).
      destruct Hcov as [-> | ->]; reflexivity.
  - intros s ms m Hms Hin Hcov Hno.
    pose proof (exec_matches_sound skyRe s ms eq_refl Hms) as Hsound.
    rewrite Forall_forall in Hsound.
    destruct (Hsound m Hin) as (pre & post & Hs & Hst & Hd).
    apply skyRe_groups in Hd.
    destruct Hd as (cov & ds & suffix & post' & -> & Hin' & Hlen & Hds & Hsuf & Hb & Ha & _
                    & C1 & C2 & C3).
    unfold m_group in *. rewrite C1 in Hcov. rewrite C3 in Hno. rewrite C2.
    destruct suffix; [|discriminate]. rewrite app_nil_r in Hs.
    simpl to_str.
    apply (parseCeiling_bound s pre (lit cov ++ ds) post').
    + unfold token_at. splits; auto.
    + exists (lit cov), ds, (parseInt ds). splits; auto.
      * destruct Hcov as [Hc | Hc]; inversion Hc; auto.
      * now apply three_digits_intro.
Qed.

(* ------------------------------------------------------------------ *)
(** ** The category and the height of the ceiling *)

Lemma ceil_lt_lower : forall a b n,
  ceiling_no_higher a b -> ceil_lt b n = true -> ceil_lt a n = true.
Proof.
  intros [x|] [y|] n H Hb; simpl in *; try discriminate; try contradiction.
  apply Z.ltb_lt in Hb. apply Z.ltb_lt. lia.
Qed.

Lemma ceil_le_lower : forall a b n,
  ceiling_no_higher a b -> ceil_le b n = true -> ceil_le a n = true.
Proof.
  intros [x|] [y|] n H Hb; simpl in *; try discriminate; try contradiction.
  apply Z.leb_le in Hb. apply Z.leb_le. lia.
Qed.

Ltac sf_cases :=
  repeat match goal with
  | s : bool |- _ => destruct s
  end;
  simpl in *; try discriminate; try reflexivity;
  repeat match goal with
  | H : context [Z.compare ?x ?y] |- _ =>
      destruct (Z.compare_spec x y); simpl in H; try discriminate
  | |- context [Z.compare ?x ?y] => destruct (Z.compare_spec x y); simpl
  | H : context [Pos.compare_cont Eq ?x ?y] |- _ =>
      change (Pos.compare_cont Eq x y) with (Pos.compare x y) in H;
      destruct (Pos.compare_spec x y); simpl in H; try discriminate
  | |- context [Pos.compare_cont Eq ?x ?y] =>
      change (Pos.compare_cont Eq x y) with (Pos.compare x y);
      destruct (Pos.compare_spec x y); simpl
  end; try reflexivity; try lia.

(** The comparisons of Numbers are transitive (no operand is [NaN] when
    a comparison holds). *)
Lemma num_le_lt_trans : forall a b c,
  num_le a b = true -> num_lt b c = true -> num_lt a c = true.
Proof.
  unfold num_le, num_lt, SFleb, SFltb.
  intros [sa|sa| |sa ma ea] [sb|sb| |sb mb eb] [sc|sc| |sc mc ec] H1 H2;
    simpl in *; try discriminate; try reflexivity; sf_cases.
Qed.

Lemma num_le_le_trans : forall a b c,
  num_le a b = true -> num_le b c = true -> num_le a c = true.
Proof.
  unfold num_le, SFleb.
  intros [sa|sa| |sa ma ea] [sb|sb| |sb mb eb] [sc|sc| |sc mc ec] H1 H2;
    simpl in *; try discriminate; try reflexivity; sf_cases.
Qed.

Lemma vis_lt_lower : forall a b n,
  visibility_no_higher a b -> vis_lt b n = true -> vis_lt a n = true.
Proof.
  intros [x|] [y|] n H Hb; simpl in *; try discriminate; try contradiction.
  eapply num_le_lt_trans; eauto.
Qed.

Lemma vis_le_lower : forall a b n,
  visibility_no_higher a b -> vis_le b n = true -> vis_le a n = true.
Proof.
  intros [x|] [y|] n H Hb; simpl in *; try discriminate; try contradiction.
  eapply num_le_le_trans; eauto.
Qed.

Lemma orb_grows : forall a a' b b' : bool,
  (a = true -> a' = true) -> (b = true -> b' = true) ->
  a || b = true -> a' || b' = true.
Proof.
  intros a a' b b' Ha Hb Hab. apply orb_true_iff in Hab. apply orb_true_iff.
  destruct Hab; auto.
Qed.

(** The flight record of a report, from its two readings. *)
Lemma getFlightCategory_readings : forall s f,
  getFlightCategory s = Ret f ->
  parseCeiling s = Ret (ceilingFt f) /\ visibilitySM f = parseVisibility s
  /\ flight_category f
     = (if ceil_lt (ceilingFt f) 500 || vis_lt (visibilitySM f) 1 then LIFR
        else if ceil_lt (ceilingFt f) 1000 || vis_lt (visibilitySM f) 3 then IFR
        else if ceil_le (ceilingFt f) 3000 || vis_le (visibilitySM f) 5 then MVFR
        else VFR).
Proof.
  intros s f H. unfold getFlightCategory in H.
  destruct (parseCeiling s) as [c| |]; try discriminate. simpl in H.
  destruct (ceil_lt c 500 || vis_lt (parseVisibility s) 1) eqn:E1;
    [inversion H; subst f; simpl; rewrite E1; auto|].
  destruct (ceil_lt c 1000 || vis_lt (parseVisibility s) 3) eqn:E2;
    [inversion H; subst f; simpl; rewrite E1, E2; auto|].
  destruct (ceil_le c 3000 || vis_le (parseVisibility s) 5) eqn:E3;
    inversion H; subst f; simpl; rewrite E1, E2, E3; auto.
Qed.

(** X7. The category never improves when the readings get worse: of two
    reports, the one whose ceiling and visibility are both at most those
    of the other is classified at least as restrictively.  A report
    without a ceiling, or without a visibility, counts as having the
    highest. *)
Theorem category_monotone :
  forall s1 s2 f1 f2,
    getFlightCategory s1 = Ret f1 ->
    getFlightCategory s2 = Ret f2 ->
    ceiling_no_higher (ceilingFt f2) (ceilingFt f1) ->
    visibility_no_higher (visibilitySM f2) (visibilitySM f1) ->
    severity (flight_category f1) <= severity (flight_category f2).
Proof.
  intros s1 s2 f1 f2 H1 H2 Hc Hv.
  apply getFlightCategory_readings in H1. destruct H1 as (_ & _ & ->).
  apply getFlightCategory_readings in H2. destruct H2 as (_ & _ & ->).
  pose proof (orb_grows _ _ _ _ (ceil_lt_lower _ _ 500%Z Hc) (vis_lt_lower _ _ 1%Z Hv))
    as M1.
  pose proof (orb_grows _ _ _ _ (ceil_lt_lower _ _ 1000%Z Hc) (vis_lt_lower _ _ 3%Z Hv))
    as M2.
  pose proof (orb_grows _ _ _ _ (ceil_le_lower _ _ 3000%Z Hc) (vis_le_lower _ _ 5%Z Hv))
    as M3.
  destruct (ceil_lt (ceilingFt f1) 500 || vis_lt (visibilitySM f1) 1).
  { rewrite M1 by reflexivity. simpl. lia. }
  destruct (ceil_lt (ceilingFt f1) 1000 || vis_lt (visibilitySM f1) 3).
  { rewrite M2 by reflexivity.
    destruct (ceil_lt (ceilingFt f2) 500 || vis_lt (visibilitySM f2) 1); simpl; lia. }
  destruct (ceil_le (ceilingFt f1) 3000 || vis_le (visibilitySM f1) 5).
  { rewrite M3 by reflexivity.
    destruct (ceil_lt (ceilingFt f2) 500 || vis_lt (visibilitySM f2) 1);
      [simpl; lia|].
    destruct (ceil_lt (ceilingFt f2) 1000 || vis_lt (visibilitySM f2) 3); simpl; lia. }
  simpl. lia.
Qed.

Lemma three_digits_range : forall ds n, three_digits ds n -> (0 <= n <= 999)%Z.
Proof.
  intros ds n (a & b & c & _ & Ha & Hb & Hc & ->).
  apply digit_val_range in Ha, Hb, Hc. lia.
Qed.

(** X8. A ceiling, when there is one, is a whole number of hundreds of feet
    between 0 and 99,900; in particular it is never negative, and a
    layer written [BKN000] or [OVC000] gives a ceiling of 0 feet. *)
Theorem parseCeiling_range :
  (forall s ft,
     parseCeiling s = Ret (Some ft) ->
     (0 <= ft <= 99900)%Z /\ (ft mod 100 = 0)%Z)
  /\ parseCeiling (lit "OVC000") = Ret (Some 0%Z)
  /\ parseCeiling (lit "BKN999") = Ret (Some 99900%Z).
Proof.
  split; [|split; vm_compute; reflexivity].
  intros s ft H.
  destruct (parseCeiling_some s ft H) as (pre & tok & post & _ & Hc).
  destruct Hc as (cov & ds & n & _ & Hds & _ & ->).
  apply three_digits_range in Hds. split; [lia|].
  apply Z.mod_mul. lia.
Qed.

(* ------------------------------------------------------------------ *)
(** ** The station of a request *)

Lemma test_anchored_station : forall st,
  test_anchored stationRe st = true
  <-> (length st = 3 \/ length st = 4) /\ forallb is_letter st = true.
Proof.
  intros st. unfold test_anchored. split.
  - destruct (rmatch stationRe (MState [] st [])
                (fun y => match rest y with [] => Some y | _ :: _ => None end))
      as [z|] eqn:Hm; try discriminate.
    intros _. apply rmatch_sound in Hm; [|reflexivity].
    destruct Hm as (y & Hd & Hk).
    destruct Hd as (w & t & Hr & Hw & Hlo & Hhi & ->).
    simpl in Hr, Hhi, Hk. destruct t; try discriminate.
    rewrite app_nil_r in Hr. subst w. split; auto. lia.
  - intros (Hlen & Hall).
    destruct (rmatch stationRe (MState [] st [])
                (fun y => match rest y with [] => Some y | _ :: _ => None end))
      as [z|] eqn:Hm; auto.
    exfalso. revert Hm.
    apply (rmatch_complete stationRe (MState [] st []) (MState (rev st ++ []) [] [])).
    + exists st, []. simpl. rewrite app_nil_r. splits; auto; lia.
    + simpl. discriminate.
Qed.

Lemma upper1_letter : forall c, is_letter c = true -> in_range 65 90 (upper1 c) = true.
Proof.
  intros c H. unfold is_letter in H. unfold upper1.
  destruct (in_range 97 122 c) eqn:Hl.
  - unfold in_range in *. apply andb_true_iff in Hl. destruct Hl as [H1 H2].
    apply N.leb_le in H1. apply N.leb_le in H2.
    apply andb_true_iff. split; apply N.leb_le; lia.
  - simpl in H. exact H.
Qed.

Lemma upper1_capital : forall c, in_range 65 90 c = true -> upper1 c = c.
Proof.
  intros c H. unfold upper1.
  destruct (in_range 97 122 c) eqn:Hl; auto.
  unfold in_range in *. apply andb_true_iff in Hl. apply andb_true_iff in H.
  destruct Hl as [H1 _]. destruct H as [_ H2].
  apply N.leb_le in H1. apply N.leb_le in H2. lia.
Qed.

Lemma toUpperCase_letters : forall st,
  forallb is_letter st = true ->
  forallb (in_range 65 90) (toUpperCase st) = true
  /\ toUpperCase (toUpperCase st) = toUpperCase st.
Proof.
  unfold toUpperCase. induction st as [|c st IH]; intros H; simpl in *; auto.
  apply andb_true_iff in H. destruct H as [Hc H].
  destruct (IH H) as (I1 & I3).
  pose proof (upper1_letter c Hc) as Hu.
  rewrite Hu, I1, I3, (upper1_capital _ Hu). auto.
Qed.

Lemma capitals_are_letters : forall u,
  forallb (in_range 65 90) u = true -> forallb is_letter u = true.
Proof.
  induction u as [|c u IH]; intros H; simpl in *; auto.
  apply andb_true_iff in H. destruct H as [Hc H].
  rewrite (IH H). unfold is_letter. rewrite Hc. simpl. now rewrite orb_true_r.
Qed.

(** X9. The handler lets a request through exactly when the station
    parameter is a string of three or four ASCII letters, and answers
    400 with the fixed message in every other case: no parameter, the
    empty string, a string of another length, a string with any other
    character.  The station it goes on with is the parameter in upper
    case: three or four of the letters [A] to [Z] and nothing else,
    itself a station the check lets through unchanged. *)
Theorem station_check :
  forall station,
    (forall u,
       upperStation station = inr u
       <-> exists st, station = Some st /\ (length st = 3 \/ length st = 4)
                      /\ forallb is_letter st = true /\ u = toUpperCase st)
    /\ (forall u,
          upperStation station = inr u ->
          (length u = 3 \/ length u = 4)
          /\ forallb (in_range 65 90) u = true
          /\ upperStation (Some u) = inr u)
    /\ ((exists u, upperStation station = inr u)
        \/ upperStation station
           = inl (400%Z, lit "Invalid station. Must be 3–4 letters only (e.g. KORD)."))
    /\ upperStation None <> upperStation (Some (lit "kord"))
    /\ upperStation (Some (lit "kord")) = inr (lit "KORD")
    /\ upperStation (Some (lit "Jfk")) = inr (lit "JFK")
    /\ (forall u, upperStation (Some (lit "k0rd")) <> inr u)
    /\ (forall u, upperStation (Some (lit "ko")) <> inr u)
    /\ (forall u, upperStation (Some (lit "kordx")) <> inr u)
    /\ (forall u, upperStation (Some (lit "ord&ids=kjfk")) <> inr u).
Proof.
  intros station.
  assert (Hiff : forall st u,
            upperStation (Some st) = inr u
            <-> (length st = 3 \/ length st = 4)
                /\ forallb is_letter st = true /\ u = toUpperCase st).
  { intros st u. unfold upperStation. destruct st as [|c st].
    - split; [discriminate|]. intros ([H | H] & _); discriminate.
    - destruct (test_anchored stationRe (c :: st)) eqn:Ht.
      + apply test_anchored_station in Ht. destruct Ht as [Hlen Hall].
        split.
        * intros H. inversion H. auto.
        * intros (_ & _ & ->). reflexivity.
      + split; [discriminate|]. intros (Hlen & Hall & _).
        assert (Htrue : test_anchored stationRe (c :: st) = true)
          by (apply test_anchored_station; auto).
        congruence. }
  splits; try (vm_compute; reflexivity); try (intros u; vm_compute; discriminate).
  - intros u. destruct station as [st|].
    + rewrite Hiff. split.
      * intros (H1 & H2 & H3). exists st. auto.
      * intros (st' & Hs & H1 & H2 & H3). inversion Hs; subst st'. auto.
    + split; [discriminate|]. intros (st & Hs & _). discriminate.
  - intros u Hu. destruct station as [st|]; [|discriminate].
    apply Hiff in Hu. destruct Hu as (Hlen & Hall & ->).
    destruct (toUpperCase_letters st Hall) as (U1 & U3).
    assert (Hl : length (toUpperCase st) = length st) by apply length_map.
    splits; auto.
    + rewrite Hl. exact Hlen.
    + apply Hiff. rewrite Hl. splits; auto. now apply capitals_are_letters.
  - unfold upperStation. destruct station as [[|c st]|]; auto.
    destruct (test_anchored stationRe (c :: st)); eauto.
Qed.

(* ------------------------------------------------------------------ *)
(** ** The recent searches of the client *)

Lemma jseqb_iff : forall a b, jseqb a b = true <-> a = b.
Proof.
  intros a b. split; [apply jseqb_true | intros ->; apply jseqb_refl].
Qed.

Lemma firstn_In : forall (A : Type) n (l : list A) x, In x (firstn n l) -> In x l.
Proof.
  intros A n. induction n as [|n IH]; intros l x H; simpl in H; [contradiction|].
  destruct l as [|y l]; [contradiction|].
  destruct H as [<- | H]; [now left | right; auto].
Qed.

Lemma NoDup_firstn : forall (A : Type) n (l : list A), NoDup l -> NoDup (firstn n l).
Proof.
  intros A n. induction n as [|n IH]; intros l H; simpl; [constructor|].
  destruct l as [|x l]; [constructor|].
  inversion H; subst. constructor; auto.
  intros Hin. apply firstn_In in Hin. contradiction.
Qed.

Lemma filter_all : forall (A : Type) (f : A -> bool) l,
  (forall x, In x l -> f x = true) -> filter f l = l.
Proof.
  intros A f l. induction l as [|x l IH]; intros H; simpl; auto.
  rewrite (H x) by now left. f_equal. apply IH. intros y Hy. apply H. now right.
Qed.

Lemma addToRecent_cons : forall recent code,
  addToRecent recent code
  = code :: firstn 5 (filter (fun s => negb (jseqb s code)) recent).
Proof. reflexivity. Qed.

Lemma recent_rest_other : forall recent code s,
  In s (firstn 5 (filter (fun s => negb (jseqb s code)) recent)) ->
  In s recent /\ s <> code.
Proof.
  intros recent code s H. apply firstn_In in H. apply filter_In in H.
  destruct H as [Hin Hs]. split; auto.
  intros ->. rewrite jseqb_refl in Hs. discriminate.
Qed.

(** X10. The list of recent searches after a search: the code just searched
    comes first and occurs once, whatever the list held; the list never
    grows beyond [MAX_RECENT] entries and holds nothing but the new code
    and earlier entries, in their earlier order; it has no duplicates
    when the earlier list had none; no earlier entry is dropped while
    there is room; and searching the same code again changes nothing. *)
Theorem addToRecent_invariants :
  forall recent code,
    hd_error (addToRecent recent code) = Some code
    /\ length (addToRecent recent code) <= MAX_RECENT
    /\ count_occ (list_eq_dec N.eq_dec) (addToRecent recent code) code = 1
    /\ (forall s, In s (addToRecent recent code) -> s = code \/ In s recent)
    /\ (exists kept,
          addToRecent recent code = code :: kept
          /\ kept = firstn 5 (filter (fun s => negb (jseqb s code)) recent))
    /\ (NoDup recent -> NoDup (addToRecent recent code))
    /\ (length recent < MAX_RECENT ->
        forall s, In s recent -> In s (addToRecent recent code))
    /\ addToRecent (addToRecent recent code) code = addToRecent recent code.
Proof.
  intros recent code. rewrite addToRecent_cons. splits.
  - reflexivity.
  - pose proof (firstn_le_length 5 (filter (fun s => negb (jseqb s code)) recent)).
    cbn [length]. unfold MAX_RECENT. lia.
  - cbn [count_occ]. destruct (list_eq_dec N.eq_dec code code) as [_|Hne]; [|contradiction].
    f_equal. apply count_occ_not_In. intros Hin.
    apply recent_rest_other in Hin. destruct Hin as [_ Hne]. contradiction.
  - intros s [<- | Hin]; auto. right. now apply recent_rest_other in Hin.
  - eexists. split; reflexivity.
  - intros Hnd. constructor.
    + intros Hin. apply recent_rest_other in Hin. destruct Hin as [_ Hne]. contradiction.
    + apply NoDup_firstn. now apply NoDup_filter.
  - intros Hlen s Hin.
    destruct (jseqb s code) eqn:Hs.
    + apply jseqb_true in Hs. subst s. now left.
    + right. rewrite firstn_all2.
      * apply filter_In. split; auto. now rewrite Hs.
      * pose proof (filter_length_le (fun s => negb (jseqb s code)) recent).
        unfold MAX_RECENT in Hlen. lia.
  - rewrite addToRecent_cons. f_equal. cbn [filter]. rewrite jseqb_refl. cbn [negb].
    rewrite filter_all.
    + rewrite firstn_firstn. reflexivity.
    + intros s Hin. apply recent_rest_other in Hin. destruct Hin as [_ Hne].
      destruct (jseqb s code) eqn:Hs; auto. apply jseqb_true in Hs. contradiction.
Qed.

(* ------------------------------------------------------------------ *)
(** ** A visibility in whole miles *)

(** A whole number below 1000 has no fractional part, prints as its
    decimal text, and equals 1 only when it is 1. *)
Lemma whole_number_text : forall n,
  (0 <= n < 1000)%Z ->
  num_eq (num_rem1 (of_Z n)) (of_Z 0) = true
  /\ Number_toString (of_Z n) = Z_to_js n
  /\ num_eq (of_Z n) (of_Z 1) = (n =? 1)%Z.
Proof.
  intros n Hn.
  pose proof (forallb_upto
                (fun n => num_eq (num_rem1 (of_Z n)) (of_Z 0)
                          && jseqb (Number_toString (of_Z n)) (Z_to_js n)
                          && Bool.eqb (num_eq (of_Z n) (of_Z 1)) (n =? 1)%Z)
                1000%Z) as H.
  cbv beta in H. specialize (H ltac:(vm_compute; reflexivity) n Hn).
  apply andb_true_iff in H. destruct H as [H H3].
  apply andb_true_iff in H. destruct H as [H1 H2].
  splits; auto.
  - now apply jseqb_true.
  - now apply Bool.eqb_prop.
Qed.

Lemma parseInt_upto_three : forall w,
  forallb is_digit w = true -> length w <= 3 -> (0 <= parseInt w < 1000)%Z.
Proof.
  intros [|a [|b [|c [|d w]]]] Hall Hlen; simpl in Hlen; try lia;
    simpl in Hall; unfold parseInt; cbn [fold_left].
  - lia.
  - apply andb_true_iff in Hall. destruct Hall as [Ha _].
    apply digit_val_range in Ha. lia.
  - apply andb_true_iff in Hall. destruct Hall as [Ha Hall].
    apply andb_true_iff in Hall. destruct Hall as [Hb _].
    apply digit_val_range in Ha, Hb. lia.
  - apply andb_true_iff in Hall. destruct Hall as [Ha Hall].
    apply andb_true_iff in Hall. destruct Hall as [Hb Hall].
    apply andb_true_iff in Hall. destruct Hall as [Hc _].
    apply digit_val_range in Ha, Hb, Hc. lia.
Qed.

Lemma whole_visibility : forall s n,
  parseVisibility s = Some (of_Z n) -> (0 <= n < 1000)%Z ->
  visibility_sentence s = [whole_visibility_sentence n].
Proof.
  intros s n Hv Hn. destruct (whole_number_text n Hn) as (H1 & H2 & H3).
  unfold visibility_sentence, whole_visibility_sentence.
  rewrite Hv, H1, H2, H3. reflexivity.
Qed.

(** X11. A visibility in whole miles is rendered as the number the digits
    denote, without leading zeros, followed by "statute miles", and by
    "statute mile" for exactly one mile; zero miles, which is also what
    the less-than form [M1/4SM] gives, are "0 statute miles".  (For
    visibilities of up to three digits.) *)
Theorem whole_visibility_rendering :
  (forall s n,
     parseVisibility s = Some (of_Z n) -> (0 <= n < 1000)%Z ->
     visibility_sentence s = [whole_visibility_sentence n])
  /\ (forall s, has_less s -> visibility_sentence s = [lit "Visibility 0 statute miles."])
  /\ (forall s,
        ~ has_less s -> ~ has_mixed s -> ~ has_frac s -> has_whole s ->
        exists pre tok post w,
          first_token (fun tok => exists w, whole_form w tok) s pre tok post
          /\ whole_form w tok
          /\ (length w <= 3 ->
              visibility_sentence s = [whole_visibility_sentence (parseInt w)]))
  /\ visibility_sentence (lit "1SM") = [lit "Visibility 1 statute mile."]
  /\ visibility_sentence (lit "001SM") = [lit "Visibility 1 statute mile."]
  /\ visibility_sentence (lit "0SM") = [lit "Visibility 0 statute miles."]
  /\ visibility_sentence (lit "10SM") = [lit "Visibility 10 statute miles."].
Proof.
  split; [|split; [|split; [|splits; vm_compute; reflexivity]]].
  - apply whole_visibility.
  - intros s H. apply (whole_visibility s 0%Z); [|lia].
    unfold parseVisibility. apply lessRe_tokens in H. now rewrite H.
  - intros s Hl Hm Hf Hw.
    assert (Hv : forall m, exec wholeRe s = Some m ->
                 parseVisibility s = Some (parseNum (m_group 1 m))).
    { intros m He. unfold parseVisibility. rewrite (lessRe_false s Hl).
      apply mixedRe_none in Hm. apply fracRe_none in Hf. now rewrite Hm, Hf, He. }
    destruct (exec wholeRe s) as [m|] eqn:He.
    + destruct (wholeRe_first s m He) as (pre & tok & post & w & Hfirst & Hform & Hg).
      exists pre, tok, post, w. splits; auto.
      intros Hlen. apply whole_visibility.
      * rewrite (Hv m eq_refl). unfold parseNum. now rewrite Hg.
      * destruct Hform as [[_ Hd] _]. now apply parseInt_upto_three.
    + apply wholeRe_none in He. contradiction.
Qed.

(* ------------------------------------------------------------------ *)
(** ** The layers of the sky sentence *)

Lemma sky_cover_phrase : forall cov,
  In cov sky_covers -> exists phrase, lookup SKY_COVER (lit cov) = Some phrase.
Proof.
  intros cov H. unfold sky_covers in H. simpl in H.
  destruct H as [<- | [<- | [<- | [<- | []]]]]; eexists; vm_compute; reflexivity.
Qed.

(** What the translation says of the layer a match of [skyRe] stands
    on. *)
Lemma sky_match_text : forall pre rs m,
  den skyRe (at_pos pre rs) (m_end m) ->
  exists cov ds suffix post phrase,
    rs = (lit cov ++ ds ++ suffix) ++ post
    /\ free_before pre /\ free_after post
    /\ In cov sky_covers
    /\ length ds = 3 /\ forallb is_digit ds = true
    /\ In suffix [[]; lit "CB"; lit "TCU"]
    /\ lookup SKY_COVER (lit cov) = Some phrase
    /\ metar_layer m
       = phrase ++ lit " at " ++ toLocaleString (parseInt ds * 100)
         ++ lit " feet" ++ layer_remark suffix.
Proof.
  intros pre rs m Hd. apply skyRe_groups in Hd.
  destruct Hd as (cov & ds & suffix & post & -> & Hcov & Hlen & Hds & Hsuf & Hb & Ha & _
                  & C1 & C2 & C3).
  destruct (sky_cover_phrase cov Hcov) as (phrase & Hp).
  exists cov, ds, suffix, post, phrase. splits; auto.
  unfold metar_layer, m_group. rewrite C1, C2, C3. simpl to_str. rewrite Hp.
  simpl in Hsuf. destruct Hsuf as [<- | [<- | [<- | []]]]; reflexivity.
Qed.

(** X12. The METAR translation lists every sky layer of the report, once and
    in the order of the report: each layer it lists stands on a token
    made of a cover, three digits and possibly [CB] or [TCU], and reads
    as the phrase of the cover, the height in feet (the digits times
    100, with a comma between the thousands and the hundreds) and the
    remark; and every such token of the report is listed. *)
Theorem metar_lists_every_layer :
  forall s,
  exists ms,
    exec_matches skyRe s = Ret ms
    /\ metar_layers s
       = Ret (map metar_layer ms ++ (if test clearRe s then [lit "sky clear"] else []))
    /\ Forall (fun m =>
                 exists pre cov ds suffix post phrase,
                   token_at s pre (lit cov ++ ds ++ suffix) post
                   /\ m_start m = at_pos pre ((lit cov ++ ds ++ suffix) ++ post)
                   /\ In cov sky_covers
                   /\ length ds = 3 /\ forallb is_digit ds = true
                   /\ In suffix [[]; lit "CB"; lit "TCU"]
                   /\ lookup SKY_COVER (lit cov) = Some phrase
                   /\ metar_layer m
                      = phrase ++ lit " at " ++ toLocaleString (parseInt ds * 100)
                        ++ lit " feet" ++ layer_remark suffix) ms
    /\ (forall pre tok post,
          token_at s pre tok post -> sky_form tok ->
          exists m, In m ms /\ m_start m = at_pos pre (tok ++ post))
    /\ StronglySorted
         (fun m m' => length (seen (m_start m)) < length (seen (m_start m'))) ms.
Proof.
  intros s. destruct (sky_layers s) as (ms & Hms & Hl).
  exists ms. splits; auto.
  - pose proof (exec_matches_sound skyRe s ms eq_refl Hms) as Hs.
    eapply Forall_impl; [|exact Hs].
    intros m (pre & post & Hsplit & Hst & Hd).
    destruct (sky_match_text pre post m Hd)
      as (cov & ds & suffix & post' & phrase & -> & Hb & Ha & Hcov & Hlen & Hds & Hsuf
          & Hp & Ht).
    exists pre, cov, ds, suffix, post', phrase. unfold token_at. splits; auto.
  - intros pre tok post (Hs & Hb & Ha) Hform.
    destruct (skyRe_complete pre tok post Hform Hb Ha) as (y & Hy).
    exact (exec_matches_cover skyRe s ms eq_refl skyRe_separated Hms
             pre (tok ++ post) y Hs Hy).
  - apply (matches_from_sorted skyRe (length s) [] s ms); auto.
Qed.

(* ------------------------------------------------------------------ *)
(** ** The fixed answers are not sentences of a translation *)

Ltac plain_tac :=
  unfold plain_sentence; lit_compute; simpl; splits; [lia | discriminate | discriminate].

Lemma firstn3_app : forall (p q : jsstring),
  3 <= length p -> firstn 3 (p ++ q) = firstn 3 p.
Proof.
  intros p q H. rewrite firstn_app.
  replace (3 - length p) with 0 by lia. simpl. apply app_nil_r.
Qed.

Lemma finish_head : forall p ps fallback,
  plain_sentence p -> firstn 3 (finish (p :: ps) fallback) = firstn 3 p.
Proof.
  intros p ps fallback (Hlen & _). unfold finish.
  destruct ps as [|q ps]; [reflexivity|].
  change (join (lit " ") (p :: q :: ps)) with (p ++ lit " " ++ join (lit " ") (q :: ps)).
  now apply firstn3_app.
Qed.

Lemma plain_single : forall p, plain_sentence p -> Forall plain_sentence [p].
Proof. intros p H. constructor; [exact H | constructor]. Qed.

Lemma wind_plain : forall s,
  Forall plain_sentence (metar_wind s) /\ Forall plain_sentence (taf_wind s).
Proof.
  intros s. unfold metar_wind, taf_wind.
  destruct (exec windRe s) as [m|]; [|split; constructor].
  split; apply plain_single;
    destruct (parseInt (to_str (m_group 2 m)) =? 0)%Z; plain_tac.
Qed.

Lemma visibility_plain : forall s, Forall plain_sentence (visibility_sentence s).
Proof.
  intros s. unfold visibility_sentence.
  destruct (parseVisibility s); [apply plain_single | constructor]. plain_tac.
Qed.

Lemma simple_blocks_plain : forall s,
  Forall plain_sentence (metar_temperature s)
  /\ Forall plain_sentence (metar_altimeter s)
  /\ Forall plain_sentence (taf_period s)
  /\ Forall plain_sentence (taf_changes s).
Proof.
  intros s. unfold metar_temperature, metar_altimeter, taf_period, taf_changes.
  splits.
  - destruct (exec tempRe s); [apply plain_single | constructor]. plain_tac.
  - destruct (exec altRe s); [apply plain_single | constructor]. plain_tac.
  - destruct (exec periodRe s); [apply plain_single | constructor]. plain_tac.
  - destruct (match_all changeRe s); [constructor | apply plain_single]. plain_tac.
Qed.

Lemma head_plain : forall a b c t more,
  [a; b; c] <> lit "Una" -> [a; b; c] <> lit "No " ->
  plain_sentence ((a :: b :: c :: t) ++ more).
Proof.
  intros a b c t more H1 H2. unfold plain_sentence. simpl. splits; auto. lia.
Qed.

Lemma capitalize_app : forall p first tail,
  capitalize p = Ret first -> capitalize (p ++ tail) = Ret (first ++ tail).
Proof.
  intros [|c p] first tail H; simpl in *; [discriminate|].
  inversion H. reflexivity.
Qed.

(** The first three characters of every phrase of the tables once it is
    capitalised, after any of the intensity prefixes. *)
Lemma capitalized_heads : forall prefix phrase,
  In prefix [[]; lit "light "; lit "heavy "; lit "in vicinity "] ->
  In phrase (map snd wxCodes ++ map snd SKY_COVER) ->
  exists a b c t,
    capitalize (prefix ++ phrase) = Ret (a :: b :: c :: t)
    /\ [a; b; c] <> lit "Una" /\ [a; b; c] <> lit "No ".
Proof.
  intros prefix phrase Hp Hph.
  assert (Hall : forallb
            (fun pp => match capitalize (fst pp ++ snd pp) with
                       | Ret (a :: b :: c :: _) =>
                           negb (jseqb [a; b; c] (lit "Una"))
                           && negb (jseqb [a; b; c] (lit "No "))
                       | _ => false
                       end)
            (list_prod [[]; lit "light "; lit "heavy "; lit "in vicinity "]
                       (map snd wxCodes ++ map snd SKY_COVER)) = true)
    by (vm_compute; reflexivity).
  rewrite forallb_forall in Hall.
  specialize (Hall (prefix, phrase) (in_prod _ _ _ _ Hp Hph)). cbn [fst snd] in Hall.
  destruct (capitalize (prefix ++ phrase)) as [[|a [|b [|c t]]]| |]; try discriminate.
  apply andb_true_iff in Hall. destruct Hall as [H1 H2].
  exists a, b, c, t. splits; auto.
  - intros E. rewrite E, jseqb_refl in H1. discriminate.
  - intros E. rewrite E, jseqb_refl in H2. discriminate.
Qed.

Lemma wx_sentence_plain : forall prefix phrase ws,
  In prefix [[]; lit "light "; lit "heavy "; lit "in vicinity "] ->
  In phrase (map snd wxCodes) ->
  exists first,
    capitalize (prefix ++ phrase) = Ret first
    /\ plain_sentence (join (lit ", ") (first :: ws) ++ lit ".").
Proof.
  intros prefix phrase ws Hp Hph.
  destruct (capitalized_heads prefix phrase Hp) as (a & b & c & t & Hc & H1 & H2).
  { apply in_or_app. now left. }
  exists (a :: b :: c :: t). split; auto.
  destruct ws as [|w ws].
  - now apply head_plain.
  - change (join (lit ", ") ((a :: b :: c :: t) :: w :: ws))
      with ((a :: b :: c :: t) ++ lit ", " ++ join (lit ", ") (w :: ws)).
    rewrite <- app_assoc. now apply head_plain.
Qed.

Lemma weather_plain : forall s ws,
  metar_weather s = Ret ws -> Forall plain_sentence ws.
Proof.
  intros s ws H. destruct (wx_phrases_table s) as (ms & _ & Hf & Hall).
  unfold metar_weather in H. rewrite Hf in H. simpl in H.
  destruct ms as [|m ms]; simpl in H; [inversion H; constructor|].
  inversion Hall as [|? ? Hm _]; subst.
  destruct Hm as (code & phrase & prefix & _ & Hl & _ & Hp & Hw).
  apply lookup_value in Hl.
  destruct (wx_sentence_plain prefix phrase (map wx_phrase ms) Hp Hl) as (first & Hc & Hs).
  rewrite Hw, Hc in H. simpl in H. inversion H. apply plain_single. exact Hs.
Qed.

Lemma layer_sentence_plain : forall phrase tail more,
  In phrase (map snd SKY_COVER) ->
  exists first,
    capitalize (phrase ++ tail) = Ret first /\ plain_sentence (first ++ more).
Proof.
  intros phrase tail more H.
  destruct (capitalized_heads [] phrase) as (a & b & c & t & Hc & H1 & H2).
  { now left. }
  { apply in_or_app. now right. }
  exists ((a :: b :: c :: t) ++ tail). split.
  - now apply capitalize_app.
  - rewrite <- app_assoc. now apply head_plain.
Qed.

Lemma layer_plain : forall pre rs m more,
  den skyRe (at_pos pre rs) (m_end m) ->
  exists first,
    capitalize (metar_layer m) = Ret first /\ plain_sentence (first ++ more).
Proof.
  intros pre rs m more Hd.
  destruct (sky_match_text pre rs m Hd)
    as (cov & ds & suffix & post & phrase & _ & _ & _ & _ & _ & _ & _ & Hp & ->).
  apply layer_sentence_plain. eapply lookup_value; eauto.
Qed.

Lemma sky_plain : forall s ws, metar_sky s = Ret ws -> Forall plain_sentence ws.
Proof.
  intros s ws H. destruct (sky_layers s) as (ms & Hms & Hl).
  unfold metar_sky in H. rewrite Hl in H. simpl in H.
  destruct ms as [|m ms].
  - simpl in H. destruct (test clearRe s); simpl in H; inversion H;
      [apply plain_single; plain_tac | constructor].
  - pose proof (exec_matches_sound skyRe s (m :: ms) eq_refl Hms) as Hs.
    inversion Hs as [|? ? Hm _]; subst.
    destruct Hm as (pre & post & _ & _ & Hd).
    cbn [map app] in H.
    set (more := map metar_layer ms
                 ++ (if test clearRe s then [lit "sky clear"] else [])) in *.
    destruct (layer_plain pre post m
                ((if Nat.ltb 1 (length (metar_layer m :: more))
                  then lit ", " ++ join (lit ", ") more else []) ++ lit ".") Hd)
      as (first & Hc & Hp).
    rewrite Hc in H. simpl bind in H. inversion H. apply plain_single. exact Hp.
Qed.

Lemma taf_sky_plain : forall s ws, taf_sky s = Ret ws -> Forall plain_sentence ws.
Proof.
  intros s ws H. unfold taf_sky in H.
  destruct (exec skyRe s) as [m|] eqn:He.
  - apply exec_sound in He; [|reflexivity].
    destruct He as (pre & post & _ & Hst & Hd & _).
    destruct (layer_plain pre post m (lit ".") Hd) as (first & Hc & Hp).
    change (taf_layer m) with (metar_layer m) in H.
    rewrite Hc in H. simpl in H. inversion H. apply plain_single. exact Hp.
  - destruct (test tafClearRe s); inversion H; [apply plain_single; plain_tac | constructor].
Qed.

Lemma metar_parts_plain : forall s parts,
  metar_parts s = Ret parts -> Forall plain_sentence parts.
Proof.
  intros s parts H. destruct (metar_parts_shape s) as (wx & sky & Hwx & Hsky & Hp).
  rewrite Hp in H. inversion H.
  destruct (wind_plain s) as (Hw & _).
  destruct (simple_blocks_plain s) as (Ht & Ha & _ & _).
  repeat (apply Forall_app; split); auto using visibility_plain.
  - eapply weather_plain; eauto.
  - eapply sky_plain; eauto.
Qed.

Lemma taf_parts_plain : forall s parts,
  taf_parts s = Ret parts -> Forall plain_sentence parts.
Proof.
  intros s parts H. destruct (taf_parts_shape s) as (sky & Hsky & Hp).
  rewrite Hp in H. inversion H.
  destruct (wind_plain s) as (_ & Hw).
  destruct (simple_blocks_plain s) as (_ & _ & Hper & Hch).
  repeat (apply Forall_app; split); auto using visibility_plain.
  eapply taf_sky_plain; eauto.
Qed.

Lemma translateTaf_missing : forall s,
  translateTaf s = Ret (lit "No TAF available.") <-> forallb is_space s = true.
Proof.
  intros s. unfold translateTaf. rewrite taf_missing_blank.
  destruct (forallb is_space s) eqn:Hs; [split; auto|].
  split; [|discriminate]. intros H.
  destruct (taf_parts_total s) as (parts & Hp & _ & _).
  rewrite Hp in H. simpl in H. inversion H as [Hout].
  destruct parts as [|p ps]; [discriminate Hout|].
  exfalso.
  pose proof (taf_parts_plain s _ Hp) as Hall. inversion Hall as [|? ? Hpl _]; subst.
  pose proof (finish_head p ps (lit "Unable to translate TAF.") Hpl) as Hh.
  rewrite Hout in Hh. destruct Hpl as (_ & _ & Hno). apply Hno. rewrite <- Hh. reflexivity.
Qed.

(** X13. The three fixed answers tell what happened: the METAR translation
    is ["Unable to translate METAR."] exactly when no group was found in
    the report, the TAF translation is ["No TAF available."] exactly
    when the report is empty or blank, and ["Unable to translate TAF."]
    exactly when the report is not blank and no group was found in it.
    No sequence of translated sentences reads as one of them. *)
Theorem fallbacks_exactly :
  (forall s, translateMetar s = Ret (lit "Unable to translate METAR.") <-> metar_nothing s)
  /\ (forall s, translateTaf s = Ret (lit "No TAF available.")
                <-> forallb is_space s = true)
  /\ (forall s, translateTaf s = Ret (lit "Unable to translate TAF.")
                <-> forallb is_space s = false /\ taf_nothing s).
Proof.
  assert (Hfin : forall parts fallback out,
            Forall plain_sentence parts -> parts <> [] ->
            finish parts fallback = out ->
            firstn 3 out <> lit "Una" /\ firstn 3 out <> lit "No ").
  { intros [|p ps] fallback out Hall Hne <-; [contradiction|].
    inversion Hall as [|? ? Hp _]; subst.
    rewrite (finish_head p ps fallback Hp). destruct Hp as (_ & H1 & H2). auto. }
  splits.
  - intros s. split.
    + intros H. destruct (metar_parts_total s) as (parts & Hp & _ & _).
      unfold translateMetar in H. rewrite Hp in H. simpl in H. inversion H as [Hout].
      destruct parts as [|p ps]; [now apply metar_parts_empty|].
      exfalso.
      destruct (Hfin (p :: ps) _ _ (metar_parts_plain s _ Hp) ltac:(discriminate) Hout)
        as [Hbad _].
      apply Hbad. reflexivity.
    + intros H. destruct (metar_parts_total s) as (parts & Hp & _ & He).
      unfold translateMetar. rewrite Hp, (He H). reflexivity.
  - apply translateTaf_missing.
  - intros s. unfold translateTaf. rewrite taf_missing_blank.
    destruct (forallb is_space s).
    { split; [discriminate | intros [H _]; discriminate]. }
    destruct (taf_parts_total s) as (parts & Hp & _ & He).
    rewrite Hp. simpl. split.
    + intros H. inversion H as [Hout]. split; auto.
      destruct parts as [|p ps]; [now apply taf_parts_empty|].
      exfalso.
      destruct (Hfin (p :: ps) _ _ (taf_parts_plain s _ Hp) ltac:(discriminate) Hout)
        as [Hbad _].
      apply Hbad. reflexivity.
    + intros [_ H]. rewrite (He H). reflexivity.
Qed.

(* ------------------------------------------------------------------ *)
(** ** A visibility with a fraction *)

Lemma in_upto : forall n z,
  (0 <= z < n)%Z -> In z (map Z.of_nat (List.seq 0 (Z.to_nat n))).
Proof.
  intros n z Hz. apply in_map_iff. exists (Z.to_nat z). split; [apply Z2Nat.id; lia|].
  apply in_seq. lia.
Qed.

(** The text and the number of the sentence, for every fraction with a
    numerator and a denominator below 40. *)
Lemma fraction_text : forall n d,
  (0 <= n < 40)%Z -> (1 <= d < 40)%Z ->
  lit "Visibility "
  ++ (if num_eq (num_rem1 (num_div (of_Z n) (of_Z d))) (of_Z 0)
      then Number_toString (num_div (of_Z n) (of_Z d))
      else toFixed2 (num_div (of_Z n) (of_Z d)))
  ++ lit " statute mile"
  ++ (if num_eq (num_div (of_Z n) (of_Z d)) (of_Z 1) then [] else lit "s") ++ lit "."
  = fraction_visibility_sentence n d.
Proof.
  intros n d Hn Hd. apply jseqb_true.
  assert (Hall : forallb
            (fun nd =>
               (snd nd =? 0)%Z
               || jseqb
                    (lit "Visibility "
                     ++ (if num_eq (num_rem1 (num_div (of_Z (fst nd)) (of_Z (snd nd))))
                                   (of_Z 0)
                         then Number_toString (num_div (of_Z (fst nd)) (of_Z (snd nd)))
                         else toFixed2 (num_div (of_Z (fst nd)) (of_Z (snd nd))))
                     ++ lit " statute mile"
                     ++ (if num_eq (num_div (of_Z (fst nd)) (of_Z (snd nd))) (of_Z 1)
                         then [] else lit "s")
                     ++ lit ".")
                    (fraction_visibility_sentence (fst nd) (snd nd)))
            (list_prod (map Z.of_nat (List.seq 0 (Z.to_nat 40)))
                       (map Z.of_nat (List.seq 0 (Z.to_nat 40)))) = true)
    by (vm_compute; reflexivity).
  rewrite forallb_forall in Hall.
  specialize (Hall (n, d)). cbn [fst snd] in Hall.
  destruct (Z.eqb_spec d 0) as [Hz | _]; [lia|].
  apply Hall. apply in_prod; apply in_upto; lia.
Qed.

(** The same for a whole number below 20 and a number of halves,
    quarters, eighths or sixteenths. *)
Lemma mixed_text : forall w n d,
  (0 <= w < 20)%Z -> (0 <= n < 16)%Z -> In d [2; 4; 8; 16]%Z ->
  lit "Visibility "
  ++ (if num_eq (num_rem1 (num_add (of_Z w) (num_div (of_Z n) (of_Z d)))) (of_Z 0)
      then Number_toString (num_add (of_Z w) (num_div (of_Z n) (of_Z d)))
      else toFixed2 (num_add (of_Z w) (num_div (of_Z n) (of_Z d))))
  ++ lit " statute mile"
  ++ (if num_eq (num_add (of_Z w) (num_div (of_Z n) (of_Z d))) (of_Z 1)
      then [] else lit "s")
  ++ lit "."
  = fraction_visibility_sentence (w * d + n) d.
Proof.
  intros w n d Hw Hn Hd. apply jseqb_true.
  assert (Hall : forallb
            (fun x =>
               jseqb
                 (lit "Visibility "
                  ++ (if num_eq (num_rem1 (num_add (of_Z (fst x))
                                             (num_div (of_Z (fst (snd x)))
                                                      (of_Z (snd (snd x))))))
                                (of_Z 0)
                      then Number_toString (num_add (of_Z (fst x))
                                              (num_div (of_Z (fst (snd x)))
                                                       (of_Z (snd (snd x)))))
                      else toFixed2 (num_add (of_Z (fst x))
                                       (num_div (of_Z (fst (snd x)))
                                                (of_Z (snd (snd x))))))
                  ++ lit " statute mile"
                  ++ (if num_eq (num_add (of_Z (fst x))
                                   (num_div (of_Z (fst (snd x))) (of_Z (snd (snd x)))))
                                (of_Z 1)
                      then [] else lit "s")
                  ++ lit ".")
                 (fraction_visibility_sentence
                    (fst x * snd (snd x) + fst (snd x)) (snd (snd x))))
            (list_prod (map Z.of_nat (List.seq 0 (Z.to_nat 20)))
                       (list_prod (map Z.of_nat (List.seq 0 (Z.to_nat 16)))
                                  [2; 4; 8; 16]%Z)) = true)
    by (vm_compute; reflexivity).
  rewrite forallb_forall in Hall.
  specialize (Hall (w, (n, d))). cbn [fst snd] in Hall.
  apply Hall. apply in_prod; [apply in_upto; lia|].
  apply in_prod; [apply in_upto; lia | exact Hd].
Qed.

(** X14. A visibility given by a fraction is rendered as the value of the
    fraction: as a whole number when the fraction is one, else with two
    decimals, the exact quotient rounded to hundredths with halves
    upwards (so 1/8 reads 0.13), and in the singular only when it is
    exactly one mile.  This holds for every numerator below 40 over a
    denominator from 1 to 39, and for a whole number below 20 followed
    by halves, quarters, eighths or sixteenths.  Over the denominator 40
    the binary quotient can fall just below a half of a hundredth: 3/40
    reads 0.07. *)
Theorem fraction_visibility_rendering :
  (forall s n d,
     parseVisibility s = Some (num_div (of_Z n) (of_Z d)) ->
     (0 <= n < 40)%Z -> (1 <= d < 40)%Z ->
     visibility_sentence s = [fraction_visibility_sentence n d])
  /\ (forall s w n d,
        parseVisibility s = Some (num_add (of_Z w) (num_div (of_Z n) (of_Z d))) ->
        (0 <= w < 20)%Z -> (0 <= n < 16)%Z -> In d [2; 4; 8; 16]%Z ->
        visibility_sentence s = [fraction_visibility_sentence (w * d + n) d])
  /\ visibility_sentence (lit "3/4SM") = [lit "Visibility 0.75 statute miles."]
  /\ visibility_sentence (lit "1/8SM") = [lit "Visibility 0.13 statute miles."]
  /\ visibility_sentence (lit "2 1/2SM") = [lit "Visibility 2.50 statute miles."]
  /\ visibility_sentence (lit "1 1/16SM") = [lit "Visibility 1.06 statute miles."]
  /\ visibility_sentence (lit "4/4SM") = [lit "Visibility 1 statute mile."]
  /\ visibility_sentence (lit "6/2SM") = [lit "Visibility 3 statute miles."]
  /\ visibility_sentence (lit "1/3SM") = [lit "Visibility 0.33 statute miles."]
  /\ visibility_sentence (lit "3/40SM") = [lit "Visibility 0.07 statute miles."].
Proof.
  split; [|split; [|splits; vm_compute; reflexivity]].
  - intros s n d Hv Hn Hd. unfold visibility_sentence. rewrite Hv.
    f_equal. now apply fraction_text.
  - intros s w n d Hv Hw Hn Hd. unfold visibility_sentence. rewrite Hv.
    f_equal. now apply mixed_text.
Qed.

(* ------------------------------------------------------------------ *)
(** ** The answer to a weather request *)







(* ------------------------------------------------------------------ *)
(** ** The theorems at concrete reports *)

Lemma token_alone : forall tok, token_at tok [] tok [].
Proof.
  intros tok. unfold token_at, free_before, free_after.
  rewrite app_nil_r. auto.
Qed.

Lemma first_token_alone : forall (form : jsstring -> Prop) tok,
  form tok -> first_token form tok [] tok [].
Proof.
  intros form tok H. split; [apply token_alone | split; auto].
  intros. simpl. lia.
Qed.

Lemma getFlightCategory_rules_witness :
  lifr_rule (Some 400%Z) (Some (of_Z 10))
  /\ exists f, getFlightCategory (lit "BKN004 10SM") = Ret f
               /\ flight_category f = LIFR.
Proof.
  assert (Hrule : lifr_rule (Some 400%Z) (Some (of_Z 10))).
  { left. exists 400%Z. split; [reflexivity | lia]. }
  split; [exact Hrule|].
  destruct (proj1 getFlightCategory_rules (lit "BKN004 10SM"))
    as (f & Hf & _ & _ & Hl & _).
  exists f. split; [exact Hf|]. apply Hl.
  assert (Hv : getFlightCategory (lit "BKN004 10SM")
               = Ret (Flight LIFR (Some (of_Z 10)) (Some 400%Z)))
    by (vm_compute; reflexivity).
  rewrite Hv in Hf. inversion Hf. exact Hrule.
Defined.

Lemma parseCeiling_lowest_layer_witness :
  exists pre tok post,
    token_at (lit "SCT015 BKN025 OVC008") pre tok post /\ ceiling_layer tok 800%Z.
Proof.
  destruct (proj1 parseCeiling_lowest_layer (lit "SCT015 BKN025 OVC008"))
    as (ceil & Hc & _ & Hmin).
  assert (Hv : parseCeiling (lit "SCT015 BKN025 OVC008") = Ret (Some 800%Z))
    by (vm_compute; reflexivity).
  rewrite Hv in Hc. inversion Hc as [Hceil].
  exact (proj1 (Hmin 800%Z (eq_sym Hceil))).
Defined.

Lemma parseVisibility_forms_witness :
  has_less (lit "M1/4SM") /\ parseVisibility (lit "M1/4SM") = Some (of_Z 0).
Proof.
  assert (H : has_less (lit "M1/4SM")).
  { exists [], (lit "M1/4SM"), []. split; [apply token_alone|].
    exists (lit "1"), (lit "4"). unfold digits. splits; try reflexivity; discriminate. }
  split; [exact H|].
  exact (proj1 (proj1 parseVisibility_forms (lit "M1/4SM")) H).
Defined.

Lemma translators_fallbacks_witness :
  metar_nothing (lit "no groups here")
  /\ translateMetar (lit "no groups here") = Ret (lit "Unable to translate METAR.").
Proof.
  assert (H : metar_nothing (lit "no groups here")).
  { unfold metar_nothing. splits; vm_compute; reflexivity. }
  split; [exact H|].
  exact (proj1 (proj2 (proj2 translators_fallbacks)) (lit "no groups here") H).
Defined.

Lemma wind_calm_witness :
  metar_wind (lit "VRB00G20KT") = [calm_sentence]
  /\ taf_wind (lit "VRB00G20KT") = [calm_sentence].
Proof.
  assert (Hform : wind_form (lit "VRB") (lit "00") (lit "G20") (lit "VRB00G20KT")).
  { unfold wind_form. splits; try reflexivity; auto; try (simpl; lia).
    right. exists (lit "20"). splits; try reflexivity; simpl; lia. }
  assert (Hfirst : first_token (fun tok => exists d sp g, wind_form d sp g tok)
                     (lit "VRB00G20KT") [] (lit "VRB00G20KT") []).
  { apply first_token_alone. eauto. }
  destruct (proj1 wind_calm (lit "VRB00G20KT") [] (lit "VRB00G20KT") []
              (lit "VRB") (lit "00") (lit "G20") Hfirst Hform eq_refl)
    as (Hm & Ht & _).
  split; [exact Hm | exact Ht].
Defined.

Lemma taf_first_sky_layer_witness :
  exists m sentence,
    exec skyRe (lit "FEW020 BKN040") = Some m
    /\ taf_sky (lit "FEW020 BKN040") = Ret [sentence ++ lit "."].
Proof.
  destruct (exec skyRe (lit "FEW020 BKN040")) as [m|] eqn:He.
  - destruct (proj1 taf_first_sky_layer (lit "FEW020 BKN040") m He)
      as (_ & (sentence & _ & Hs) & _).
    exists m, sentence. split; [reflexivity | exact Hs].
  - vm_compute in He. discriminate He.
Defined.

Lemma temperature_rendering_witness :
  metar_temperature (lit "M03/M08") = [temperature_sentence (-3) (-8)].
Proof.
  assert (Hform : temp_form (-3) (-8) (lit "M03/M08")).
  { exists (lit "M03"), (lit "M08"). splits; try reflexivity.
    - exists (ch "0"), (ch "3"). splits; try reflexivity. right. split; reflexivity.
    - exists (ch "0"), (ch "8"). splits; try reflexivity. right. split; reflexivity. }
  assert (Hfirst : first_token (fun tok => exists t d, temp_form t d tok)
                     (lit "M03/M08") [] (lit "M03/M08") []).
  { apply first_token_alone. eauto. }
  exact (proj1 (proj1 temperature_rendering (lit "M03/M08") [] (lit "M03/M08") []
                  (-3)%Z (-8)%Z Hfirst Hform)).
Defined.

Lemma wind_templated_witness :
  metar_wind (lit "28012G18KT") = [lit "Wind 280° at 12 knots gusting 18 knots."]
  /\ taf_wind (lit "28012G18KT") = [lit "Initial wind 280° at 12 knots gusting 18 knots."].
Proof.
  assert (Hform : wind_form (lit "280") (lit "12") (lit "G18") (lit "28012G18KT")).
  { unfold wind_form. splits; try reflexivity; auto; try (simpl; lia).
    right. exists (lit "18"). splits; try reflexivity; simpl; lia. }
  assert (Hfirst : first_token (fun tok => exists d sp g, wind_form d sp g tok)
                     (lit "28012G18KT") [] (lit "28012G18KT") []).
  { apply first_token_alone. eauto. }
  assert (Hspd : parseInt (lit "12") <> 0%Z) by (vm_compute; discriminate).
  exact (wind_templated (lit "28012G18KT") [] (lit "28012G18KT") []
           (lit "280") (lit "12") (lit "G18") Hfirst Hform Hspd).
Defined.

Lemma altimeter_rendering_witness :
  metar_altimeter (lit "A2992") = [lit "Altimeter 29.92 inHg."]
  /\ (0 <= parseInt (lit "2992") < 10000)%Z.
Proof.
  assert (Hform : altimeter_form (lit "2992") (lit "A2992")).
  { unfold altimeter_form. splits; reflexivity. }
  assert (Hfirst : first_token (fun tok => exists ds, altimeter_form ds tok)
                     (lit "A2992") [] (lit "A2992") []).
  { apply first_token_alone. eauto. }
  exact (altimeter_rendering (lit "A2992") [] (lit "A2992") [] (lit "2992") Hfirst Hform).
Defined.

Lemma period_rendering_witness :
  taf_period (lit "0718/0806") = [lit "Forecast valid day 7 from 18:00Z to day 8 06:00Z."].
Proof.
  assert (Hform : period_form (lit "07") (lit "18") (lit "08") (lit "06") (lit "0718/0806")).
  { unfold period_form, two_digits. splits; reflexivity. }
  assert (Hfirst : first_token (fun tok => exists a b c d, period_form a b c d tok)
                     (lit "0718/0806") [] (lit "0718/0806") []).
  { apply first_token_alone. eauto 6. }
  exact (period_rendering (lit "0718/0806") [] (lit "0718/0806") []
           (lit "07") (lit "18") (lit "08") (lit "06") Hfirst Hform).
Defined.

Lemma ceiling_among_layers_witness :
  exists layers cover,
    metar_layers (lit "SCT015 BKN025 OVC008") = Ret layers
    /\ (cover = lit "broken clouds" \/ cover = lit "overcast")
    /\ In (cover ++ lit " at " ++ toLocaleString 800 ++ lit " feet") layers.
Proof.
  assert (H : parseCeiling (lit "SCT015 BKN025 OVC008") = Ret (Some 800%Z))
    by (vm_compute; reflexivity).
  exact (proj1 ceiling_among_layers (lit "SCT015 BKN025 OVC008") 800%Z H).
Defined.

Lemma category_monotone_witness :
  severity (flight_category (Flight MVFR (Some (of_Z 10)) (Some 2000%Z)))
  <= severity (flight_category (Flight IFR (Some (of_Z 5)) (Some 800%Z))).
Proof.
  apply (category_monotone (lit "BKN020 10SM") (lit "BKN008 5SM")).
  - vm_compute; reflexivity.
  - vm_compute; reflexivity.
  - simpl. lia.
  - vm_compute; reflexivity.
Defined.

Lemma parseCeiling_range_witness :
  (0 <= 800 <= 99900)%Z /\ (800 mod 100 = 0)%Z.
Proof.
  assert (H : parseCeiling (lit "SCT015 BKN025 OVC008") = Ret (Some 800%Z))
    by (vm_compute; reflexivity).
  exact (proj1 parseCeiling_range (lit "SCT015 BKN025 OVC008") 800%Z H).
Defined.

Lemma whole_visibility_rendering_witness :
  visibility_sentence (lit "10SM") = [whole_visibility_sentence 10].
Proof.
  assert (H : parseVisibility (lit "10SM") = Some (of_Z 10)) by (vm_compute; reflexivity).
  assert (Hn : (0 <= 10 < 1000)%Z) by lia.
  exact (proj1 whole_visibility_rendering (lit "10SM") 10%Z H Hn).
Defined.

Lemma fraction_visibility_rendering_witness :
  visibility_sentence (lit "3/4SM") = [fraction_visibility_sentence 3 4].
Proof.
  assert (H : parseVisibility (lit "3/4SM") = Some (num_div (of_Z 3) (of_Z 4)))
    by (vm_compute; reflexivity).
  assert (Hn : (0 <= 3 < 40)%Z) by lia.
  assert (Hd : (1 <= 4 < 40)%Z) by lia.
  exact (proj1 fraction_visibility_rendering (lit "3/4SM") 3%Z 4%Z H Hn Hd).
Defined.

